(** * TextBasedZombieGame: a shallow embedding of [main.py]

    The simulation core of the game (grid, entities, inventory, turn
    protocol, zombie behaviours and the fire action) is translated into
    executable definitions, one per Python method, and the properties of
    the specification are proved about them.

    Python objects have identity and mutable fields, so entities are
    references into an object store; the grid's dictionary keeps its
    insertion order and is an association list; methods that can raise
    return an [outcome]. *)

From Stdlib Require Import ZArith List Bool Lia Ascii String Permutation Sorted.
Import ListNotations.
Local Open Scope Z_scope.

(** ** Positions *)

(** Modelled from the spec: [Position] is imported from [main_support],
    which is not part of the sources.  The spec gives it as an immutable
    pair of signed integers with coordinate-wise [add] and Manhattan
    [distance]. *)
Record Position := Pos { get_x : Z; get_y : Z }.

Module Position.
Definition add (self other : Position) : Position :=
  Pos (get_x self + get_x other) (get_y self + get_y other).

Definition distance (self other : Position) : Z :=
  Z.abs (get_x self - get_x other) + Z.abs (get_y self - get_y other).

Definition eqb (p q : Position) : bool :=
  (get_x p =? get_x q) && (get_y p =? get_y q).
End Position.

(** ** Exceptions and outcomes *)

Inductive exn := AttributeError | ValueError.

(** A call either returns a value, or raises with whatever mutation it had
    already performed.  [OutOfFuel] is the bounded model of a loop giving
    up; the theorems show the bounds used are never reached. *)
Inductive outcome (S A : Type) :=
| Return (a : A) (s : S)
| Raise (e : exn) (s : S)
| OutOfFuel.
Arguments Return {S A} a s.
Arguments Raise {S A} e s.
Arguments OutOfFuel {S A}.

Definition M (S A : Type) := S -> outcome S A.

Definition ret {S A} (a : A) : M S A := fun s => Return a s.
Definition raise {S A} (e : exn) : M S A := fun s => Raise e s.
Definition bind {S A B} (c : M S A) (k : A -> M S B) : M S B :=
  fun s => match c s with
           | Return a s' => k a s'
           | Raise e s' => Raise e s'
           | OutOfFuel => OutOfFuel
           end.
Definition get {S} : M S S := fun s => Return s s.
Definition put {S} (s : S) : M S unit := fun _ => Return tt s.
Definition modify {S} (f : S -> S) : M S unit := fun s => Return tt (f s).

Declare Scope py_scope.
Delimit Scope py_scope with py.
Notation "x <- c ;; k" := (bind c (fun x => k))
  (at level 61, c at next level, right associativity) : py_scope.
Notation "c ;;; k" := (bind c (fun _ => k))
  (at level 61, right associativity) : py_scope.

(** The state reached, when there is one. *)
Definition final {S A} (o : outcome S A) : option S :=
  match o with
  | Return _ s | Raise _ s => Some s
  | OutOfFuel => None
  end.

(** ** Classes and objects *)

Inductive class :=
| Entity | Player | Hospital | VulnerablePlayer | Zombie | TrackingZombie
| Pickup | Garlic | Crossbow | HoldingPlayer.

Definition class_eqb (c d : class) : bool :=
  match c, d with
  | Entity, Entity | Player, Player | Hospital, Hospital
  | VulnerablePlayer, VulnerablePlayer | Zombie, Zombie
  | TrackingZombie, TrackingZombie | Pickup, Pickup | Garlic, Garlic
  | Crossbow, Crossbow | HoldingPlayer, HoldingPlayer => true
  | _, _ => false
  end.

(** The class statements of the source. *)
Definition base (c : class) : option class :=
  match c with
  | Entity => None
  | Player | Hospital | Zombie | Pickup => Some Entity
  | VulnerablePlayer => Some Player
  | HoldingPlayer => Some VulnerablePlayer
  | TrackingZombie => Some Zombie
  | Garlic | Crossbow => Some Pickup
  end.

Fixpoint issubclass_upto (n : nat) (c d : class) : bool :=
  class_eqb c d ||
  match n, base c with
  | S n', Some b => issubclass_upto n' b d
  | _, _ => false
  end.

(** The deepest chain, HoldingPlayer < VulnerablePlayer < Player < Entity,
    has three links. *)
Definition issubclass : class -> class -> bool := issubclass_upto 3.

(** Object identity: Python compares entities by identity ([Entity] defines
    no [__eq__]), so a reference is the entity as far as [==], [!=] and
    [list.remove] are concerned. *)
Definition ref := nat.

(** An [Inventory] instance: its list of items.  Its methods also touch the
    items themselves, which live in the object store. *)
Record Inventory := mkInventory { items : list ref }.

(** The instances the map loaders create, with their instance attributes.
    The abstract classes [Entity] and [Pickup] are never instantiated. *)
Inductive object :=
| PlayerObj
| HospitalObj
| ZombieObj
| TrackingZombieObj
| VulnerablePlayerObj (infected : bool)
| HoldingPlayerObj (infected : bool) (inventory : Inventory)
| GarlicObj (remaining_steps : Z)
| CrossbowObj (remaining_steps : Z).

Definition class_of (o : object) : class :=
  match o with
  | PlayerObj => Player
  | HospitalObj => Hospital
  | ZombieObj => Zombie
  | TrackingZombieObj => TrackingZombie
  | VulnerablePlayerObj _ => VulnerablePlayer
  | HoldingPlayerObj _ _ => HoldingPlayer
  | GarlicObj _ => Garlic
  | CrossbowObj _ => Crossbow
  end.

Definition isinstance (o : object) (c : class) : bool :=
  issubclass (class_of o) c.

(** The object store: every reference denotes an object. *)
Definition heap := ref -> object.

Definition heap_set (h : heap) (r : ref) (o : object) : heap :=
  fun r' => if Nat.eqb r' r then o else h r'.

(** Modelled from the spec: the display tags are constants of
    [main_support]; the docstrings of the [display] methods and section 6
    of the spec give their values. *)
Definition PLAYER : string := "P".
Definition HOSPITAL : string := "H".
Definition ZOMBIE : string := "Z".
Definition TRACKING_ZOMBIE : string := "T".
Definition GARLIC : string := "G".
Definition CROSSBOW : string := "C".

Definition display (o : object) : string :=
  match o with
  | PlayerObj | VulnerablePlayerObj _ | HoldingPlayerObj _ _ => PLAYER
  | HospitalObj => HOSPITAL
  | ZombieObj => ZOMBIE
  | TrackingZombieObj => TRACKING_ZOMBIE
  | GarlicObj _ => GARLIC
  | CrossbowObj _ => CROSSBOW
  end.

(** ** Python lists and dictionaries *)

(** [list.remove(x)]: drops the first element equal to [x]; [None] stands
    for the [ValueError] raised when there is none. *)
Fixpoint list_remove (x : ref) (l : list ref) : option (list ref) :=
  match l with
  | [] => None
  | y :: l' =>
      if Nat.eqb x y then Some l'
      else match list_remove x l' with
           | Some l'' => Some (y :: l'')
           | None => None
           end
  end.

(** [EntityLocations]: a dictionary from coordinate tuples to entities.
    Python dictionaries iterate in insertion order, so the entries are kept
    as a list, oldest first. *)
Definition key := (Z * Z)%type.
Definition dict := list (key * ref).

Definition key_eqb (a b : key) : bool :=
  (fst a =? fst b) && (snd a =? snd b).

Fixpoint dict_get (d : dict) (k : key) : option ref :=
  match d with
  | [] => None
  | (k', v) :: d' => if key_eqb k k' then Some v else dict_get d' k
  end.

(** The dictionary without the key [k].  A dictionary has one entry per
    key, so dropping whatever is stored under [k] drops that entry and
    keeps the others in their order. *)
Definition without (k : key) (d : dict) : dict :=
  filter (fun kv => negb (key_eqb k (fst kv))) d.

(** [d.pop(k, None)]: the value removed, and the dictionary without [k]. *)
Definition dict_pop (k : key) (d : dict) : option ref * dict :=
  (dict_get d k, without k d).

(** [d.update({k: v})]: an existing key keeps its place, a new one goes
    last. *)
Fixpoint dict_update (k : key) (v : ref) (d : dict) : dict :=
  match d with
  | [] => [(k, v)]
  | (k', v') :: d' =>
      if key_eqb k k' then (k, v) :: d' else (k', v') :: dict_update k v d'
  end.

Definition keys (d : dict) : list key := map fst d.
Definition values (d : dict) : list ref := map snd d.

(** ** Grid *)

Record Grid := mkGrid {
  size : Z;
  entities : list ref;
  EntityLocations : dict
}.

Definition tuple_of (p : Position) : key := (get_x p, get_y p).

Module Grid.

Definition init (size : Z) : Grid := mkGrid size [] [].

Definition get_size (self : Grid) : Z := size self.

Definition in_bounds (self : Grid) (position : Position) : bool :=
  ((0 <=? get_x position) && (get_x position <? size self)) &&
  ((0 <=? get_y position) && (get_y position <? size self)).

(** [self.EntityLocations.pop(k, None)] *)
Definition pop_location (k : key) : M Grid (option ref) := fun self =>
  let '(v, d) := dict_pop k (EntityLocations self) in
  Return v (mkGrid (size self) (entities self) d).

(** [self.EntityLocations.update({k: v})] *)
Definition update_location (k : key) (v : ref) : M Grid unit :=
  modify (fun self =>
    mkGrid (size self) (entities self) (dict_update k v (EntityLocations self))).

(** [self.entities.remove(e)] *)
Definition remove_from_entities (e : ref) : M Grid unit := fun self =>
  match list_remove e (entities self) with
  | Some l => Return tt (mkGrid (size self) l (EntityLocations self))
  | None => Raise ValueError self
  end.

(** [self.entities.append(e)] *)
Definition append_to_entities (e : ref) : M Grid unit :=
  modify (fun self =>
    mkGrid (size self) (entities self ++ [e]) (EntityLocations self)).

Definition add_entity (position : Position) (entity : ref) : M Grid unit :=
  fun self =>
  if negb (in_bounds self position) then Return tt self
  else
    (entity_removed <- pop_location (tuple_of position) ;;
     match entity_removed with
     | Some r => remove_from_entities r
     | None => ret tt
     end ;;;
     update_location (tuple_of position) entity ;;;
     append_to_entities entity)%py self.

Definition remove_entity (position : Position) : M Grid unit :=
  fun self =>
  if negb (in_bounds self position) then Return tt self
  else
    (entity_at_position <- pop_location (tuple_of position) ;;
     match entity_at_position with
     | Some r => remove_from_entities r
     | None => ret tt
     end)%py self.

Definition get_entity (self : Grid) (position : Position) : option ref :=
  if negb (in_bounds self position) then None
  else dict_get (EntityLocations self) (tuple_of position).

(** The fresh dictionary built by [get_mapping], as its items in order. *)
Definition get_mapping (self : Grid) : list (Position * ref) :=
  map (fun kv => (Pos (fst (fst kv)) (snd (fst kv)), snd kv))
      (EntityLocations self).

Definition get_entities (self : Grid) : list ref := entities self.

Definition move_entity (start end_ : Position) : M Grid unit :=
  fun self =>
  if negb (in_bounds self start) || negb (in_bounds self end_)
  then Return tt self
  else
    (entity_at_start <- pop_location (tuple_of start) ;;
     match entity_at_start with
     | Some r =>
         remove_entity end_ ;;;
         update_location (tuple_of end_) r
     | None => ret tt
     end)%py self.

(** [isinstance(value, Player)] needs the object behind the reference. *)
Fixpoint find_player_in (h : heap) (d : dict) : option Position :=
  match d with
  | [] => None
  | (k, v) :: d' =>
      if isinstance (h v) Player then Some (Pos (fst k) (snd k))
      else find_player_in h d'
  end.

Definition find_player (h : heap) (self : Grid) : option Position :=
  find_player_in h (EntityLocations self).

Definition serialize (h : heap) (self : Grid) : list (key * string) :=
  map (fun kv => (fst kv, display (h (snd kv)))) (EntityLocations self).

End Grid.


(** ** Pickups and the inventory *)

Module Pickup.

Definition get_lifetime (self : object) : option Z :=
  match self with
  | GarlicObj n | CrossbowObj n => Some n
  | _ => None
  end.

(** [self.remaining_steps -= 1]; anything that is not a pickup has no
    [hold] method. *)
Definition hold (self : ref) : M heap unit := fun h =>
  match h self with
  | GarlicObj n => Return tt (heap_set h self (GarlicObj (n - 1)))
  | CrossbowObj n => Return tt (heap_set h self (CrossbowObj (n - 1)))
  | _ => Raise AttributeError h
  end.

End Pickup.

Module Inventory.

Definition init : Inventory := mkInventory [].

(** The [for item in self.items] loop of [step].  Python's list iterator
    keeps an index [i] into the live list and stops when [i] reaches its
    current length, so a removal inside the body shifts what the next
    index sees. *)
Fixpoint step_loop (fuel i : nat) : M (heap * Inventory) unit := fun s =>
  match fuel with
  | O => OutOfFuel
  | S fuel' =>
      let '(h, self) := s in
      match nth_error (items self) i with
      | None => Return tt s
      | Some item =>
          match Pickup.hold item h with
          | Return _ h1 =>
              match Pickup.get_lifetime (h1 item) with
              | Some n =>
                  if n <=? 0 then
                    match list_remove item (items self) with
                    | Some l => step_loop fuel' (S i) (h1, mkInventory l)
                    | None => Raise ValueError (h1, self)
                    end
                  else step_loop fuel' (S i) (h1, self)
              | None => Raise AttributeError (h1, self)
              end
          | Raise e h1 => Raise e (h1, self)
          | OutOfFuel => OutOfFuel
          end
      end
  end.

(** Every round advances the index, and the list never grows: one round
    per item and the final test of the iterator are enough. *)
Definition step : M (heap * Inventory) unit := fun s =>
  step_loop (S (List.length (items (snd s)))) 0 s.

Definition add_item (item : ref) (self : Inventory) : Inventory :=
  mkInventory (items self ++ [item]).

Definition get_items (self : Inventory) : list ref := items self.

Fixpoint contains_in (h : heap) (l : list ref) (pickup_id : string) : bool :=
  match l with
  | [] => false
  | item :: l' =>
      if String.eqb pickup_id (display (h item)) then true
      else contains_in h l' pickup_id
  end.

Definition contains (h : heap) (self : Inventory) (pickup_id : string) : bool :=
  contains_in h (items self) pickup_id.

End Inventory.


(** ** The world of a running game *)

Inductive game_class := Game | IntermediateGame | AdvancedGame.

(** Modelled from the spec: the texts printed by the fire action are
    constants of [main_support]; only which one is printed matters here. *)
Inductive message :=
| NO_WEAPON_MESSAGE | INVALID_FIRING_MESSAGE | NO_ZOMBIE_MESSAGE.

(** A [Game] instance ([grid], [no_steps], and the class it was built
    from) together with what its methods reach: the object store, the
    random source and the console.  [random_directions] is a function of
    [main_support]; the [k]-th call returns [random_directions k], and
    [draws] counts the calls made.  [calls] is a record of the [step]
    methods invoked on entities, kept to state what a turn does. *)
Record World := mkWorld {
  game_class_of : game_class;
  grid : Grid;
  no_steps : Z;
  store : heap;
  random_directions : nat -> list (Z * Z);
  draws : nat;
  stdout : list message;
  calls : list (Position * ref)
}.

Definition set_grid (g : Grid) (w : World) : World :=
  mkWorld (game_class_of w) g (no_steps w) (store w) (random_directions w)
          (draws w) (stdout w) (calls w).

Definition set_no_steps (n : Z) (w : World) : World :=
  mkWorld (game_class_of w) (grid w) n (store w) (random_directions w)
          (draws w) (stdout w) (calls w).

Definition set_store (h : heap) (w : World) : World :=
  mkWorld (game_class_of w) (grid w) (no_steps w) h (random_directions w)
          (draws w) (stdout w) (calls w).

Definition set_draws (n : nat) (w : World) : World :=
  mkWorld (game_class_of w) (grid w) (no_steps w) (store w)
          (random_directions w) n (stdout w) (calls w).

Definition print (m : message) : M World unit :=
  modify (fun w =>
    mkWorld (game_class_of w) (grid w) (no_steps w) (store w)
            (random_directions w) (draws w) (stdout w ++ [m]) (calls w)).

Definition record_call (position : Position) (entity : ref) : M World unit :=
  modify (fun w =>
    mkWorld (game_class_of w) (grid w) (no_steps w) (store w)
            (random_directions w) (draws w) (stdout w)
            (calls w ++ [(position, entity)])).

(** A method of the grid, run on the grid of the game. *)
Definition on_grid {A} (c : M Grid A) : M World A := fun w =>
  match c (grid w) with
  | Return a g => Return a (set_grid g w)
  | Raise e g => Raise e (set_grid g w)
  | OutOfFuel => OutOfFuel
  end.

(** A method of an object, run on the object store of the game. *)
Definition on_store {A} (c : M heap A) : M World A := fun w =>
  match c (store w) with
  | Return a h => Return a (set_store h w)
  | Raise e h => Raise e (set_store h w)
  | OutOfFuel => OutOfFuel
  end.

Fixpoint for_each {S A} (l : list A) (body : A -> M S unit) : M S unit :=
  match l with
  | [] => ret tt
  | a :: l' => (body a ;;; for_each l' body)%py
  end.

(** ** Players *)

Module VulnerablePlayer.

(** [self.infected = True].  The method is only ever bound to instances of
    [VulnerablePlayer] and its subclass. *)
Definition infect (self : ref) : M heap unit := fun h =>
  match h self with
  | VulnerablePlayerObj _ =>
      Return tt (heap_set h self (VulnerablePlayerObj true))
  | HoldingPlayerObj _ inv =>
      Return tt (heap_set h self (HoldingPlayerObj true inv))
  | _ => Raise AttributeError h
  end.

Definition is_infected (self : object) : option bool :=
  match self with
  | VulnerablePlayerObj b | HoldingPlayerObj b _ => Some b
  | _ => None
  end.

End VulnerablePlayer.

Module HoldingPlayer.

Definition get_inventory (self : object) : option Inventory :=
  match self with
  | HoldingPlayerObj _ inv => Some inv
  | _ => None
  end.

Definition infect (self : ref) : M heap unit := fun h =>
  match get_inventory (h self) with
  | Some inv =>
      if Inventory.contains h inv GARLIC then Return tt h
      else VulnerablePlayer.infect self h
  | None => Raise AttributeError h
  end.

(** [self.inventory.step()]: the inventory is an attribute of the player,
    so what the call leaves of it, also when it raises, is the player's
    inventory afterwards. *)
Definition step (self : ref) : M heap unit := fun h =>
  match h self with
  | HoldingPlayerObj b inv =>
      match Inventory.step (h, inv) with
      | Return _ (h', inv') =>
          Return tt (heap_set h' self (HoldingPlayerObj b inv'))
      | Raise e (h', inv') =>
          Raise e (heap_set h' self (HoldingPlayerObj b inv'))
      | OutOfFuel => OutOfFuel
      end
  | _ => Raise AttributeError h
  end.

End HoldingPlayer.

(** [player.infect()], dispatched on the class of [player]; [None] and the
    plain [Player] have no such method. *)
Definition call_infect (player : option ref) : M heap unit := fun h =>
  match player with
  | Some r =>
      match class_of (h r) with
      | VulnerablePlayer => VulnerablePlayer.infect r h
      | HoldingPlayer => HoldingPlayer.infect r h
      | _ => Raise AttributeError h
      end
  | None => Raise AttributeError h
  end.


(** ** Zombies *)

(** [Game.get_player], placed here because the zombies call it. *)
Definition get_player (w : World) : option ref :=
  match Grid.find_player (store w) (grid w) with
  | Some player_position => Grid.get_entity (grid w) player_position
  | None => None
  end.

(** The loop shared, word for word, by [Zombie.step] and
    [TrackingZombie.step]: try the offsets in turn. *)
Fixpoint try_offsets (position : Position) (offsets : list Position)
  : M World unit :=
  fun w =>
  match offsets with
  | [] => Return tt w
  | offset :: rest =>
      let final_position := Position.add position offset in
      if negb (Grid.in_bounds (grid w) final_position) then
        try_offsets position rest w
      else
        match Grid.get_entity (grid w) final_position with
        | None => on_grid (Grid.move_entity position final_position) w
        | Some e =>
            if isinstance (store w e) Player then
              on_store (call_infect (get_player w)) w
            else try_offsets position rest w
        end
  end.

Module Zombie.

Definition step (position : Position) : M World unit := fun w =>
  let rnd_directions := random_directions w (draws w) in
  let w := set_draws (S (draws w)) w in
  try_offsets position
    (map (fun direction => Pos (fst direction) (snd direction)) rnd_directions)
    w.

End Zombie.

Module TrackingZombie.

Definition offsets_list : list Position :=
  [Pos 0 1; Pos 0 (-1); Pos 1 0; Pos (-1) 0].

Definition directions_list : list ascii := ["S"; "N"; "E"; "W"]%char.

Definition distances_list (player_position position : Position) : list Z :=
  map (fun offset =>
         Position.distance player_position (Position.add offset position))
      offsets_list.

Definition entry := (Position * Z * ascii)%type.

(** [key=lambda x: (-x[1], x[2])], compared as Python compares tuples. *)
Definition sort_key (x : entry) : Z * ascii := (- snd (fst x), snd x).

Definition tuple_ltb (a b : Z * ascii) : bool :=
  (fst a <? fst b) || ((fst a =? fst b) && Ascii.ltb (snd a) (snd b)).

(** [sorted] is stable: an element goes after those already placed whose
    key is not greater. *)
Fixpoint insert (x : entry) (l : list entry) : list entry :=
  match l with
  | [] => [x]
  | y :: l' =>
      if tuple_ltb (sort_key y) (sort_key x) then y :: insert x l'
      else x :: y :: l'
  end.

Fixpoint sorted (l : list entry) : list entry :=
  match l with
  | [] => []
  | x :: l' => insert x (sorted l')
  end.

Definition compressed_list (player_position position : Position)
  : list entry :=
  rev (sorted (combine (combine offsets_list
                                (distances_list player_position position))
                       directions_list)).

Definition step (position : Position) : M World unit := fun w =>
  match Grid.find_player (store w) (grid w) with
  | None => Raise AttributeError w
  | Some player_position =>
      try_offsets position
        (map (fun x => fst (fst x)) (compressed_list player_position position))
        w
  end.

End TrackingZombie.

(** ** Game *)

(** Modelled from the spec: the action tokens are constants of
    [main_support]; the docstrings of [direction_to_offset] and
    [handle_action] give their values. *)
Definition UP : string := "W".
Definition DOWN : string := "S".
Definition LEFT : string := "A".
Definition RIGHT : string := "D".
Definition FIRE : string := "F".
Definition DIRECTIONS : list string := [UP; LEFT; DOWN; RIGHT].

(** [value.step(key, self)] in the loop of [Game.step]: the call is
    recorded, then dispatched on the class of [value]. *)
Definition call_step (key : Position) (value : ref) : M World unit :=
  (record_call key value ;;;
   fun w =>
     match class_of (store w value) with
     | Zombie => Zombie.step key w
     | TrackingZombie => TrackingZombie.step key w
     | HoldingPlayer => on_store (HoldingPlayer.step value) w
     | _ => Return tt w
     end)%py.

Module Game.

Definition get_grid (w : World) : Grid := grid w.

Definition step : M World unit :=
  (modify (fun w => set_no_steps (no_steps w + 1) w) ;;;
   w <- get ;;
   for_each (Grid.get_mapping (grid w))
            (fun kv => call_step (fst kv) (snd kv)))%py.

Definition get_steps (w : World) : Z := no_steps w.

Definition move_player (offset : Position) : M World unit := fun w =>
  match Grid.find_player (store w) (grid w) with
  | None => Raise AttributeError w
  | Some start_position =>
      let end_position := Position.add start_position offset in
      on_grid (Grid.move_entity start_position end_position) w
  end.

Definition direction_to_offset (direction : string) : option Position :=
  if String.eqb direction UP then Some (Pos 0 (-1))
  else if String.eqb direction DOWN then Some (Pos 0 1)
  else if String.eqb direction LEFT then Some (Pos (-1) 0)
  else if String.eqb direction RIGHT then Some (Pos 1 0)
  else None.

(** [repr(entity) == "Hospital()"] holds of hospitals only. *)
Definition has_won (w : World) : bool :=
  negb (existsb (fun entity => class_eqb (class_of (store w entity)) Hospital)
                (entities (grid w))).

Definition has_lost (w : World) : bool := false.

End Game.

Module IntermediateGame.

Definition has_lost (w : World) : option bool :=
  match get_player w with
  | Some player => VulnerablePlayer.is_infected (store w player)
  | None => None
  end.

End IntermediateGame.

Module AdvancedGame.

(** [self.get_player().get_inventory().add_item(entity_endpos)] *)
Definition pick_up (entity_endpos : ref) : M World unit := fun w =>
  match get_player w with
  | Some player =>
      match store w player with
      | HoldingPlayerObj b inv =>
          Return tt
            (set_store (heap_set (store w) player
                          (HoldingPlayerObj b (Inventory.add_item entity_endpos inv)))
                       w)
      | _ => Raise AttributeError w
      end
  | None => Raise AttributeError w
  end.

Definition move_player (offset : Position) : M World unit := fun w =>
  match Grid.find_player (store w) (grid w) with
  | None => Raise AttributeError w
  | Some start_position =>
      let end_position := Position.add start_position offset in
      (match Grid.get_entity (grid w) end_position with
       | Some entity_endpos =>
           if isinstance (store w entity_endpos) Pickup
           then pick_up entity_endpos else ret tt
       | None => ret tt
       end ;;;
       on_grid (Grid.move_entity start_position end_position))%py w
  end.

End AdvancedGame.

(** [game.move_player(offset)], dispatched on the class of the game. *)
Definition call_move_player (offset : Position) : M World unit := fun w =>
  match game_class_of w with
  | AdvancedGame => AdvancedGame.move_player offset w
  | _ => Game.move_player offset w
  end.

(** ** Interfaces *)

Module TextInterface.

Definition handle_action (action : string) : M World unit :=
  (match Game.direction_to_offset action with
   | Some offset_position => call_move_player offset_position
   | None => ret tt
   end ;;;
   Game.step)%py.

End TextInterface.

Module AdvancedTextInterface.

(** The [while True] loop of the fire action. *)
Fixpoint fire_loop (fuel : nat) (fire_direction : string)
    (current_position : Position) : M World unit :=
  fun w =>
  match fuel with
  | O => OutOfFuel
  | S fuel' =>
      match Game.direction_to_offset fire_direction with
      | None => Raise AttributeError w
      | Some offset =>
          let current_position := Position.add current_position offset in
          if negb (Grid.in_bounds (grid w) current_position) then
            print NO_ZOMBIE_MESSAGE w
          else
            match Grid.get_entity (grid w) current_position with
            | Some entity =>
                if isinstance (store w entity) Zombie
                   || isinstance (store w entity) TrackingZombie
                then on_grid (Grid.remove_entity current_position) w
                else print NO_ZOMBIE_MESSAGE w
            | None => fire_loop fuel' fire_direction current_position w
            end
      end
  end.

(** The body of [if action == FIRE:] up to, and without, the final
    [game.step()].  [fire_direction] is what [input(FIRE_PROMPT)] returns;
    it is read only when a crossbow is held.  A shot crosses at most
    [size] cells of the grid before it leaves it. *)
Definition fire (fire_direction : string) (current_position : Position)
    (inventory : Inventory) : M World unit :=
  fun w =>
  if Inventory.contains (store w) inventory CROSSBOW then
    if negb (existsb (String.eqb fire_direction) DIRECTIONS) then
      print INVALID_FIRING_MESSAGE w
    else
      fire_loop (S (Z.to_nat (size (grid w)))) fire_direction
                current_position w
  else print NO_WEAPON_MESSAGE w.

Definition handle_action (action fire_direction : string) : M World unit :=
  fun w =>
  match Grid.find_player (store w) (grid w), get_player w with
  | Some current_position, Some player =>
      match HoldingPlayer.get_inventory (store w player) with
      | Some inventory =>
          if String.eqb action FIRE then
            (fire fire_direction current_position inventory ;;;
             Game.step)%py w
          else TextInterface.handle_action action w
      | None => Raise AttributeError w
      end
  | _, _ => Raise AttributeError w
  end.

End AdvancedTextInterface.


(** * Specification vocabulary *)

(** ** The grid *)

Definition count (l : list ref) (e : ref) : nat := count_occ Nat.eq_dec l e.

(** The invariant of the grid: the dictionary has one entry per key, every
    entity of the mapping is exactly once in the ordered collection, and
    every entity of the ordered collection sits at exactly one position of
    the mapping. *)
Definition grid_inv (g : Grid) : Prop :=
  NoDup (keys (EntityLocations g)) /\
  (forall e, In e (values (EntityLocations g)) ->
             count (entities g) e = 1%nat) /\
  (forall e, In e (entities g) ->
             count (values (EntityLocations g)) e = 1%nat).

Inductive grid_op :=
| Add_entity (position : Position) (entity : ref)
| Remove_entity (position : Position)
| Move_entity (start end_ : Position).

Definition run_op (op : grid_op) : M Grid unit :=
  match op with
  | Add_entity position entity => Grid.add_entity position entity
  | Remove_entity position => Grid.remove_entity position
  | Move_entity start end_ => Grid.move_entity start end_
  end.

(** An operation adds no entity that the grid holds at another position. *)
Definition adds_no_duplicate (g : Grid) (op : grid_op) : Prop :=
  match op with
  | Add_entity position entity =>
      forall k, In (k, entity) (EntityLocations g) -> k = tuple_of position
  | _ => True
  end.

(** The ordered collection without the first occurrence of [e]. *)
Definition drop (e : option ref) (l : list ref) : list ref :=
  match e with
  | Some r => match list_remove r l with Some l' => l' | None => l end
  | None => l
  end.

(** What [remove_entity] leaves of a grid whose occupants are all in the
    ordered collection. *)
Definition removed (position : Position) (g : Grid) : Grid :=
  if Grid.in_bounds g position then
    mkGrid (size g)
           (drop (dict_get (EntityLocations g) (tuple_of position)) (entities g))
           (without (tuple_of position) (EntityLocations g))
  else g.

(** What [move_entity] and [add_entity] leave of such a grid. *)
Definition moved (start end_ : Position) (g : Grid) : Grid :=
  if Grid.in_bounds g start && Grid.in_bounds g end_ then
    match dict_get (EntityLocations g) (tuple_of start) with
    | Some r =>
        let g1 := removed end_
                    (mkGrid (size g) (entities g)
                            (without (tuple_of start) (EntityLocations g))) in
        mkGrid (size g1) (entities g1)
               (dict_update (tuple_of end_) r (EntityLocations g1))
    | None => g
    end
  else g.

Definition added (position : Position) (entity : ref) (g : Grid) : Grid :=
  if Grid.in_bounds g position then
    let g1 := removed position g in
    mkGrid (size g1) (entities g1 ++ [entity])
           (dict_update (tuple_of position) entity (EntityLocations g1))
  else g.

(** The entity of the ordered collection that [find_player] would return
    if it scanned that collection: the first player in it, and the position
    at which the mapping holds it. *)
Fixpoint position_of (e : ref) (d : dict) : option Position :=
  match d with
  | [] => None
  | (k, v) :: d' =>
      if Nat.eqb v e then Some (Pos (fst k) (snd k)) else position_of e d'
  end.

Definition find_player_by_collection (h : heap) (g : Grid) : option Position :=
  match find (fun e => isinstance (h e) Player) (entities g) with
  | Some e => position_of e (EntityLocations g)
  | None => None
  end.

(** ** Zombies *)

(** A candidate offset that the walk passes over: its destination is out
    of bounds, or is occupied by something that is not the player. *)
Definition blocked (w : World) (position offset : Position) : Prop :=
  let final_position := Position.add position offset in
  Grid.in_bounds (grid w) final_position = false \/
  exists e, Grid.get_entity (grid w) final_position = Some e /\
            isinstance (store w e) Player = false.

Definition unit_offset (o : Position) : Prop :=
  Z.abs (get_x o) + Z.abs (get_y o) = 1.

Definition adjacent (p q : Position) : Prop := Position.distance p q = 1.

(** The compass letter of an offset and its rank in the priority West,
    South, North, East. *)
Definition rank (d : ascii) : Z :=
  if Ascii.eqb d "W" then 0
  else if Ascii.eqb d "S" then 1
  else if Ascii.eqb d "N" then 2
  else 3.

(** Candidate [a] is tried before candidate [b]: it ends closer to the
    player, or as close and its direction has priority. *)
Definition tried_before (a b : TrackingZombie.entry) : Prop :=
  snd (fst a) < snd (fst b) \/
  (snd (fst a) = snd (fst b) /\ rank (snd a) < rank (snd b)).

(** The order of Python on the sort keys, as a proposition. *)
Definition key_lt (a b : Z * ascii) : Prop :=
  fst a < fst b \/
  (fst a = fst b /\ (N_of_ascii (snd a) < N_of_ascii (snd b))%N).

Definition key_ge (a b : TrackingZombie.entry) : Prop :=
  ~ key_lt (TrackingZombie.sort_key a) (TrackingZombie.sort_key b).

(** The four candidates of a tracking zombie, each with the distance from
    its destination to the player and its compass letter. *)
Definition candidates (player_position position : Position)
  : list TrackingZombie.entry :=
  map (fun od : Position * ascii =>
         (fst od,
          Position.distance player_position (Position.add position (fst od)),
          snd od))
      [(Pos 0 1, "S"%char); (Pos 0 (-1), "N"%char);
       (Pos 1 0, "E"%char); (Pos (-1) 0, "W"%char)].

(** What a step of the zombie [z] standing at [position] may do to the
    grid [g], giving [g']. *)
Definition zombie_frame (z : ref) (position : Position) (g g' : Grid) : Prop :=
  entities g' = entities g /\
  (forall e, (exists p, Grid.get_entity g' p = Some e) <->
             (exists p, Grid.get_entity g p = Some e)) /\
  (forall e p, e <> z ->
     (Grid.get_entity g' p = Some e <-> Grid.get_entity g p = Some e)) /\
  ((forall p, Grid.get_entity g' p = Grid.get_entity g p) \/
   exists final_position,
     adjacent position final_position /\
     Grid.in_bounds g final_position = true /\
     Grid.get_entity g final_position = None /\
     Grid.get_entity g' final_position = Some z /\
     Grid.get_entity g' position = None /\
     forall p, p <> position -> p <> final_position ->
               Grid.get_entity g' p = Grid.get_entity g p).

(** ** Example worlds *)

(** A heap with a vulnerable player 0, zombies 1 and 3, a tracking zombie
    2, and hospitals elsewhere. *)
Definition example_heap : heap := fun r =>
  match r with
  | 0%nat => VulnerablePlayerObj false
  | 1%nat | 3%nat => ZombieObj
  | 2%nat => TrackingZombieObj
  | _ => HospitalObj
  end.

Definition example_world (g : Grid) : World :=
  mkWorld IntermediateGame g 0 example_heap
          (fun _ => [(0, 1); (0, -1); (1, 0); (-1, 0)]) 0 [] [].

(** ** The fire action *)

(** The [k]-th cell from [p] in the direction [offset]. *)
Definition ray (p offset : Position) (k : nat) : Position :=
  Pos (get_x p + Z.of_nat k * get_x offset)
      (get_y p + Z.of_nat k * get_y offset).

(** The action returned, printed [m] and changed nothing else. *)
Definition fire_misses (m : message) (o : outcome World unit) (w : World)
  : Prop :=
  exists w', o = Return tt w' /\
             grid w' = grid w /\ store w' = store w /\
             stdout w' = stdout w ++ [m].

(** The action returned, printed nothing, and took the entity [e] at
    [target] out of the grid, leaving every other cell as it was. *)
Definition fire_hits (target : Position) (e : ref) (o : outcome World unit)
    (w : World) : Prop :=
  exists w', o = Return tt w' /\
             store w' = store w /\ stdout w' = stdout w /\
             Grid.get_entity (grid w') target = None /\
             (forall p, p <> target ->
                Grid.get_entity (grid w') p = Grid.get_entity (grid w) p) /\
             entities (grid w') = drop (Some e) (entities (grid w)) /\
             ~ In e (entities (grid w')).

(** A cell the shot flies through: in bounds and empty. *)
Definition clear (w : World) (p : Position) : Prop :=
  Grid.in_bounds (grid w) p = true /\ Grid.get_entity (grid w) p = None.

(** The shot is decided at [target]: out of bounds or a first entity that
    is no zombie, and the action misses; a zombie, and it is removed. *)
Definition fire_stops_at (target : Position) (o : outcome World unit)
    (w : World) : Prop :=
  (Grid.in_bounds (grid w) target = false /\
   fire_misses NO_ZOMBIE_MESSAGE o w) \/
  (exists e, Grid.get_entity (grid w) target = Some e /\
             isinstance (store w e) Zombie = true /\
             fire_hits target e o w) \/
  (exists e, Grid.get_entity (grid w) target = Some e /\
             isinstance (store w e) Zombie = false /\
             fire_misses NO_ZOMBIE_MESSAGE o w).

(** ** A turn *)

Definition keys_in_bounds (g : Grid) : Prop :=
  forall k, In k (keys (EntityLocations g)) ->
            Grid.in_bounds g (Pos (fst k) (snd k)) = true.

(** The games the loaders of the source set up: the grid satisfies its
    invariant and only has positions in bounds; its players can be
    infected (none is a plain [Player]); a player is there when a tracking
    zombie is; and inventories hold pickups. *)
Definition game_ok (w : World) : Prop :=
  grid_inv (grid w) /\
  keys_in_bounds (grid w) /\
  (forall e, In e (entities (grid w)) -> class_of (store w e) <> Player) /\
  (forall e, In e (entities (grid w)) ->
     class_of (store w e) = TrackingZombie ->
     exists p, In p (entities (grid w)) /\
               isinstance (store w p) Player = true) /\
  (forall e b inv, In e (entities (grid w)) ->
     store w e = HoldingPlayerObj b inv ->
     forall item, In item (items inv) ->
                  isinstance (store w item) Pickup = true).

(** What the methods called during a turn may do to the object store:
    no object changes class, and no inventory gains an item. *)
Definition heap_evolves (h h' : heap) : Prop :=
  forall r, class_of (h' r) = class_of (h r) /\
            forall b' inv', h' r = HoldingPlayerObj b' inv' ->
              exists b inv, h r = HoldingPlayerObj b inv /\
                            incl (items inv') (items inv).

(** A world after an entity has taken its step in a well-formed game. *)
Definition stepped (w w' : World) : Prop :=
  game_ok w' /\ entities (grid w') = entities (grid w) /\
  calls w' = calls w /\ no_steps w' = no_steps w.

(** ** A turn *)

(** The per-turn behaviour of an entity: the [step] that its class
    defines, or the one it inherits from [Entity], which does nothing. *)
Definition behaviour (position : Position) (entity : ref) : M World unit :=
  fun w =>
  match store w entity with
  | ZombieObj => Zombie.step position w
  | TrackingZombieObj => TrackingZombie.step position w
  | HoldingPlayerObj _ _ => on_store (HoldingPlayer.step entity) w
  | PlayerObj | HospitalObj | VulnerablePlayerObj _
  | GarlicObj _ | CrossbowObj _ => Return tt w
  end.

(** A walk over a frozen list of (position, entity) pairs, from a world
    to the outcome of the turn.  The pairs are taken in order; each has
    the behaviour of its entity invoked once, with the position of the
    pair, in the world that the pairs before it have left.  The walk ends
    with the list, or at the first behaviour that raises, whose exception
    is the outcome; the pairs after it are not visited. *)
Inductive visits
  : list (Position * ref) -> World -> outcome World unit -> Prop :=
| visits_done (w : World) : visits [] w (Return tt w)
| visits_next (p : Position) (e : ref) (rest : list (Position * ref))
    (w w1 : World) (o : outcome World unit) :
    (record_call p e ;;; behaviour p e)%py w = Return tt w1 ->
    visits rest w1 o ->
    visits ((p, e) :: rest) w o
| visits_raise (p : Position) (e : ref) (rest : list (Position * ref))
    (w w1 : World) (x : exn) :
    (record_call p e ;;; behaviour p e)%py w = Raise x w1 ->
    visits ((p, e) :: rest) w (Raise x w1).

(** The game states in which no step of a turn raises: the grid
    satisfies its invariant and only has positions in bounds; where a
    zombie is on the grid, the players can be infected (none is a plain
    [Player]); a player is there when a tracking zombie is; and
    inventories hold pickups.  The games of a plain [Player] and
    hospitals, which [BasicMapLoader] sets up, are among them. *)
Definition turn_ok (w : World) : Prop :=
  grid_inv (grid w) /\
  keys_in_bounds (grid w) /\
  (forall z e, In z (entities (grid w)) ->
     isinstance (store w z) Zombie = true ->
     In e (entities (grid w)) -> class_of (store w e) <> Player) /\
  (forall e, In e (entities (grid w)) ->
     class_of (store w e) = TrackingZombie ->
     exists p, In p (entities (grid w)) /\
               isinstance (store w p) Player = true) /\
  (forall e b inv, In e (entities (grid w)) ->
     store w e = HoldingPlayerObj b inv ->
     forall item, In item (items inv) ->
                  isinstance (store w item) Pickup = true).

(** A plain player 0, a zombie 1, and hospitals elsewhere. *)
Definition plain_heap : heap := fun r =>
  match r with
  | 0%nat => PlayerObj
  | 1%nat => ZombieObj
  | _ => HospitalObj
  end.

Definition plain_world (g : Grid) : World :=
  mkWorld Game g 0 plain_heap
          (fun _ => [(0, 1); (0, -1); (1, 0); (-1, 0)]) 0 [] [].

(** A holding player 0 with a crossbow 5 in hand, a zombie 1, and
    hospitals elsewhere. *)
Definition armed_heap : heap := fun r =>
  match r with
  | 0%nat => HoldingPlayerObj false (mkInventory [5%nat])
  | 1%nat => ZombieObj
  | 5%nat => CrossbowObj 5
  | _ => HospitalObj
  end.

Definition armed_world (g : Grid) : World :=
  mkWorld AdvancedGame g 0 armed_heap
          (fun _ => [(0, 1); (0, -1); (1, 0); (-1, 0)]) 0 [] [].

(** * The rest of the program *)

(** ** Grids with entities held more than once *)

(** The mapping and the ordered collection hold every entity the same
    number of times.  This is what the operations of the grid keep, also
    when an entity instance is added at several positions. *)
Definition balanced (g : Grid) : Prop :=
  NoDup (keys (EntityLocations g)) /\
  forall e, count (values (EntityLocations g)) e = count (entities g) e.

(** A run of operations, one after the other. *)
Definition run_ops (ops : list grid_op) : M Grid unit := for_each ops run_op.

(** [dict.get] on the dictionary that [serialize] returns. *)
Fixpoint serialized_get (d : list (key * string)) (k : key) : option string :=
  match d with
  | [] => None
  | (k', c) :: d' => if key_eqb k k' then Some c else serialized_get d' k
  end.

(** ** Inventories *)

(** [l'] is [l] with some elements taken out, the others in their order. *)
Inductive subseq : list ref -> list ref -> Prop :=
| subseq_nil : subseq [] []
| subseq_keep x l' l : subseq l' l -> subseq (x :: l') (x :: l)
| subseq_skip x l' l : subseq l' l -> subseq l' (x :: l).

(** The items are pickups whose lifetime is more than [m]. *)
Definition lifetimes_above (m : Z) (h : heap) (l : list ref) : Prop :=
  forall item, In item l ->
    exists n, m < n /\ Pickup.get_lifetime (h item) = Some n.

(** ** What a turn keeps *)

(** No object has changed class, and no player has been cured. *)
Definition heap_frame (h h' : heap) : Prop :=
  forall r, class_of (h' r) = class_of (h r) /\
            (VulnerablePlayer.is_infected (h r) = Some true ->
             VulnerablePlayer.is_infected (h' r) = Some true).

Definition turn_frame (w w' : World) : Prop :=
  entities (grid w') = entities (grid w) /\
  size (grid w') = size (grid w) /\
  stdout w' = stdout w /\
  heap_frame (store w) (store w').

(** ** Map loaders *)

(** Modelled from the spec: [LIFETIMES] is a dictionary of [main_support];
    the docstrings of [get_durability] and of [Pickup.__repr__] give its
    entries, 10 for a garlic and 5 for a crossbow. *)
Definition LIFETIMES (pickup_id : string) : option Z :=
  if String.eqb pickup_id GARLIC then Some 10
  else if String.eqb pickup_id CROSSBOW then Some 5
  else None.

(** [Pickup.__init__]: the lifetime a pickup of class [c] starts with. *)
Definition initial_lifetime (c : class) : Z :=
  match c with
  | Garlic => match LIFETIMES GARLIC with Some n => n | None => 0 end
  | Crossbow => match LIFETIMES CROSSBOW with Some n => n | None => 0 end
  | _ => 0
  end.

(** [get_durability] of the two pickups. *)
Definition get_durability (o : object) : option Z :=
  match o with
  | GarlicObj _ => LIFETIMES GARLIC
  | CrossbowObj _ => LIFETIMES CROSSBOW
  | _ => None
  end.

(** The instance that the constructor of a class returns. *)
Definition construct (c : class) : option object :=
  match c with
  | Player => Some PlayerObj
  | Hospital => Some HospitalObj
  | Zombie => Some ZombieObj
  | TrackingZombie => Some TrackingZombieObj
  | VulnerablePlayer => Some (VulnerablePlayerObj false)
  | HoldingPlayer => Some (HoldingPlayerObj false Inventory.init)
  | Garlic => Some (GarlicObj (initial_lifetime Garlic))
  | Crossbow => Some (CrossbowObj (initial_lifetime Crossbow))
  | Entity | Pickup => None
  end.

Definition token_in (token : string) (l : list string) : bool :=
  existsb (String.eqb token) l.

(** [create_entity] of the three loaders; [None] stands for the
    [ValueError] raised on a token that the loader does not know. *)
Module BasicMapLoader.
Definition create_entity (token : string) : option object :=
  if negb (token_in token [PLAYER; HOSPITAL]) then None
  else if String.eqb token PLAYER then construct Player
  else if String.eqb token HOSPITAL then construct Hospital
  else None.
End BasicMapLoader.

Module IntermediateMapLoader.
Definition create_entity (token : string) : option object :=
  if negb (token_in token [PLAYER; ZOMBIE]) then
    BasicMapLoader.create_entity token
  else if String.eqb token PLAYER then construct VulnerablePlayer
  else if String.eqb token ZOMBIE then construct Zombie
  else None.
End IntermediateMapLoader.

Module AdvancedMapLoader.
Definition create_entity (token : string) : option object :=
  if negb (token_in token [PLAYER; TRACKING_ZOMBIE; GARLIC; CROSSBOW]) then
    IntermediateMapLoader.create_entity token
  else if String.eqb token PLAYER then construct HoldingPlayer
  else if String.eqb token TRACKING_ZOMBIE then construct TrackingZombie
  else if String.eqb token GARLIC then construct Garlic
  else if String.eqb token CROSSBOW then construct Crossbow
  else None.
End AdvancedMapLoader.

Inductive loader := BasicLoader | IntermediateLoader | AdvancedLoader.

(** [self.create_entity(value)], dispatched on the class of the loader. *)
Definition call_create_entity (self : loader) (token : string)
  : option object :=
  match self with
  | BasicLoader => BasicMapLoader.create_entity token
  | IntermediateLoader => IntermediateMapLoader.create_entity token
  | AdvancedLoader => AdvancedMapLoader.create_entity token
  end.

(** The state of a [load]: the object store, the first reference not yet
    given to an object, and the grid under construction. *)
Record Loading := mkLoading {
  loading_store : heap;
  next_ref : ref;
  loading_grid : Grid
}.

(** A new instance gets an identity that no object had before. *)
Definition new_object (o : object) : M Loading ref := fun s =>
  Return (next_ref s)
         (mkLoading (heap_set (loading_store s) (next_ref s) o)
                    (S (next_ref s)) (loading_grid s)).

Definition on_loading_grid {A} (c : M Grid A) : M Loading A := fun s =>
  match c (loading_grid s) with
  | Return a g => Return a (mkLoading (loading_store s) (next_ref s) g)
  | Raise e g => Raise e (mkLoading (loading_store s) (next_ref s) g)
  | OutOfFuel => OutOfFuel
  end.

Module MapLoader.

(** The body of the loop of [load]. *)
Definition load_item (self : loader) (kv : key * string) : M Loading unit :=
  fun s =>
  match call_create_entity self (snd kv) with
  | None => Raise ValueError s
  | Some o =>
      (entity <- new_object o ;;
       on_loading_grid
         (Grid.add_entity (Pos (fst (fst kv)) (snd (fst kv))) entity))%py s
  end.

(** [load], from what [load_map(filename)] of [main_support] returned:
    the items of its dictionary, in order, and the size.  [h] and [n] are
    the object store and the next free reference when it is called. *)
Definition load (self : loader) (loadedMap : list (key * string) * Z)
    (h : heap) (n : ref) : outcome Loading unit :=
  for_each (fst loadedMap) (load_item self)
           (mkLoading h n (Grid.init (snd loadedMap))).

End MapLoader.

(** The tokens that a loader knows. *)
Definition known_tokens (self : loader) : list string :=
  match self with
  | BasicLoader => [PLAYER; HOSPITAL]
  | IntermediateLoader => [PLAYER; HOSPITAL; ZOMBIE]
  | AdvancedLoader =>
      [PLAYER; HOSPITAL; ZOMBIE; TRACKING_ZOMBIE; GARLIC; CROSSBOW]
  end.

(** The class of the player that a loader creates. *)
Definition player_class (self : loader) : class :=
  match self with
  | BasicLoader => Player
  | IntermediateLoader => VulnerablePlayer
  | AdvancedLoader => HoldingPlayer
  end.

Definition key_in_bounds (sz : Z) (k : key) : bool :=
  Grid.in_bounds (Grid.init sz) (Pos (fst k) (snd k)).

(** ** Moving the player *)

(** [v] is the only player among the entities of the grid. *)
Definition only_player (w : World) (v : ref) : Prop :=
  forall e, In e (entities (grid w)) ->
            isinstance (store w e) Player = true -> e = v.

(** [x] is the only hospital among the entities of the grid. *)
Definition only_hospital (w : World) (x : ref) : Prop :=
  forall e, In e (entities (grid w)) ->
            class_of (store w e) = Hospital -> e = x.

(** The games that [AdvancedMapLoader] sets up: well formed, with a
    player, and all players holding an inventory. *)
Definition advanced_ok (w : World) : Prop :=
  game_ok w /\
  (exists e, In e (entities (grid w)) /\
             isinstance (store w e) Player = true) /\
  (forall e, In e (entities (grid w)) ->
             isinstance (store w e) Player = true ->
             class_of (store w e) = HoldingPlayer).

(** A holding player 0 with nothing in hand, a crossbow 5, and hospitals
    elsewhere. *)
Definition unarmed_heap : heap := fun r =>
  match r with
  | 0%nat => HoldingPlayerObj false Inventory.init
  | 5%nat => CrossbowObj 5
  | _ => HospitalObj
  end.

Definition unarmed_world (g : Grid) : World :=
  mkWorld AdvancedGame g 0 unarmed_heap
          (fun _ => [(0, 1); (0, -1); (1, 0); (-1, 0)]) 0 [] [].

(** * Properties *)

(** ** Dictionaries and lists *)

Lemma key_eqb_eq (a b : key) : key_eqb a b = true <-> a = b.
Proof.
  destruct a as [a1 a2], b as [b1 b2]; unfold key_eqb; simpl.
  rewrite andb_true_iff, !Z.eqb_eq. split.
  - intros [-> ->]; reflexivity.
  - intros E; inversion E; auto.
Qed.

Lemma key_eqb_refl (a : key) : key_eqb a a = true.
Proof. apply key_eqb_eq; reflexivity. Qed.

Lemma key_eqb_neq (a b : key) : key_eqb a b = false <-> a <> b.
Proof.
  rewrite <- key_eqb_eq. destruct (key_eqb a b); split; congruence.
Qed.

Lemma key_eqb_sym (a b : key) : key_eqb a b = key_eqb b a.
Proof.
  destruct (key_eqb b a) eqn:E.
  - apply key_eqb_eq in E; subst; apply key_eqb_refl.
  - apply key_eqb_neq in E. apply key_eqb_neq; congruence.
Qed.

Lemma tuple_of_inj (p q : Position) : tuple_of p = tuple_of q -> p = q.
Proof.
  destruct p, q; unfold tuple_of; simpl; intros E; inversion E; reflexivity.
Qed.

Lemma dict_get_without (k k' : key) (d : dict) :
  dict_get (without k d) k' = if key_eqb k k' then None else dict_get d k'.
Proof.
  induction d as [|[k0 v0] d IH]; simpl.
  - destruct (key_eqb k k'); reflexivity.
  - destruct (key_eqb k k0) eqn:E0; simpl.
    + rewrite IH. destruct (key_eqb k k') eqn:E; [reflexivity|].
      apply key_eqb_eq in E0; subst k0.
      rewrite key_eqb_sym, E. reflexivity.
    + rewrite IH. destruct (key_eqb k' k0) eqn:E1; [|reflexivity].
      apply key_eqb_eq in E1; subst k0. rewrite E0. reflexivity.
Qed.

Lemma dict_get_update (k k' : key) (v : ref) (d : dict) :
  dict_get (dict_update k v d) k' =
  if key_eqb k k' then Some v else dict_get d k'.
Proof.
  induction d as [|[k0 v0] d IH]; simpl.
  - rewrite (key_eqb_sym k' k). reflexivity.
  - destruct (key_eqb k k0) eqn:E0; simpl.
    + apply key_eqb_eq in E0; subst k0. rewrite (key_eqb_sym k' k).
      destruct (key_eqb k k'); reflexivity.
    + rewrite IH. destruct (key_eqb k' k0) eqn:E1; [|reflexivity].
      apply key_eqb_eq in E1; subst k0. rewrite E0. reflexivity.
Qed.

Lemma dict_get_In (d : dict) (k : key) (v : ref) :
  dict_get d k = Some v -> In (k, v) d.
Proof.
  induction d as [|[k0 v0] d IH]; simpl; [discriminate|].
  destruct (key_eqb k k0) eqn:E.
  - apply key_eqb_eq in E; subst. intros [= ->]. now left.
  - intros H; right; auto.
Qed.

Lemma dict_get_None_keys (d : dict) (k : key) :
  dict_get d k = None <-> ~ In k (keys d).
Proof.
  induction d as [|[k0 v0] d IH]; simpl; [tauto|].
  destruct (key_eqb k k0) eqn:E.
  - apply key_eqb_eq in E; subst. split; [discriminate | intros H; exfalso; auto].
  - apply key_eqb_neq in E. rewrite IH. split.
    + intros H [H1|H1]; [congruence | contradiction].
    + intros H H1; apply H; now right.
Qed.

Lemma In_dict_get (d : dict) (k : key) (v : ref) :
  NoDup (keys d) -> In (k, v) d -> dict_get d k = Some v.
Proof.
  induction d as [|[k0 v0] d IH]; simpl; [contradiction|].
  intros ND [H|H].
  - inversion H; subst. rewrite key_eqb_refl. reflexivity.
  - inversion ND as [|? ? Hn ND']; subst.
    destruct (key_eqb k k0) eqn:E.
    + apply key_eqb_eq in E; subst. exfalso; apply Hn.
      apply (in_map fst) in H. exact H.
    + auto.
Qed.

Lemma without_absent (k : key) (d : dict) :
  dict_get d k = None -> without k d = d.
Proof.
  induction d as [|[k0 v0] d IH]; simpl; [reflexivity|].
  destruct (key_eqb k k0) eqn:E; [discriminate|].
  intros H. simpl. rewrite IH; auto.
Qed.

Lemma dict_update_absent (k : key) (v : ref) (d : dict) :
  dict_get d k = None -> dict_update k v d = d ++ [(k, v)].
Proof.
  induction d as [|[k0 v0] d IH]; simpl; [reflexivity|].
  destruct (key_eqb k k0) eqn:E; [discriminate|].
  intros H. rewrite IH; auto.
Qed.

Lemma keys_without_incl (k k' : key) (d : dict) :
  In k' (keys (without k d)) -> In k' (keys d).
Proof.
  unfold keys, without. rewrite !in_map_iff.
  intros [kv [E H]]. apply filter_In in H. exists kv; tauto.
Qed.

Lemma NoDup_keys_without (k : key) (d : dict) :
  NoDup (keys d) -> NoDup (keys (without k d)).
Proof.
  induction d as [|[k0 v0] d IH]; simpl; [auto|].
  intros ND. inversion ND as [|? ? Hn ND']; subst.
  destruct (key_eqb k k0); simpl; auto.
  constructor; auto. intros H; apply Hn. eapply keys_without_incl; eauto.
Qed.

Lemma NoDup_keys_append (k : key) (v : ref) (d : dict) :
  NoDup (keys d) -> dict_get d k = None -> NoDup (keys (d ++ [(k, v)])).
Proof.
  intros ND H. unfold keys. rewrite map_app. simpl.
  apply NoDup_app; [exact ND | repeat constructor; simpl; tauto |].
  intros a Ha [<-|[]]. apply dict_get_None_keys in H. contradiction.
Qed.

(** ** The ordered collection *)

Lemma count_cons (y : ref) (l : list ref) (x : ref) :
  count (y :: l) x = ((if Nat.eqb x y then 1 else 0) + count l x)%nat.
Proof.
  unfold count; simpl. destruct (Nat.eq_dec y x) as [->|N].
  - rewrite Nat.eqb_refl. reflexivity.
  - destruct (Nat.eqb_spec x y); [congruence | reflexivity].
Qed.

Lemma count_app (l1 l2 : list ref) (x : ref) :
  count (l1 ++ l2) x = (count l1 x + count l2 x)%nat.
Proof. apply count_occ_app. Qed.

Lemma count_In (l : list ref) (x : ref) : In x l <-> (0 < count l x)%nat.
Proof. unfold count. rewrite (count_occ_In Nat.eq_dec). unfold gt. tauto. Qed.

Lemma list_remove_count (v : ref) (l l' : list ref) :
  list_remove v l = Some l' ->
  forall x, count l x = ((if Nat.eqb x v then 1 else 0) + count l' x)%nat.
Proof.
  revert l'. induction l as [|y l IH]; cbn [list_remove]; [discriminate|].
  intros l'. destruct (Nat.eqb_spec v y) as [->|N].
  - intros [= <-] x. apply count_cons.
  - destruct (list_remove v l) as [l''|]; [|discriminate].
    intros [= <-] x. rewrite !count_cons, (IH l'' eq_refl x).
    destruct (Nat.eqb x y), (Nat.eqb x v); lia.
Qed.

Lemma list_remove_In (v : ref) (l : list ref) :
  In v l -> exists l', list_remove v l = Some l'.
Proof.
  induction l as [|y l IH]; simpl; [contradiction|].
  intros H. destruct (Nat.eqb_spec v y) as [->|N]; [eauto|].
  destruct H as [H|H]; [congruence|].
  destruct (IH H) as [l' ->]. eauto.
Qed.

Lemma list_remove_absent (v : ref) (l : list ref) :
  ~ In v l -> list_remove v l = None.
Proof.
  induction l as [|y l IH]; simpl; [reflexivity|].
  intros H. destruct (Nat.eqb_spec v y) as [->|N]; [tauto|].
  rewrite IH; tauto.
Qed.

Lemma count_values_without (k : key) (v : ref) (d : dict) :
  NoDup (keys d) -> dict_get d k = Some v ->
  forall x, count (values d) x =
            ((if Nat.eqb x v then 1 else 0) + count (values (without k d)) x)%nat.
Proof.
  induction d as [|[k0 v0] d IH]; cbn [dict_get]; [discriminate|].
  intros ND H x. inversion ND as [|? ? Hn ND']; subst.
  unfold without, values in *. cbn [filter map fst snd].
  destruct (key_eqb k k0) eqn:E; cbn [negb map snd].
  - injection H as ->. apply key_eqb_eq in E; subst k0.
    fold (without k d). rewrite without_absent by (apply dict_get_None_keys; exact Hn).
    apply count_cons.
  - rewrite !count_cons, (IH ND' H x).
    destruct (Nat.eqb x v0), (Nat.eqb x v); lia.
Qed.

Lemma count_values_append (k : key) (v : ref) (d : dict) (x : ref) :
  count (values (d ++ [(k, v)])) x =
  ((if Nat.eqb x v then 1 else 0) + count (values d) x)%nat.
Proof.
  unfold values. rewrite map_app, count_app. cbn [map snd].
  rewrite count_cons. change (count [] x) with 0%nat.
  destruct (Nat.eqb x v); lia.
Qed.

(** The invariant, as equations between numbers of occurrences. *)
Lemma grid_inv_counts (g : Grid) :
  grid_inv g <->
  NoDup (keys (EntityLocations g)) /\
  forall e, count (values (EntityLocations g)) e = count (entities g) e /\
            (count (entities g) e <= 1)%nat.
Proof.
  unfold grid_inv. split.
  - intros (ND & H1 & H2). split; [exact ND|]. intros e.
    destruct (in_dec Nat.eq_dec e (values (EntityLocations g))) as [I|I].
    + pose proof (H1 e I) as C. assert (J : In e (entities g)).
      { apply count_In. lia. }
      rewrite (H2 e J). lia.
    + destruct (in_dec Nat.eq_dec e (entities g)) as [J|J].
      * exfalso. apply I. apply count_In. rewrite (H2 e J). lia.
      * assert (count (values (EntityLocations g)) e = 0%nat).
        { destruct (count (values (EntityLocations g)) e) eqn:C; [reflexivity|].
          exfalso; apply I; apply count_In; lia. }
        assert (count (entities g) e = 0%nat).
        { destruct (count (entities g) e) eqn:C; [reflexivity|].
          exfalso; apply J; apply count_In; lia. }
        lia.
  - intros (ND & H). split; [exact ND|]. split; intros e I.
    + apply count_In in I. destruct (H e). lia.
    + apply count_In in I. destruct (H e). lia.
Qed.

(** ** Grid operations in closed form *)

Lemma occupant_in_entities (g : Grid) (k : key) (e : ref) :
  grid_inv g -> dict_get (EntityLocations g) k = Some e -> In e (entities g).
Proof.
  intros (_ & H & _) E. apply count_In. rewrite H; [lia|].
  apply dict_get_In in E. apply (in_map snd) in E. exact E.
Qed.

Lemma remove_entity_removed (g : Grid) (p : Position) :
  (forall e, dict_get (EntityLocations g) (tuple_of p) = Some e ->
             In e (entities g)) ->
  Grid.remove_entity p g = Return tt (removed p g).
Proof.
  intros H. destruct g as [sz ents locs]. unfold Grid.remove_entity, removed.
  destruct (Grid.in_bounds _ p); cbn [negb]; [|reflexivity].
  unfold bind, Grid.pop_location, dict_pop. cbn [EntityLocations size entities] in *.
  destruct (dict_get locs (tuple_of p)) as [e|] eqn:E.
  - unfold Grid.remove_from_entities. cbn [EntityLocations size entities drop].
    destruct (list_remove_In e ents (H e eq_refl)) as [l' El].
    rewrite El. reflexivity.
  - reflexivity.
Qed.

Lemma removed_size (g : Grid) (p : Position) : size (removed p g) = size g.
Proof. unfold removed. destruct (Grid.in_bounds g p); reflexivity. Qed.

Lemma in_bounds_size (g g' : Grid) (p : Position) :
  size g' = size g -> Grid.in_bounds g' p = Grid.in_bounds g p.
Proof. unfold Grid.in_bounds. intros ->. reflexivity. Qed.

(** Removal takes the occupant, when there is one, out of the mapping and
    out of the collection, and nothing else. *)
Lemma removed_counts (g : Grid) (p : Position) :
  NoDup (keys (EntityLocations g)) ->
  (forall e, dict_get (EntityLocations g) (tuple_of p) = Some e ->
             In e (entities g)) ->
  NoDup (keys (EntityLocations (removed p g))) /\
  forall x,
    (count (values (EntityLocations (removed p g))) x + count (entities g) x
     = count (values (EntityLocations g)) x + count (entities (removed p g)) x
     /\ count (entities (removed p g)) x <= count (entities g) x)%nat.
Proof.
  intros ND H. unfold removed. destruct (Grid.in_bounds g p).
  2:{ split; [exact ND | intros x; lia]. }
  cbn [EntityLocations entities]. split; [apply NoDup_keys_without, ND|].
  intros x. destruct (dict_get (EntityLocations g) (tuple_of p)) as [e|] eqn:E.
  - destruct (list_remove_In e (entities g) (H e eq_refl)) as [l' El].
    unfold drop. rewrite El.
    rewrite (count_values_without _ _ _ ND E x), (list_remove_count _ _ _ El x).
    lia.
  - rewrite (without_absent _ _ E). cbn [drop]. lia.
Qed.

Lemma removed_inv (g : Grid) (p : Position) :
  grid_inv g -> grid_inv (removed p g).
Proof.
  intros I. pose proof (fun e => occupant_in_entities g (tuple_of p) e I) as O.
  apply grid_inv_counts in I. destruct I as [ND C].
  destruct (removed_counts g p ND O) as [ND' C'].
  apply grid_inv_counts. split; [exact ND'|]. intros x.
  destruct (C x), (C' x). lia.
Qed.

Lemma get_entity_removed (g : Grid) (p q : Position) :
  Grid.get_entity (removed p g) q =
  if Grid.in_bounds g p && Position.eqb p q then None else Grid.get_entity g q.
Proof.
  unfold removed, Grid.get_entity. destruct (Grid.in_bounds g p) eqn:B; cbn [andb].
  2:{ reflexivity. }
  change (Grid.in_bounds (mkGrid (size g) _ _) q) with (Grid.in_bounds g q).
  cbn [EntityLocations]. rewrite dict_get_without.
  change (key_eqb (tuple_of p) (tuple_of q)) with (Position.eqb p q).
  destruct (Position.eqb p q), (Grid.in_bounds g q); reflexivity.
Qed.

Lemma Position_eqb_eq (p q : Position) : Position.eqb p q = true <-> p = q.
Proof.
  change (Position.eqb p q) with (key_eqb (tuple_of p) (tuple_of q)).
  rewrite key_eqb_eq. split; [apply tuple_of_inj | intros ->; reflexivity].
Qed.

Lemma Position_eqb_refl (p : Position) : Position.eqb p p = true.
Proof. apply Position_eqb_eq; reflexivity. Qed.

Lemma Position_eqb_neq (p q : Position) : Position.eqb p q = false <-> p <> q.
Proof.
  rewrite <- Position_eqb_eq. destruct (Position.eqb p q); split; congruence.
Qed.

Lemma move_entity_moved (g : Grid) (s e : Position) :
  grid_inv g -> Grid.move_entity s e g = Return tt (moved s e g).
Proof.
  intros I. unfold Grid.move_entity, moved.
  destruct (Grid.in_bounds g s); cbn [negb orb andb]; [|reflexivity].
  destruct (Grid.in_bounds g e); cbn [negb]; [|reflexivity].
  unfold bind at 1. unfold Grid.pop_location, dict_pop.
  destruct (dict_get (EntityLocations g) (tuple_of s)) as [r|] eqn:E.
  - unfold bind. rewrite remove_entity_removed.
    + reflexivity.
    + cbn [EntityLocations entities]. intros y. rewrite dict_get_without.
      destruct (key_eqb (tuple_of s) (tuple_of e)); [discriminate|].
      apply occupant_in_entities, I.
  - rewrite (without_absent _ _ E). destruct g; reflexivity.
Qed.

Lemma moved_size (g : Grid) (s e : Position) : size (moved s e g) = size g.
Proof.
  unfold moved. destruct (_ && _); [|reflexivity].
  destruct (dict_get _ _); [|reflexivity].
  cbn [size]. rewrite removed_size. reflexivity.
Qed.

Lemma moved_inv (g : Grid) (s e : Position) :
  grid_inv g -> grid_inv (moved s e g).
Proof.
  intros I. unfold moved.
  destruct (Grid.in_bounds g s) eqn:Bs; cbn [andb]; [|exact I].
  destruct (Grid.in_bounds g e) eqn:Be; [|exact I].
  destruct (dict_get (EntityLocations g) (tuple_of s)) as [r|] eqn:E; [|exact I].
  set (g1 := mkGrid (size g) (entities g) (without (tuple_of s) (EntityLocations g))).
  assert (O : forall y, dict_get (EntityLocations g1) (tuple_of e) = Some y ->
                        In y (entities g1)).
  { cbn [EntityLocations entities g1]. intros y. rewrite dict_get_without.
    destruct (key_eqb (tuple_of s) (tuple_of e)); [discriminate|].
    apply occupant_in_entities, I. }
  apply grid_inv_counts in I. destruct I as [ND C].
  assert (ND1 : NoDup (keys (EntityLocations g1))).
  { apply NoDup_keys_without, ND. }
  destruct (removed_counts g1 e ND1 O) as [ND2 C2].
  assert (A : dict_get (EntityLocations (removed e g1)) (tuple_of e) = None).
  { unfold removed. change (Grid.in_bounds g1 e) with (Grid.in_bounds g e).
    rewrite Be. cbn [EntityLocations]. rewrite dict_get_without, key_eqb_refl.
    reflexivity. }
  apply grid_inv_counts. cbn [EntityLocations entities].
  rewrite (dict_update_absent _ _ _ A). split.
  - apply NoDup_keys_append; assumption.
  - intros x. rewrite count_values_append.
    pose proof (count_values_without _ _ _ ND E x) as V.
    change (without (tuple_of s) (EntityLocations g)) with (EntityLocations g1) in V.
    change (entities g1) with (entities g) in C2.
    destruct (C x), (C2 x). destruct (Nat.eqb x r); lia.
Qed.

Lemma get_entity_moved (g : Grid) (s e q : Position) (r : ref) :
  Grid.in_bounds g s = true -> Grid.in_bounds g e = true ->
  dict_get (EntityLocations g) (tuple_of s) = Some r ->
  Grid.get_entity (moved s e g) q =
  if Position.eqb e q then Some r
  else if Position.eqb s q then None else Grid.get_entity g q.
Proof.
  intros Bs Be E. unfold moved. rewrite Bs, Be, E. cbn [andb].
  unfold Grid.get_entity at 1.
  rewrite (in_bounds_size g) by (cbn [size]; rewrite removed_size; reflexivity).
  cbn [EntityLocations]. rewrite dict_get_update.
  change (key_eqb (tuple_of e) (tuple_of q)) with (Position.eqb e q).
  destruct (Position.eqb e q) eqn:Q.
  - apply Position_eqb_eq in Q; subst q. rewrite Be. reflexivity.
  - unfold removed.
    change (Grid.in_bounds (mkGrid (size g) _ _) e) with (Grid.in_bounds g e).
    rewrite Be. cbn [EntityLocations]. rewrite !dict_get_without.
    change (key_eqb (tuple_of e) (tuple_of q)) with (Position.eqb e q).
    change (key_eqb (tuple_of s) (tuple_of q)) with (Position.eqb s q).
    rewrite Q. unfold Grid.get_entity.
    destruct (Grid.in_bounds g q), (Position.eqb s q); reflexivity.
Qed.

Lemma entities_moved (g : Grid) (s e : Position) (r : ref) :
  Grid.in_bounds g s = true -> Grid.in_bounds g e = true ->
  dict_get (EntityLocations g) (tuple_of s) = Some r ->
  entities (moved s e g) =
  if Position.eqb s e then entities g
  else drop (dict_get (EntityLocations g) (tuple_of e)) (entities g).
Proof.
  intros Bs Be E. unfold moved. rewrite Bs, Be, E. cbn [andb entities].
  unfold removed.
  change (Grid.in_bounds (mkGrid (size g) _ _) e) with (Grid.in_bounds g e).
  rewrite Be. cbn [EntityLocations entities]. rewrite dict_get_without.
  change (key_eqb (tuple_of s) (tuple_of e)) with (Position.eqb s e).
  destruct (Position.eqb s e); reflexivity.
Qed.

Lemma add_entity_added (g : Grid) (p : Position) (e : ref) :
  grid_inv g -> Grid.add_entity p e g = Return tt (added p e g).
Proof.
  intros I. unfold Grid.add_entity, added, removed.
  destruct (Grid.in_bounds g p); cbn [negb]; [|reflexivity].
  unfold bind at 1. unfold Grid.pop_location, dict_pop.
  destruct (dict_get (EntityLocations g) (tuple_of p)) as [r|] eqn:E.
  - unfold bind at 1. unfold Grid.remove_from_entities.
    cbn [EntityLocations entities size].
    destruct (list_remove_In r (entities g)
                (occupant_in_entities g _ r I E)) as [l' El].
    unfold drop. rewrite El. reflexivity.
  - reflexivity.
Qed.

Lemma added_inv (g : Grid) (p : Position) (e : ref) :
  grid_inv g ->
  (forall k, In (k, e) (EntityLocations g) -> k = tuple_of p) ->
  grid_inv (added p e g).
Proof.
  intros I F. unfold added. destruct (Grid.in_bounds g p) eqn:B; [|exact I].
  pose proof (removed_inv g p I) as I1.
  assert (A : dict_get (EntityLocations (removed p g)) (tuple_of p) = None).
  { unfold removed. rewrite B. cbn [EntityLocations].
    rewrite dict_get_without, key_eqb_refl. reflexivity. }
  assert (N : ~ In e (values (EntityLocations (removed p g)))).
  { unfold removed. rewrite B. cbn [EntityLocations]. unfold values, without.
    rewrite in_map_iff. intros [[k v] [Ev H]]. cbn [snd] in Ev; subst v.
    apply filter_In in H. destruct H as [H K]. cbn [fst] in K.
    rewrite (F k H), key_eqb_refl in K. discriminate. }
  apply grid_inv_counts in I1. destruct I1 as [ND1 C1].
  apply grid_inv_counts. cbn [EntityLocations entities].
  rewrite (dict_update_absent _ _ _ A). split.
  - apply NoDup_keys_append; assumption.
  - intros x. rewrite count_values_append, count_app, count_cons.
    change (count [] x) with 0%nat. destruct (C1 x) as [C2 C3].
    destruct (Nat.eqb_spec x e) as [->|Nx]; [|lia].
    assert (count (values (EntityLocations (removed p g))) e = 0%nat).
    { destruct (count (values (EntityLocations (removed p g))) e) eqn:Z0;
        [reflexivity|]. exfalso. apply N. apply count_In. lia. }
    lia.
Qed.

Lemma occupants_distinct (g : Grid) (k1 k2 : key) (v : ref) :
  grid_inv g ->
  dict_get (EntityLocations g) k1 = Some v ->
  dict_get (EntityLocations g) k2 = Some v -> k1 = k2.
Proof.
  intros I E1 E2. destruct (key_eqb k1 k2) eqn:K; [apply key_eqb_eq, K|].
  exfalso. pose proof (occupant_in_entities g k1 v I E1) as J.
  destruct I as (ND & _ & H). specialize (H v J).
  rewrite (count_values_without _ _ _ ND E1 v), Nat.eqb_refl in H.
  assert (In v (values (without k1 (EntityLocations g)))) as J'.
  { apply (in_map snd _ (k2, v)). apply dict_get_In.
    rewrite dict_get_without, K. exact E2. }
  apply count_In in J'. lia.
Qed.

Lemma get_entity_in_bounds (g : Grid) (p : Position) (e : ref) :
  Grid.get_entity g p = Some e ->
  Grid.in_bounds g p = true /\ dict_get (EntityLocations g) (tuple_of p) = Some e.
Proof.
  unfold Grid.get_entity. destruct (Grid.in_bounds g p); cbn [negb]; [auto|discriminate].
Qed.

Lemma get_entity_dict (g : Grid) (p : Position) :
  Grid.in_bounds g p = true ->
  Grid.get_entity g p = dict_get (EntityLocations g) (tuple_of p).
Proof. unfold Grid.get_entity. intros ->. reflexivity. Qed.

(** Grids given by their contents satisfy the invariant by inspection. *)
Ltac inspect_grid_inv :=
  split;
  [ repeat constructor; cbn; intuition congruence
  | split; intros ? H; cbn in H;
    repeat (destruct H as [<-|H]; [reflexivity|]); contradiction ].

(** ** Grid.move_entity *)

(** C5, as stated, fails when start and end coincide: the entity is taken
    out and put back, so the start position is not empty afterwards. *)
Lemma move_entity_onto_itself_keeps_start :
  grid_inv (mkGrid 2 [7%nat] [((0, 0), 7%nat)]) /\
  Grid.in_bounds (mkGrid 2 [7%nat] [((0, 0), 7%nat)]) (Pos 0 0) = true /\
  Grid.get_entity (mkGrid 2 [7%nat] [((0, 0), 7%nat)]) (Pos 0 0) = Some 7%nat /\
  Grid.move_entity (Pos 0 0) (Pos 0 0) (mkGrid 2 [7%nat] [((0, 0), 7%nat)])
    = Return tt (mkGrid 2 [7%nat] [((0, 0), 7%nat)]) /\
  Grid.get_entity (mkGrid 2 [7%nat] [((0, 0), 7%nat)]) (Pos 0 0) <> None.
Proof.
  split; [inspect_grid_inv|]. repeat split; try reflexivity. discriminate.
Qed.

(** C5 (amended): for in-bounds positions s <> e of a grid satisfying its
    invariant, with X at s, [move_entity s e] returns; afterwards s is
    empty and e holds X, the ordered collection is the old one without the
    former occupant of e (so X keeps its slot), and that occupant is
    neither in the mapping nor in the ordered collection. *)
Theorem move_entity_relocates (g : Grid) (s e : Position) (X : ref) :
  grid_inv g ->
  Grid.in_bounds g s = true -> Grid.in_bounds g e = true ->
  Grid.get_entity g s = Some X -> s <> e ->
  exists g',
    Grid.move_entity s e g = Return tt g' /\
    Grid.get_entity g' s = None /\
    Grid.get_entity g' e = Some X /\
    entities g' = drop (Grid.get_entity g e) (entities g) /\
    In X (entities g') /\
    forall Y, Grid.get_entity g e = Some Y ->
              ~ In Y (entities g') /\
              forall p, Grid.get_entity g' p <> Some Y.
Proof.
  intros I Bs Be Hs Ne. exists (moved s e g).
  pose proof (proj2 (get_entity_in_bounds _ _ _ Hs)) as Es.
  pose proof (moved_inv g s e I) as I'.
  assert (Nse : Position.eqb s e = false) by (apply Position_eqb_neq, Ne).
  assert (Nes : Position.eqb e s = false).
  { apply Position_eqb_neq. congruence. }
  assert (He : Grid.get_entity (moved s e g) e = Some X).
  { rewrite (get_entity_moved g s e e X Bs Be Es), Position_eqb_refl. reflexivity. }
  assert (Ents : entities (moved s e g) = drop (Grid.get_entity g e) (entities g)).
  { rewrite (entities_moved g s e X Bs Be Es), Nse, (get_entity_dict g e Be).
    reflexivity. }
  split; [apply move_entity_moved, I|].
  split. { rewrite (get_entity_moved g s e s X Bs Be Es), Nes, Position_eqb_refl.
           reflexivity. }
  split; [exact He|]. split; [exact Ents|]. split.
  { apply (occupant_in_entities _ (tuple_of e)); [exact I'|].
    apply get_entity_in_bounds, He. }
  intros Y HY.
  pose proof (proj2 (get_entity_in_bounds _ _ _ HY)) as Ee.
  assert (NI : ~ In Y (entities (moved s e g))).
  { rewrite Ents, HY. unfold drop.
    destruct (list_remove_In Y (entities g) (occupant_in_entities g _ Y I Ee))
      as [l' El].
    rewrite El. intros J. apply count_In in J.
    pose proof (list_remove_count _ _ _ El Y) as C. rewrite Nat.eqb_refl in C.
    apply grid_inv_counts in I. destruct I as [_ C0]. destruct (C0 Y). lia. }
  split; [exact NI|].
  intros p Hp. apply NI.
  apply (occupant_in_entities _ (tuple_of p)); [exact I'|].
  apply get_entity_in_bounds, Hp.
Qed.

Lemma move_entity_relocates_witness :
  exists g',
    Grid.move_entity (Pos 0 0) (Pos 1 1)
      (mkGrid 2 [7%nat; 8%nat] [((0, 0), 7%nat); ((1, 1), 8%nat)])
    = Return tt g' /\
    Grid.get_entity g' (Pos 0 0) = None /\
    Grid.get_entity g' (Pos 1 1) = Some 7%nat /\
    entities g' =
      drop (Grid.get_entity
              (mkGrid 2 [7%nat; 8%nat] [((0, 0), 7%nat); ((1, 1), 8%nat)])
              (Pos 1 1)) [7%nat; 8%nat] /\
    In 7%nat (entities g') /\
    forall Y,
      Grid.get_entity
        (mkGrid 2 [7%nat; 8%nat] [((0, 0), 7%nat); ((1, 1), 8%nat)]) (Pos 1 1)
      = Some Y ->
      ~ In Y (entities g') /\ forall p, Grid.get_entity g' p <> Some Y.
Proof.
  apply (move_entity_relocates
           (mkGrid 2 [7%nat; 8%nat] [((0, 0), 7%nat); ((1, 1), 8%nat)])
           (Pos 0 0) (Pos 1 1) 7%nat).
  - inspect_grid_inv.
  - reflexivity.
  - reflexivity.
  - reflexivity.
  - discriminate.
Defined.

(** ** The invariant of the grid *)

(** C6, as stated, fails for an entity added again at another position: it
    is then twice in the ordered collection and at two positions. *)
Lemma add_entity_twice_breaks_invariant :
  grid_inv (mkGrid 2 [7%nat] [((0, 0), 7%nat)]) /\
  run_op (Add_entity (Pos 1 1) 7%nat) (mkGrid 2 [7%nat] [((0, 0), 7%nat)])
    = Return tt (mkGrid 2 [7%nat; 7%nat] [((0, 0), 7%nat); ((1, 1), 7%nat)]) /\
  ~ grid_inv (mkGrid 2 [7%nat; 7%nat] [((0, 0), 7%nat); ((1, 1), 7%nat)]).
Proof.
  split; [inspect_grid_inv|]. split; [reflexivity|].
  intros (_ & H & _). specialize (H 7%nat (or_introl eq_refl)).
  vm_compute in H. discriminate.
Qed.

(** C6 (amended): [remove_entity] and [move_entity], at any positions, and
    [add_entity] of an entity that the grid does not hold at another
    position, return and preserve the invariant: every entity of the
    mapping is exactly once in the ordered collection, and every entity of
    the ordered collection is at exactly one position. *)
Theorem grid_operations_preserve_invariant (op : grid_op) (g : Grid) :
  grid_inv g -> adds_no_duplicate g op ->
  exists g', run_op op g = Return tt g' /\ grid_inv g'.
Proof.
  intros I F. destruct op as [p e|p|s e]; cbn [run_op adds_no_duplicate] in *.
  - exists (added p e g). split; [apply add_entity_added, I|].
    apply added_inv; assumption.
  - exists (removed p g). split; [|apply removed_inv, I].
    apply remove_entity_removed. intros e. apply occupant_in_entities, I.
  - exists (moved s e g). split; [apply move_entity_moved, I|].
    apply moved_inv, I.
Qed.

Lemma grid_operations_preserve_invariant_witness :
  exists g',
    run_op (Add_entity (Pos 0 0) 9%nat)
           (mkGrid 2 [7%nat; 8%nat] [((0, 0), 7%nat); ((1, 1), 8%nat)])
    = Return tt g' /\ grid_inv g'.
Proof.
  apply grid_operations_preserve_invariant.
  - inspect_grid_inv.
  - cbn. intros k [H|[H|[]]]; discriminate.
Defined.

(** ** Grid.find_player *)

Lemma find_player_in_None (h : heap) (d : dict) :
  Grid.find_player_in h d = None <->
  forall v, In v (values d) -> isinstance (h v) Player = false.
Proof.
  induction d as [|[k v] d IH]; cbn [Grid.find_player_in values map snd In].
  - split; [intros _ v [] | reflexivity].
  - destruct (isinstance (h v) Player) eqn:P.
    + split; [discriminate|]. intros H. specialize (H v (or_introl eq_refl)).
      congruence.
    + rewrite IH. split.
      * intros H x [<-|Hx]; auto.
      * intros H x Hx. apply H. now right.
Qed.

Lemma find_player_in_first (h : heap) (d : dict) (p : Position) :
  Grid.find_player_in h d = Some p ->
  exists d1 e d2,
    d = d1 ++ (tuple_of p, e) :: d2 /\ isinstance (h e) Player = true /\
    forall kv, In kv d1 -> isinstance (h (snd kv)) Player = false.
Proof.
  induction d as [|[k v] d IH]; cbn [Grid.find_player_in]; [discriminate|].
  destruct (isinstance (h v) Player) eqn:P.
  - intros [= <-]. exists [], v, d. destruct k as [x y].
    repeat split; [exact P | intros kv []].
  - intros H. destruct (IH H) as (d1 & e & d2 & -> & Pe & Hd1).
    exists ((k, v) :: d1), e, d2. repeat split; [exact Pe|].
    intros kv [<-|Hkv]; auto.
Qed.

Lemma find_player_in_only (h : heap) (d : dict) (e : ref) :
  isinstance (h e) Player = true ->
  (forall v, In v (values d) -> isinstance (h v) Player = true -> v = e) ->
  Grid.find_player_in h d = position_of e d.
Proof.
  intros Pe. induction d as [|[k v] d IH];
    cbn [Grid.find_player_in position_of values map snd In]; [reflexivity|].
  intros U. destruct (isinstance (h v) Player) eqn:P.
  - rewrite (U v (or_introl eq_refl) P), Nat.eqb_refl. reflexivity.
  - destruct (Nat.eqb_spec v e) as [->|N]; [congruence|].
    apply IH. intros x Hx. apply U. now right.
Qed.

Lemma values_entities (g : Grid) (e : ref) :
  grid_inv g -> (In e (values (EntityLocations g)) <-> In e (entities g)).
Proof.
  intros I. apply grid_inv_counts in I. destruct I as [_ C].
  rewrite !count_In. destruct (C e) as [-> _]. tauto.
Qed.

(** C9, as stated, fails after a move when the grid holds two players:
    [find_player] follows the dictionary, where the moved entity is now
    last, and not the ordered collection, where it kept its slot. *)
Lemma find_player_follows_the_mapping :
  Grid.move_entity (Pos 0 0) (Pos 0 1)
    (mkGrid 2 [1%nat; 2%nat] [((0, 0), 1%nat); ((1, 1), 2%nat)])
  = Return tt (mkGrid 2 [1%nat; 2%nat] [((1, 1), 2%nat); ((0, 1), 1%nat)]) /\
  grid_inv (mkGrid 2 [1%nat; 2%nat] [((1, 1), 2%nat); ((0, 1), 1%nat)]) /\
  Grid.find_player (fun _ => VulnerablePlayerObj false)
    (mkGrid 2 [1%nat; 2%nat] [((1, 1), 2%nat); ((0, 1), 1%nat)])
  = Some (Pos 1 1) /\
  find_player_by_collection (fun _ => VulnerablePlayerObj false)
    (mkGrid 2 [1%nat; 2%nat] [((1, 1), 2%nat); ((0, 1), 1%nat)])
  = Some (Pos 0 1).
Proof.
  split; [reflexivity|]. split; [inspect_grid_inv|]. split; reflexivity.
Qed.

(** C9 (amended): on a grid satisfying its invariant, [find_player]
    returns absent exactly when no entity of the grid is a player, and
    otherwise the position of the first player in the iteration order of
    the mapping; when the grid holds at most one player this is the
    position of the first player of the ordered collection. *)
Theorem find_player_first_in_mapping (h : heap) (g : Grid) :
  grid_inv g ->
  (Grid.find_player h g = None <->
   forall e, In e (entities g) -> isinstance (h e) Player = false) /\
  (forall p, Grid.find_player h g = Some p ->
     exists d1 e d2,
       EntityLocations g = d1 ++ (tuple_of p, e) :: d2 /\
       isinstance (h e) Player = true /\
       forall kv, In kv d1 -> isinstance (h (snd kv)) Player = false) /\
  ((forall e1 e2, In e1 (entities g) -> In e2 (entities g) ->
      isinstance (h e1) Player = true -> isinstance (h e2) Player = true ->
      e1 = e2) ->
   Grid.find_player h g = find_player_by_collection h g).
Proof.
  intros I. unfold Grid.find_player. split; [|split].
  - rewrite find_player_in_None. split; intros H e He; apply H;
      apply (values_entities g e I); exact He.
  - apply find_player_in_first.
  - intros U. unfold find_player_by_collection.
    destruct (find (fun e => isinstance (h e) Player) (entities g)) as [e|] eqn:F.
    + apply find_some in F. destruct F as [He Pe].
      apply find_player_in_only; [exact Pe|].
      intros v Hv Pv. apply (values_entities g v I) in Hv. apply U; assumption.
    + apply find_player_in_None. intros v Hv.
      apply (values_entities g v I) in Hv.
      apply (find_none _ _ F v Hv).
Qed.

Lemma find_player_first_in_mapping_witness :
  Grid.find_player
    (fun r => match r with 1%nat => VulnerablePlayerObj false | _ => ZombieObj end)
    (mkGrid 2 [1%nat; 2%nat] [((1, 1), 2%nat); ((0, 1), 1%nat)])
  = find_player_by_collection
    (fun r => match r with 1%nat => VulnerablePlayerObj false | _ => ZombieObj end)
    (mkGrid 2 [1%nat; 2%nat] [((1, 1), 2%nat); ((0, 1), 1%nat)]).
Proof.
  apply find_player_first_in_mapping.
  - inspect_grid_inv.
  - cbn. intros e1 e2 [<-|[<-|[]]] [<-|[<-|[]]]; cbn; congruence.
Defined.

(** ** HoldingPlayer.infect *)

Lemma display_garlic (o : object) :
  String.eqb GARLIC (display o) = true <-> class_of o = Garlic.
Proof. destruct o; cbn; split; congruence. Qed.

Lemma contains_garlic (h : heap) (l : list ref) :
  Inventory.contains_in h l GARLIC = true <->
  exists item, In item l /\ class_of (h item) = Garlic.
Proof.
  induction l as [|x l IH]; cbn [Inventory.contains_in In].
  - split; [discriminate | intros (_ & [] & _)].
  - destruct (String.eqb GARLIC (display (h x))) eqn:D.
    + split; [|reflexivity]. intros _. exists x. split; [now left|].
      apply display_garlic, D.
    + rewrite IH. split.
      * intros (item & Hi & G). exists item. split; [now right | exact G].
      * intros (item & [<-|Hi] & G).
        -- apply display_garlic in G. congruence.
        -- exists item. split; assumption.
Qed.

(** C7: for a holding player, [infect] with a garlic in the inventory
    changes nothing, so the flag stays as it was (false stays false);
    with no garlic in the inventory it returns with the flag set, the
    inventory and every other object untouched. *)
Theorem holding_player_infect (h : heap) (self : ref) (b : bool)
    (inv : Inventory) :
  h self = HoldingPlayerObj b inv ->
  ((exists item, In item (items inv) /\ class_of (h item) = Garlic) ->
   HoldingPlayer.infect self h = Return tt h /\
   VulnerablePlayer.is_infected (h self) = Some b) /\
  ((forall item, In item (items inv) -> class_of (h item) <> Garlic) ->
   exists h',
     HoldingPlayer.infect self h = Return tt h' /\
     VulnerablePlayer.is_infected (h' self) = Some true /\
     h' self = HoldingPlayerObj true inv /\
     forall r, r <> self -> h' r = h r).
Proof.
  intros E. unfold HoldingPlayer.infect, Inventory.contains.
  rewrite E. cbn [HoldingPlayer.get_inventory VulnerablePlayer.is_infected].
  split.
  - intros G. apply contains_garlic in G. rewrite G. split; reflexivity.
  - intros N. destruct (Inventory.contains_in h (items inv) GARLIC) eqn:C.
    + apply contains_garlic in C. destruct C as (item & Hi & G).
      exfalso. exact (N item Hi G).
    + unfold VulnerablePlayer.infect. rewrite E.
      exists (heap_set h self (HoldingPlayerObj true inv)).
      unfold heap_set. rewrite Nat.eqb_refl. repeat split.
      intros r Hr. destruct (Nat.eqb_spec r self); [contradiction | reflexivity].
Qed.

Lemma holding_player_infect_witness :
  HoldingPlayer.infect 0%nat
    (fun r => match r with
              | 0%nat => HoldingPlayerObj false (mkInventory [1%nat])
              | _ => GarlicObj 3
              end)
  = Return tt
    (fun r => match r with
              | 0%nat => HoldingPlayerObj false (mkInventory [1%nat])
              | _ => GarlicObj 3
              end) /\
  VulnerablePlayer.is_infected (HoldingPlayerObj false (mkInventory [1%nat]))
  = Some false.
Proof.
  apply (proj1 (holding_player_infect
                  (fun r => match r with
                            | 0%nat => HoldingPlayerObj false (mkInventory [1%nat])
                            | _ => GarlicObj 3
                            end)
                  0%nat false (mkInventory [1%nat]) eq_refl)).
  exists 1%nat. split; [now left | reflexivity].
Defined.

(** ** Inventory.step *)

(** C1 fails on the code: when an item expires, removing it inside the
    loop makes the iterator skip the item that follows.  With a garlic of
    lifetime 1 in front of a crossbow of lifetime 5, the garlic is removed
    and the crossbow is left at 5 instead of 4. *)
Theorem inventory_step_skips_item_after_expired :
  exists h',
    Inventory.step
      (fun r => match r with 1%nat => GarlicObj 1 | _ => CrossbowObj 5 end,
       mkInventory [1%nat; 2%nat])
    = Return tt (h', mkInventory [2%nat]) /\
    Pickup.get_lifetime (h' 1%nat) = Some 0 /\
    Pickup.get_lifetime (h' 2%nat) = Some 5.
Proof. eexists. split; [reflexivity|]. split; reflexivity. Qed.

(** ** The walk over candidate offsets *)

Lemma move_entity_into_empty (g : Grid) (s e : Position) :
  Grid.get_entity g e = None ->
  Grid.move_entity s e g = Return tt (moved s e g).
Proof.
  intros N. unfold Grid.move_entity, moved.
  destruct (Grid.in_bounds g s); cbn [negb orb andb]; [|reflexivity].
  destruct (Grid.in_bounds g e) eqn:Be; cbn [negb]; [|reflexivity].
  rewrite (get_entity_dict g e Be) in N.
  unfold bind at 1. unfold Grid.pop_location, dict_pop.
  destruct (dict_get (EntityLocations g) (tuple_of s)) as [r|] eqn:E.
  - unfold bind. rewrite remove_entity_removed.
    + reflexivity.
    + cbn [EntityLocations entities]. intros y. rewrite dict_get_without, N.
      destruct (key_eqb (tuple_of s) (tuple_of e)); discriminate.
  - rewrite (without_absent _ _ E). destruct g; reflexivity.
Qed.

Lemma entities_moved_into_empty (g : Grid) (s e : Position) :
  Grid.get_entity g e = None -> entities (moved s e g) = entities g.
Proof.
  intros N. destruct (Grid.in_bounds g s) eqn:Bs, (Grid.in_bounds g e) eqn:Be;
    try (unfold moved; rewrite Bs, Be; reflexivity).
  destruct (dict_get (EntityLocations g) (tuple_of s)) as [r|] eqn:E.
  - rewrite (entities_moved g s e r Bs Be E).
    rewrite (get_entity_dict g e Be) in N. rewrite N.
    destruct (Position.eqb s e); reflexivity.
  - unfold moved. rewrite Bs, Be, E. reflexivity.
Qed.

Lemma moved_nothing (g : Grid) (s e : Position) :
  Grid.get_entity g s = None -> moved s e g = g.
Proof.
  intros N. unfold moved. destruct (Grid.in_bounds g s) eqn:Bs; [|reflexivity].
  rewrite (get_entity_dict g s Bs) in N. rewrite N.
  destruct (Grid.in_bounds g e); reflexivity.
Qed.

Lemma try_offsets_skip (w : World) (position : Position)
    (pre rest : list Position) :
  Forall (blocked w position) pre ->
  try_offsets position (pre ++ rest) w = try_offsets position rest w.
Proof.
  induction 1 as [|o pre B _ IH]; [reflexivity|].
  cbn [app try_offsets]. destruct B as [B|(e & E & P)].
  - rewrite B. exact IH.
  - destruct (Grid.in_bounds (grid w) (Position.add position o)) eqn:B; [|exact IH].
    cbn [negb]. rewrite E, P. exact IH.
Qed.

Lemma try_offsets_blocked (w : World) (position : Position)
    (offsets : list Position) :
  Forall (blocked w position) offsets ->
  try_offsets position offsets w = Return tt w.
Proof.
  intros B. rewrite <- (app_nil_r offsets). rewrite (try_offsets_skip _ _ _ _ B).
  reflexivity.
Qed.

Lemma try_offsets_move (w : World) (position offset : Position)
    (rest : list Position) :
  Grid.in_bounds (grid w) (Position.add position offset) = true ->
  Grid.get_entity (grid w) (Position.add position offset) = None ->
  try_offsets position (offset :: rest) w =
  Return tt (set_grid (moved position (Position.add position offset) (grid w)) w).
Proof.
  intros B E. cbn [try_offsets]. rewrite B, E. cbn [negb].
  unfold on_grid. rewrite (move_entity_into_empty _ _ _ E). reflexivity.
Qed.

Lemma try_offsets_infect (w : World) (position offset : Position)
    (rest : list Position) (e : ref) :
  Grid.get_entity (grid w) (Position.add position offset) = Some e ->
  isinstance (store w e) Player = true ->
  try_offsets position (offset :: rest) w =
  on_store (call_infect (get_player w)) w.
Proof.
  intros E P. cbn [try_offsets].
  rewrite (proj1 (get_entity_in_bounds _ _ _ E)), E, P. reflexivity.
Qed.

(** Every list of candidates is all blocked, or has a first candidate that
    is not: an empty destination, or one that holds a player. *)
Lemma first_open_candidate (w : World) (position : Position)
    (offsets : list Position) :
  Forall (blocked w position) offsets \/
  exists pre offset post,
    offsets = pre ++ offset :: post /\
    Forall (blocked w position) pre /\
    Grid.in_bounds (grid w) (Position.add position offset) = true /\
    (Grid.get_entity (grid w) (Position.add position offset) = None \/
     exists e, Grid.get_entity (grid w) (Position.add position offset) = Some e /\
               isinstance (store w e) Player = true).
Proof.
  induction offsets as [|o l IH]; [left; constructor|].
  assert (D : blocked w position o \/
              (Grid.in_bounds (grid w) (Position.add position o) = true /\
               (Grid.get_entity (grid w) (Position.add position o) = None \/
                exists e, Grid.get_entity (grid w) (Position.add position o) = Some e /\
                          isinstance (store w e) Player = true))).
  { unfold blocked.
    destruct (Grid.in_bounds (grid w) (Position.add position o)); [|auto].
    destruct (Grid.get_entity (grid w) (Position.add position o)) as [e|]; [|auto].
    destruct (isinstance (store w e) Player) eqn:P; [right|left; right]; eauto. }
  destruct D as [B|O].
  - destruct IH as [A|(pre & off & post & -> & A & O)].
    + left. constructor; assumption.
    + right. exists (o :: pre), off, post. repeat split; try tauto.
      constructor; assumption.
  - right. exists [], o, l. repeat split; try tauto. constructor.
Qed.

Lemma on_store_grid {A} (c : M heap A) (w w' : World) :
  final (on_store c w) = Some w' -> grid w' = grid w.
Proof.
  unfold on_store. destruct (c (store w)); cbn [final]; try discriminate;
    intros [= <-]; reflexivity.
Qed.

(** The zombie at [position] after a move into the empty [final_position]. *)
Lemma moved_zombie (g : Grid) (position final_position : Position) (z : ref) :
  Grid.get_entity g position = Some z ->
  Grid.in_bounds g final_position = true ->
  Grid.get_entity g final_position = None ->
  Grid.get_entity (moved position final_position g) final_position = Some z /\
  Grid.get_entity (moved position final_position g) position = None /\
  forall p, p <> position -> p <> final_position ->
    Grid.get_entity (moved position final_position g) p = Grid.get_entity g p.
Proof.
  intros Hz B N. destruct (get_entity_in_bounds _ _ _ Hz) as [Bp Ez].
  assert (D : Position.eqb final_position position = false).
  { apply Position_eqb_neq. intros ->. congruence. }
  split; [|split].
  - rewrite (get_entity_moved _ _ _ _ _ Bp B Ez), Position_eqb_refl. reflexivity.
  - rewrite (get_entity_moved _ _ _ _ _ Bp B Ez), D, Position_eqb_refl. reflexivity.
  - intros p N1 N2. rewrite (get_entity_moved _ _ _ _ _ Bp B Ez).
    rewrite (proj2 (Position_eqb_neq final_position p)) by congruence.
    rewrite (proj2 (Position_eqb_neq position p)) by congruence. reflexivity.
Qed.

(** ** Zombie.step *)

(** C8: with the zombie [z] at [position], [Zombie.step] draws the
    directions and tries them in the order drawn.  When every candidate is
    out of bounds or occupied by something other than a player, the zombie
    stays.  Otherwise the candidates before the first other one are passed
    over, and that one decides: an empty destination receives the zombie
    and nothing else moves; a destination holding a player has the infect
    method of the game's player invoked, and the grid is left as it is.
    One of these cases always applies. *)
Theorem zombie_step_tries_in_drawn_order (w : World) (position : Position)
    (z : ref) :
  Grid.get_entity (grid w) position = Some z ->
  let offsets :=
    map (fun d => Pos (fst d) (snd d)) (random_directions w (draws w)) in
  let w1 := set_draws (S (draws w)) w in
  (Forall (blocked w position) offsets ->
   Zombie.step position w = Return tt w1) /\
  (forall pre offset post,
     offsets = pre ++ offset :: post ->
     Forall (blocked w position) pre ->
     Grid.in_bounds (grid w) (Position.add position offset) = true ->
     (Grid.get_entity (grid w) (Position.add position offset) = None ->
      exists w',
        Zombie.step position w = Return tt w' /\
        store w' = store w /\
        Grid.get_entity (grid w') (Position.add position offset) = Some z /\
        Grid.get_entity (grid w') position = None /\
        forall p, p <> position -> p <> Position.add position offset ->
                  Grid.get_entity (grid w') p = Grid.get_entity (grid w) p) /\
     (forall e,
        Grid.get_entity (grid w) (Position.add position offset) = Some e ->
        isinstance (store w e) Player = true ->
        Zombie.step position w = on_store (call_infect (get_player w)) w1 /\
        forall w', final (Zombie.step position w) = Some w' ->
                   grid w' = grid w)) /\
  (Forall (blocked w position) offsets \/
   exists pre offset post,
     offsets = pre ++ offset :: post /\
     Forall (blocked w position) pre /\
     Grid.in_bounds (grid w) (Position.add position offset) = true /\
     (Grid.get_entity (grid w) (Position.add position offset) = None \/
      exists e,
        Grid.get_entity (grid w) (Position.add position offset) = Some e /\
        isinstance (store w e) Player = true)).
Proof.
  intros Hz offsets w1.
  assert (S : Zombie.step position w = try_offsets position offsets w1)
    by reflexivity.
  split; [|split].
  - intros B. rewrite S. apply (try_offsets_blocked w1). exact B.
  - intros pre offset post E B Bd. rewrite S, E.
    rewrite (try_offsets_skip w1 position pre (offset :: post) B). split.
    + intros N. rewrite (try_offsets_move w1 position offset post Bd N).
      eexists. split; [reflexivity|]. split; [reflexivity|].
      cbn [grid set_grid w1 set_draws].
      apply (moved_zombie (grid w) position _ z Hz Bd N).
    + intros e He P.
      rewrite (try_offsets_infect w1 position offset post e He P).
      split; [reflexivity|]. intros w' F.
      apply on_store_grid in F. exact F.
  - apply (first_open_candidate w position offsets).
Qed.

Lemma zombie_step_tries_in_drawn_order_witness :
  exists w',
    Zombie.step (Pos 0 0)
      (example_world (mkGrid 2 [1%nat; 0%nat] [((0, 0), 1%nat); ((1, 0), 0%nat)]))
    = Return tt w' /\
    store w' = example_heap /\
    Grid.get_entity (grid w') (Pos 0 1) = Some 1%nat /\
    Grid.get_entity (grid w') (Pos 0 0) = None /\
    forall p, p <> Pos 0 0 -> p <> Pos 0 1 ->
      Grid.get_entity (grid w') p =
      Grid.get_entity
        (mkGrid 2 [1%nat; 0%nat] [((0, 0), 1%nat); ((1, 0), 0%nat)]) p.
Proof.
  refine (proj1 (proj1 (proj2 (zombie_step_tries_in_drawn_order
            (example_world
               (mkGrid 2 [1%nat; 0%nat] [((0, 0), 1%nat); ((1, 0), 0%nat)]))
            (Pos 0 0) 1%nat eq_refl))
          [] (Pos 0 1) [Pos 0 (-1); Pos 1 0; Pos (-1) 0] eq_refl
          (Forall_nil _) eq_refl) eq_refl).
Defined.

(** ** The order of the candidates of a tracking zombie *)

Lemma tuple_ltb_key_lt (a b : Z * ascii) :
  TrackingZombie.tuple_ltb a b = true <-> key_lt a b.
Proof.
  unfold TrackingZombie.tuple_ltb, key_lt, Ascii.ltb, Ascii.compare.
  rewrite orb_true_iff, andb_true_iff, Z.ltb_lt, Z.eqb_eq.
  rewrite <- N.compare_lt_iff.
  destruct (N_of_ascii (snd a) ?= N_of_ascii (snd b))%N; intuition congruence.
Qed.

Lemma key_lt_trans (a b c : Z * ascii) : key_lt a b -> key_lt b c -> key_lt a c.
Proof. unfold key_lt. lia. Qed.

Lemma key_lt_total (a b : Z * ascii) :
  ~ key_lt a b -> ~ key_lt b a ->
  fst a = fst b /\ N_of_ascii (snd a) = N_of_ascii (snd b).
Proof. unfold key_lt. lia. Qed.

Lemma insert_permutation (x : TrackingZombie.entry) (l : list TrackingZombie.entry) :
  Permutation (TrackingZombie.insert x l) (x :: l).
Proof.
  induction l as [|y l IH]; cbn [TrackingZombie.insert]; [reflexivity|].
  destruct (TrackingZombie.tuple_ltb _ _); [|reflexivity].
  rewrite IH. apply perm_swap.
Qed.

Lemma sorted_permutation (l : list TrackingZombie.entry) :
  Permutation (TrackingZombie.sorted l) l.
Proof.
  induction l as [|x l IH]; cbn [TrackingZombie.sorted]; [reflexivity|].
  rewrite insert_permutation, IH. reflexivity.
Qed.

(** [sorted] yields its argument in ascending order of the keys. *)
Lemma insert_ascending (x : TrackingZombie.entry) (l : list TrackingZombie.entry) :
  StronglySorted (fun a b => key_ge b a) l ->
  StronglySorted (fun a b => key_ge b a) (TrackingZombie.insert x l).
Proof.
  induction 1 as [|y l S IH F]; cbn [TrackingZombie.insert].
  - repeat constructor.
  - destruct (TrackingZombie.tuple_ltb (TrackingZombie.sort_key y)
                                        (TrackingZombie.sort_key x)) eqn:C.
    + apply tuple_ltb_key_lt in C. constructor; [exact IH|].
      apply (Permutation_Forall (Permutation_sym (insert_permutation x l))).
      constructor; [|exact F].
      unfold key_ge. unfold key_lt in *. lia.
    + assert (G : key_ge y x).
      { unfold key_ge. rewrite <- tuple_ltb_key_lt, C. discriminate. }
      constructor; [constructor; assumption|].
      constructor; [exact G|].
      rewrite Forall_forall in *. intros z Hz. specialize (F z Hz).
      unfold key_ge, key_lt in *. lia.
Qed.

Lemma sorted_ascending (l : list TrackingZombie.entry) :
  StronglySorted (fun a b => key_ge b a) (TrackingZombie.sorted l).
Proof.
  induction l as [|x l IH]; cbn [TrackingZombie.sorted];
    [constructor | apply insert_ascending, IH].
Qed.

Lemma StronglySorted_snoc {A} (R : A -> A -> Prop) (l : list A) (a : A) :
  StronglySorted R l -> Forall (fun b => R b a) l ->
  StronglySorted R (l ++ [a]).
Proof.
  induction 1 as [|b l S IH F]; intros H; cbn [app].
  - repeat constructor.
  - inversion H as [|? ? Hb Hl]; subst. constructor; [apply IH, Hl|].
    apply Forall_app. split; [exact F | repeat constructor; exact Hb].
Qed.

Lemma StronglySorted_rev {A} (R : A -> A -> Prop) (l : list A) :
  StronglySorted (fun a b => R b a) l -> StronglySorted R (rev l).
Proof.
  induction 1 as [|a l S IH F]; cbn [rev]; [constructor|].
  apply StronglySorted_snoc; [exact IH|].
  apply Forall_rev. exact F.
Qed.

Lemma StronglySorted_refine {A B} (R R' : A -> A -> Prop) (f : A -> B)
    (l : list A) :
  StronglySorted R l -> NoDup (map f l) ->
  (forall a b, In a l -> In b l -> f a <> f b -> R a b -> R' a b) ->
  StronglySorted R' l.
Proof.
  induction 1 as [|a l S IH F]; intros ND H; [constructor|].
  cbn [map] in ND. inversion ND as [|? ? Na ND']; subst.
  constructor.
  - apply IH; [exact ND'|]. intros x y Hx Hy. apply H; now right.
  - rewrite Forall_forall in *. intros b Hb.
    apply H; [now left | now right | | exact (F b Hb)].
    intros E. apply Na. rewrite E. apply in_map, Hb.
Qed.

Lemma compressed_list_candidates (player_position position : Position) :
  TrackingZombie.compressed_list player_position position =
  rev (TrackingZombie.sorted (candidates player_position position)).
Proof.
  unfold TrackingZombie.compressed_list, candidates,
    TrackingZombie.distances_list, TrackingZombie.offsets_list,
    TrackingZombie.directions_list.
  cbn [map combine fst snd]. unfold Position.add. cbn [get_x get_y].
  repeat (f_equal; try (f_equal; lia)).
Qed.

Lemma compressed_list_permutation (player_position position : Position) :
  Permutation (TrackingZombie.compressed_list player_position position)
              (candidates player_position position).
Proof.
  rewrite compressed_list_candidates, <- Permutation_rev.
  apply sorted_permutation.
Qed.

Lemma compressed_list_sorted (player_position position : Position) :
  StronglySorted tried_before
    (TrackingZombie.compressed_list player_position position).
Proof.
  pose proof (compressed_list_permutation player_position position) as P.
  apply (StronglySorted_refine key_ge tried_before snd).
  - rewrite compressed_list_candidates. apply StronglySorted_rev.
    apply sorted_ascending.
  - apply (Permutation_NoDup (Permutation_map snd (Permutation_sym P))).
    cbn. repeat constructor; cbn; intuition discriminate.
  - intros a b Ha Hb.
    apply (Permutation_in _ P) in Ha. apply (Permutation_in _ P) in Hb.
    unfold key_ge, key_lt, tried_before, TrackingZombie.sort_key.
    cbn [fst snd].
    cbn in Ha, Hb.
    destruct Ha as [<-|[<-|[<-|[<-|[]]]]], Hb as [<-|[<-|[<-|[<-|[]]]]];
      cbn [fst snd]; intros D G;
      try (exfalso; apply D; reflexivity);
      unfold rank; cbn [Ascii.eqb Bool.eqb]; cbn in G; lia.
Qed.

(** ** TrackingZombie.step *)

(** C2: with the tracking zombie [z] at [position] and the player found
    at [player_position], the candidates tried are the four unit offsets,
    in ascending order of the Manhattan distance from their destination to
    the player, equal distances in the order West, South, North, East.
    The list is walked as by the wandering zombie: candidates that are out
    of bounds or hold something other than a player are passed over, the
    first empty destination receives the zombie, and a destination holding
    a player has the player infected with no move.  In particular the
    zombie at (1,1), with the player at (2,4) and its four neighbours in
    bounds and empty, moves to (1,2). *)
Theorem tracking_zombie_step_order (w : World)
    (position player_position : Position) (z : ref) :
  Grid.get_entity (grid w) position = Some z ->
  Grid.find_player (store w) (grid w) = Some player_position ->
  let tried := TrackingZombie.compressed_list player_position position in
  let offsets := map (fun x => fst (fst x)) tried in
  Permutation tried (candidates player_position position) /\
  StronglySorted tried_before tried /\
  (Forall (blocked w position) offsets ->
   TrackingZombie.step position w = Return tt w) /\
  (forall pre offset post,
     offsets = pre ++ offset :: post ->
     Forall (blocked w position) pre ->
     Grid.in_bounds (grid w) (Position.add position offset) = true ->
     (Grid.get_entity (grid w) (Position.add position offset) = None ->
      exists w',
        TrackingZombie.step position w = Return tt w' /\
        store w' = store w /\
        Grid.get_entity (grid w') (Position.add position offset) = Some z /\
        Grid.get_entity (grid w') position = None /\
        forall p, p <> position -> p <> Position.add position offset ->
                  Grid.get_entity (grid w') p = Grid.get_entity (grid w) p) /\
     (forall e,
        Grid.get_entity (grid w) (Position.add position offset) = Some e ->
        isinstance (store w e) Player = true ->
        TrackingZombie.step position w
        = on_store (call_infect (get_player w)) w /\
        forall w', final (TrackingZombie.step position w) = Some w' ->
                   grid w' = grid w)) /\
  (position = Pos 1 1 -> player_position = Pos 2 4 ->
   (forall offset, In offset TrackingZombie.offsets_list ->
      Grid.in_bounds (grid w) (Position.add position offset) = true /\
      Grid.get_entity (grid w) (Position.add position offset) = None) ->
   exists w',
     TrackingZombie.step position w = Return tt w' /\
     Grid.get_entity (grid w') (Pos 1 2) = Some z /\
     Grid.get_entity (grid w') (Pos 1 1) = None).
Proof.
  intros Hz Hp tried offsets.
  assert (S : TrackingZombie.step position w = try_offsets position offsets w).
  { unfold TrackingZombie.step. rewrite Hp. reflexivity. }
  split; [apply compressed_list_permutation|].
  split; [apply compressed_list_sorted|].
  split; [|split].
  - intros B. rewrite S. apply try_offsets_blocked, B.
  - intros pre offset post E B Bd. rewrite S, E.
    rewrite (try_offsets_skip w position pre (offset :: post) B). split.
    + intros N. rewrite (try_offsets_move w position offset post Bd N).
      eexists. split; [reflexivity|]. split; [reflexivity|].
      apply (moved_zombie (grid w) position _ z Hz Bd N).
    + intros e He P.
      rewrite (try_offsets_infect w position offset post e He P).
      split; [reflexivity|]. intros w' F. apply on_store_grid in F. exact F.
  - intros -> -> Free. rewrite S.
    destruct (Free (Pos 0 1) (or_introl eq_refl)) as [Bd N].
    change offsets with [Pos 0 1; Pos 1 0; Pos (-1) 0; Pos 0 (-1)].
    rewrite (try_offsets_move w (Pos 1 1) (Pos 0 1) _ Bd N).
    eexists. split; [reflexivity|].
    destruct (moved_zombie (grid w) (Pos 1 1) _ z Hz Bd N) as (A & B & _).
    split; [exact A | exact B].
Qed.

Lemma tracking_zombie_step_order_witness :
  exists w',
    TrackingZombie.step (Pos 1 1)
      (example_world (mkGrid 5 [2%nat; 0%nat] [((1, 1), 2%nat); ((2, 4), 0%nat)]))
    = Return tt w' /\
    Grid.get_entity (grid w') (Pos 1 2) = Some 2%nat /\
    Grid.get_entity (grid w') (Pos 1 1) = None.
Proof.
  refine (proj2 (proj2 (proj2 (proj2 (tracking_zombie_step_order
            (example_world
               (mkGrid 5 [2%nat; 0%nat] [((1, 1), 2%nat); ((2, 4), 0%nat)]))
            (Pos 1 1) (Pos 2 4) 2%nat eq_refl eq_refl)))) eq_refl eq_refl _).
  intros offset H. cbn in H.
  destruct H as [<-|[<-|[<-|[<-|[]]]]]; split; reflexivity.
Defined.

(** ** What a zombie's step leaves alone *)

Lemma zombie_frame_same (z : ref) (position : Position) (g g' : Grid) :
  entities g' = entities g ->
  (forall p, Grid.get_entity g' p = Grid.get_entity g p) ->
  zombie_frame z position g g'.
Proof.
  intros E S. split; [exact E|]. split; [|split].
  - intros e. split; intros [p H]; exists p; [rewrite <- S | rewrite S]; exact H.
  - intros e p _. rewrite S. reflexivity.
  - left. exact S.
Qed.

Lemma zombie_frame_moved (z : ref) (position offset : Position) (g : Grid) :
  Grid.get_entity g position = Some z ->
  unit_offset offset ->
  Grid.in_bounds g (Position.add position offset) = true ->
  Grid.get_entity g (Position.add position offset) = None ->
  zombie_frame z position g (moved position (Position.add position offset) g).
Proof.
  intros Hz U B N.
  destruct (moved_zombie g position _ z Hz B N) as (A1 & A2 & A3).
  set (final_position := Position.add position offset) in *.
  set (g' := moved position final_position g) in *.
  assert (D : forall p, p = position \/ p = final_position \/
                        (p <> position /\ p <> final_position)).
  { intros p. destruct (Position.eqb p position) eqn:E1.
    - left. apply Position_eqb_eq, E1.
    - destruct (Position.eqb p final_position) eqn:E2.
      + right; left. apply Position_eqb_eq, E2.
      + right; right. split; apply Position_eqb_neq; assumption. }
  split; [apply entities_moved_into_empty, N|]. split; [|split].
  - intros e. split; intros [p H].
    + destruct (D p) as [->|[->|[N1 N2]]].
      * congruence.
      * exists position. congruence.
      * exists p. rewrite <- (A3 p N1 N2). exact H.
    + destruct (D p) as [->|[->|[N1 N2]]].
      * exists final_position. congruence.
      * congruence.
      * exists p. rewrite (A3 p N1 N2). exact H.
  - intros e p Ne. destruct (D p) as [->|[->|[N1 N2]]].
    + split; intros H; congruence.
    + split; intros H; congruence.
    + rewrite (A3 p N1 N2). reflexivity.
  - right. exists final_position. repeat split; try assumption.
    unfold adjacent, Position.distance, final_position, Position.add.
    unfold unit_offset in U. cbn [get_x get_y]. lia.
Qed.

Lemma call_infect_final (player : option ref) (h : heap) :
  exists h', final (call_infect player h) = Some h'.
Proof.
  unfold call_infect, VulnerablePlayer.infect, HoldingPlayer.infect,
    VulnerablePlayer.infect.
  destruct player as [r|]; [|eexists; reflexivity].
  destruct (h r) as [ | | | | b | b inv | n | n ];
    cbn [class_of HoldingPlayer.get_inventory]; try (eexists; reflexivity).
  destruct (Inventory.contains h inv GARLIC); eexists; reflexivity.
Qed.

Lemma try_offsets_frame (w : World) (position : Position) (z : ref)
    (offsets : list Position) :
  Grid.get_entity (grid w) position = Some z ->
  Forall unit_offset offsets ->
  exists w', final (try_offsets position offsets w) = Some w' /\
             zombie_frame z position (grid w) (grid w').
Proof.
  intros Hz U.
  destruct (first_open_candidate w position offsets)
    as [B|(pre & offset & post & E & B & Bd & [N|(e & He & P)])].
  - rewrite (try_offsets_blocked _ _ _ B). exists w.
    split; [reflexivity|]. apply zombie_frame_same; reflexivity.
  - rewrite E, (try_offsets_skip _ _ _ _ B), (try_offsets_move _ _ _ _ Bd N).
    eexists. split; [reflexivity|]. cbn [grid set_grid].
    apply zombie_frame_moved; try assumption.
    rewrite Forall_forall in U. apply U. rewrite E. apply in_elt.
  - rewrite E, (try_offsets_skip _ _ _ _ B), (try_offsets_infect _ _ _ _ e He P).
    destruct (call_infect_final (get_player w) (store w)) as [h' F].
    unfold on_store.
    destruct (call_infect (get_player w) (store w)) as [a h1|x h1|];
      cbn [final] in *; try discriminate;
      eexists; (split; [reflexivity|]);
      apply zombie_frame_same; reflexivity.
Qed.

Lemma compressed_list_unit_offsets (player_position position : Position) :
  Forall unit_offset
    (map (fun x => fst (fst x))
         (TrackingZombie.compressed_list player_position position)).
Proof.
  apply (Permutation_Forall
           (Permutation_map (fun x : TrackingZombie.entry => fst (fst x))
              (Permutation_sym
                 (compressed_list_permutation player_position position)))).
  cbn. repeat constructor.
Qed.

(** C10: a step of a zombie [z] standing at [position], wandering (over
    drawn directions that are unit offsets) or tracking, reaches a state,
    also when it raises, in which the ordered collection and the set of
    occupants are as before, every other entity is where it was, and [z]
    either has not moved or has left [position] for an adjacent in-bounds
    cell that was empty. *)
Theorem zombie_step_frame (w : World) (position : Position) (z : ref) :
  Grid.get_entity (grid w) position = Some z ->
  (Forall (fun d => unit_offset (Pos (fst d) (snd d)))
          (random_directions w (draws w)) ->
   exists w', final (Zombie.step position w) = Some w' /\
              zombie_frame z position (grid w) (grid w')) /\
  (exists w', final (TrackingZombie.step position w) = Some w' /\
              zombie_frame z position (grid w) (grid w')).
Proof.
  intros Hz. split.
  - intros U. unfold Zombie.step.
    apply (try_offsets_frame (set_draws (S (draws w)) w) position z).
    + exact Hz.
    + apply Forall_map. exact U.
  - unfold TrackingZombie.step.
    destruct (Grid.find_player (store w) (grid w)) as [player_position|].
    + apply (try_offsets_frame w position z); [exact Hz|].
      apply compressed_list_unit_offsets.
    + exists w. split; [reflexivity|]. apply zombie_frame_same; reflexivity.
Qed.

Lemma zombie_step_frame_witness :
  (exists w',
     final (Zombie.step (Pos 1 1)
              (example_world
                 (mkGrid 5 [1%nat; 0%nat] [((1, 1), 1%nat); ((2, 4), 0%nat)])))
     = Some w' /\
     zombie_frame 1%nat (Pos 1 1)
       (mkGrid 5 [1%nat; 0%nat] [((1, 1), 1%nat); ((2, 4), 0%nat)]) (grid w')) /\
  (exists w',
     final (TrackingZombie.step (Pos 1 1)
              (example_world
                 (mkGrid 5 [1%nat; 0%nat] [((1, 1), 1%nat); ((2, 4), 0%nat)])))
     = Some w' /\
     zombie_frame 1%nat (Pos 1 1)
       (mkGrid 5 [1%nat; 0%nat] [((1, 1), 1%nat); ((2, 4), 0%nat)]) (grid w')).
Proof.
  destruct (zombie_step_frame
              (example_world
                 (mkGrid 5 [1%nat; 0%nat] [((1, 1), 1%nat); ((2, 4), 0%nat)]))
              (Pos 1 1) 1%nat eq_refl) as [A B].
  split; [apply A | exact B].
  repeat constructor.
Defined.

(** ** The fire action *)

Lemma valid_direction (fire_direction : string) :
  existsb (String.eqb fire_direction) DIRECTIONS = true ->
  exists offset, Game.direction_to_offset fire_direction = Some offset /\
                 unit_offset offset.
Proof.
  unfold Game.direction_to_offset, DIRECTIONS. cbn [existsb].
  destruct (String.eqb fire_direction UP), (String.eqb fire_direction DOWN),
    (String.eqb fire_direction LEFT), (String.eqb fire_direction RIGHT);
    cbn [orb]; try discriminate; intros _; eexists; split;
    try reflexivity; reflexivity.
Qed.

Lemma In_DIRECTIONS (fire_direction : string) :
  existsb (String.eqb fire_direction) DIRECTIONS = true <->
  In fire_direction DIRECTIONS.
Proof.
  rewrite existsb_exists. split.
  - intros (x & Hx & E). apply String.eqb_eq in E. subst. exact Hx.
  - intros H. exists fire_direction. split; [exact H | apply String.eqb_refl].
Qed.

Lemma tracking_zombie_is_zombie (o : object) :
  isinstance o Zombie = false -> isinstance o TrackingZombie = false.
Proof. destruct o; cbn; congruence. Qed.

Lemma ray_first (p offset : Position) : ray p offset 1 = Position.add p offset.
Proof. unfold ray, Position.add. f_equal; lia. Qed.

Lemma ray_next (p offset : Position) (j : nat) :
  ray (Position.add p offset) offset j = ray p offset (S j).
Proof.
  unfold ray, Position.add. cbn [get_x get_y]. rewrite Nat2Z.inj_succ.
  f_equal; ring.
Qed.

(** A shot that has crossed [n] more cells after its first one has crossed
    fewer than [size] of them. *)
Lemma ray_within (g : Grid) (p offset : Position) (n : nat) :
  unit_offset offset ->
  Grid.in_bounds g (ray p offset 1) = true ->
  Grid.in_bounds g (ray p offset (S n)) = true ->
  Z.of_nat n < size g.
Proof.
  unfold unit_offset, Grid.in_bounds, ray. cbn [get_x get_y].
  rewrite !andb_true_iff, !Z.leb_le, !Z.ltb_lt, Nat2Z.inj_succ.
  intros U B1 Bn.
  assert (Hx : get_x offset = 0 \/ get_x offset = 1 \/ get_x offset = -1) by lia.
  assert (Hy : get_y offset = 0 \/ get_y offset = 1 \/ get_y offset = -1) by lia.
  destruct Hx as [Hx|[Hx|Hx]], Hy as [Hy|[Hy|Hy]]; rewrite Hx, Hy in *; lia.
Qed.

Lemma print_misses (m : message) (w : World) : fire_misses m (print m w) w.
Proof. eexists. split; [reflexivity|]. repeat split. Qed.

Lemma remove_hits (w : World) (target : Position) (e : ref) :
  grid_inv (grid w) ->
  Grid.get_entity (grid w) target = Some e ->
  fire_hits target e (on_grid (Grid.remove_entity target) w) w.
Proof.
  intros I He. destruct (get_entity_in_bounds _ _ _ He) as [B E].
  unfold on_grid. rewrite remove_entity_removed
    by (intros y; apply occupant_in_entities, I).
  eexists. split; [reflexivity|]. cbn [grid store stdout set_grid].
  assert (En : entities (removed target (grid w))
               = drop (Some e) (entities (grid w))).
  { unfold removed. rewrite B, E. reflexivity. }
  repeat split.
  - rewrite get_entity_removed, B, Position_eqb_refl. reflexivity.
  - intros p Hp. rewrite get_entity_removed.
    rewrite (proj2 (Position_eqb_neq target p)) by congruence.
    rewrite andb_false_r. reflexivity.
  - exact En.
  - rewrite En. cbn [drop].
    destruct (list_remove_In e _ (occupant_in_entities _ _ _ I E)) as [l' El].
    rewrite El. intros J. apply count_In in J.
    pose proof (list_remove_count _ _ _ El e) as C. rewrite Nat.eqb_refl in C.
    apply grid_inv_counts in I. destruct I as [_ C0]. destruct (C0 e). lia.
Qed.

Lemma fire_loop_walk (fire_direction : string) (offset : Position) (w : World) :
  Game.direction_to_offset fire_direction = Some offset ->
  grid_inv (grid w) ->
  forall fuel current_position,
    (exists k, (0 < k <= fuel)%nat /\
       (forall j, (0 < j < k)%nat -> clear w (ray current_position offset j)) /\
       fire_stops_at (ray current_position offset k)
         (AdvancedTextInterface.fire_loop fuel fire_direction current_position w)
         w) \/
    ((forall j, (0 < j <= fuel)%nat -> clear w (ray current_position offset j)) /\
     AdvancedTextInterface.fire_loop fuel fire_direction current_position w
     = OutOfFuel).
Proof.
  intros D I. induction fuel as [|fuel IH]; intros cur.
  - right. split; [intros j Hj; lia | reflexivity].
  - cbn [AdvancedTextInterface.fire_loop]. rewrite D.
    rewrite <- (ray_first cur offset).
    destruct (Grid.in_bounds (grid w) (ray cur offset 1)) eqn:B; cbn [negb].
    2:{ left. exists 1%nat. split; [lia|]. split; [intros j Hj; lia|].
        left. split; [exact B | apply print_misses]. }
    destruct (Grid.get_entity (grid w) (ray cur offset 1)) as [e|] eqn:E.
    + left. exists 1%nat. split; [lia|]. split; [intros j Hj; lia|].
      right. destruct (isinstance (store w e) Zombie) eqn:Zk; cbn [orb].
      * left. exists e. repeat split; try assumption.
        apply remove_hits; assumption.
      * right. exists e. rewrite (tracking_zombie_is_zombie _ Zk).
        repeat split; try assumption. apply print_misses.
    + rewrite ray_first.
      assert (C1 : clear w (ray cur offset 1)) by (split; assumption).
      destruct (IH (Position.add cur offset)) as [(k & Hk & Hc & Hs)|[Hc Ho]].
      * left. exists (S k). split; [lia|]. split.
        -- intros j Hj. destruct j as [|[|j]]; [lia | exact C1 |].
           rewrite <- ray_next. apply Hc. lia.
        -- rewrite <- ray_next. exact Hs.
      * right. split; [|exact Ho].
        intros j Hj. destruct j as [|[|j]]; [lia | exact C1 |].
        rewrite <- ray_next. apply Hc. lia.
Qed.

(** C4: on a grid satisfying its invariant the fire action, up to the
    turn it then triggers, always returns.  Without a crossbow, or with a
    direction that is not one of the four, it prints its message and
    changes nothing.  With a crossbow and a valid direction the shot flies
    from the player's position along the unit offset of the direction,
    over cells in bounds and empty, to the first cell that is not: if that
    cell holds a zombie (tracking or not), the zombie is removed from the
    mapping and from the ordered collection and every other cell is as
    before; if it is out of bounds or holds anything else, the message is
    printed and the grid is unchanged. *)
Theorem fire_resolution (w : World) (fire_direction : string)
    (current_position : Position) (inventory : Inventory) :
  grid_inv (grid w) ->
  (Inventory.contains (store w) inventory CROSSBOW = false ->
   fire_misses NO_WEAPON_MESSAGE
     (AdvancedTextInterface.fire fire_direction current_position inventory w)
     w) /\
  (Inventory.contains (store w) inventory CROSSBOW = true ->
   ~ In fire_direction DIRECTIONS ->
   fire_misses INVALID_FIRING_MESSAGE
     (AdvancedTextInterface.fire fire_direction current_position inventory w)
     w) /\
  (Inventory.contains (store w) inventory CROSSBOW = true ->
   In fire_direction DIRECTIONS ->
   exists offset k,
     Game.direction_to_offset fire_direction = Some offset /\
     unit_offset offset /\
     (0 < k)%nat /\
     (forall j, (0 < j < k)%nat -> clear w (ray current_position offset j)) /\
     fire_stops_at (ray current_position offset k)
       (AdvancedTextInterface.fire fire_direction current_position inventory w)
       w).
Proof.
  intros I. unfold AdvancedTextInterface.fire. split; [|split].
  - intros ->. apply print_misses.
  - intros -> N.
    destruct (existsb (String.eqb fire_direction) DIRECTIONS) eqn:E.
    + apply In_DIRECTIONS in E. contradiction.
    + apply print_misses.
  - intros -> V. apply In_DIRECTIONS in V. rewrite V. cbn [negb].
    destruct (valid_direction _ V) as (offset & D & U).
    exists offset.
    destruct (fire_loop_walk fire_direction offset w D I
                (S (Z.to_nat (size (grid w)))) current_position)
      as [(k & Hk & Hc & Hs)|[Hc _]].
    + exists k. split; [exact D|]. split; [exact U|]. split; [lia|].
      split; [exact Hc | exact Hs].
    + exfalso.
      pose proof (ray_within (grid w) current_position offset
                    (Z.to_nat (size (grid w))) U
                    (proj1 (Hc 1%nat ltac:(lia)))
                    (proj1 (Hc (S (Z.to_nat (size (grid w)))) ltac:(lia)))).
      lia.
Qed.

Lemma fire_resolution_witness :
  exists offset k,
    Game.direction_to_offset RIGHT = Some offset /\
    unit_offset offset /\
    (0 < k)%nat /\
    (forall j, (0 < j < k)%nat ->
       clear (armed_world (mkGrid 5 [0%nat; 1%nat]
                                  [((0, 0), 0%nat); ((3, 0), 1%nat)]))
             (ray (Pos 0 0) offset j)) /\
    fire_stops_at (ray (Pos 0 0) offset k)
      (AdvancedTextInterface.fire RIGHT (Pos 0 0) (mkInventory [5%nat])
         (armed_world (mkGrid 5 [0%nat; 1%nat]
                              [((0, 0), 0%nat); ((3, 0), 1%nat)])))
      (armed_world (mkGrid 5 [0%nat; 1%nat]
                           [((0, 0), 0%nat); ((3, 0), 1%nat)])).
Proof.
  refine (proj2 (proj2 (fire_resolution
            (armed_world (mkGrid 5 [0%nat; 1%nat]
                                 [((0, 0), 0%nat); ((3, 0), 1%nat)]))
            RIGHT (Pos 0 0) (mkInventory [5%nat]) _)) eq_refl _).
  - inspect_grid_inv.
  - cbn. tauto.
Defined.

(** ** The steps of the entities during a turn *)

Lemma list_remove_incl (v : ref) (l l' : list ref) :
  list_remove v l = Some l' ->
  incl l' l /\ List.length l = S (List.length l').
Proof.
  revert l'. induction l as [|y l IH]; cbn [list_remove]; [discriminate|].
  intros l'. destruct (Nat.eqb v y).
  - intros [= <-]. split; [apply incl_tl, incl_refl | reflexivity].
  - destruct (list_remove v l) as [l''|]; [|discriminate].
    intros [= <-]. destruct (IH l'' eq_refl) as [Hi Hl]. split.
    + intros x [<-|Hx]; [now left | right; apply Hi, Hx].
    + cbn [List.length]. rewrite Hl. reflexivity.
Qed.

Lemma heap_evolves_refl (h : heap) : heap_evolves h h.
Proof.
  intros r. split; [reflexivity|]. intros b inv E. exists b, inv.
  split; [exact E | apply incl_refl].
Qed.

Lemma heap_evolves_trans (h1 h2 h3 : heap) :
  heap_evolves h1 h2 -> heap_evolves h2 h3 -> heap_evolves h1 h3.
Proof.
  intros A B r. destruct (A r) as [A1 A2], (B r) as [B1 B2]. split.
  - congruence.
  - intros b3 inv3 E3. destruct (B2 _ _ E3) as (b2 & inv2 & E2 & I2).
    destruct (A2 _ _ E2) as (b1 & inv1 & E1 & I1).
    exists b1, inv1. split; [exact E1 | eapply incl_tran; eassumption].
Qed.

(** An object replaced by one of its class that holds no more than it
    held. *)
Lemma heap_evolves_set (h : heap) (r : ref) (o : object) :
  class_of o = class_of (h r) ->
  (forall b' inv', o = HoldingPlayerObj b' inv' ->
     exists b inv, h r = HoldingPlayerObj b inv /\
                   incl (items inv') (items inv)) ->
  heap_evolves h (heap_set h r o).
Proof.
  intros C H x. unfold heap_set. destruct (Nat.eqb_spec x r) as [->|N].
  - split; assumption.
  - apply heap_evolves_refl.
Qed.

Lemma pickup_cases (o : object) :
  isinstance o Pickup = true ->
  exists n, o = GarlicObj n \/ o = CrossbowObj n.
Proof. destruct o; cbn; try discriminate; eauto. Qed.

(** On an inventory of pickups the loop of [Inventory.step] comes to its
    end: it returns, with no item added and nothing but pickups changed. *)
Lemma step_loop_returns (fuel : nat) :
  forall (i : nat) (h : heap) (inv : Inventory),
    (forall item, In item (items inv) -> isinstance (h item) Pickup = true) ->
    (List.length (items inv) - i < fuel)%nat ->
    exists h' inv',
      Inventory.step_loop fuel i (h, inv) = Return tt (h', inv') /\
      incl (items inv') (items inv) /\
      (forall r, class_of (h' r) = class_of (h r)) /\
      (forall r, isinstance (h r) Pickup = false -> h' r = h r).
Proof.
  induction fuel as [|fuel IH]; intros i h inv P L; [lia|].
  cbn [Inventory.step_loop].
  destruct (nth_error (items inv) i) as [item|] eqn:N.
  2:{ exists h, inv. repeat split; auto using incl_refl. }
  pose proof (nth_error_In _ _ N) as Hin.
  assert (Hlen : (i < List.length (items inv))%nat).
  { apply nth_error_Some. congruence. }
  destruct (pickup_cases _ (P item Hin)) as [n Hn].
  set (o' := match h item with
             | CrossbowObj _ => CrossbowObj (n - 1)
             | _ => GarlicObj (n - 1)
             end).
  assert (Hold : Pickup.hold item h = Return tt (heap_set h item o')).
  { unfold Pickup.hold, o'. destruct Hn as [-> | ->]; reflexivity. }
  assert (Ho' : Pickup.get_lifetime o' = Some (n - 1)).
  { unfold o'. destruct Hn as [-> | ->]; reflexivity. }
  assert (Hc : forall r, class_of (heap_set h item o' r) = class_of (h r)).
  { intros r. unfold heap_set. destruct (Nat.eqb_spec r item) as [->|]; [|reflexivity].
    unfold o'. destruct Hn as [-> | ->]; reflexivity. }
  assert (Hk : forall r, isinstance (h r) Pickup = false ->
                         heap_set h item o' r = h r).
  { intros r Hr. unfold heap_set. destruct (Nat.eqb_spec r item) as [->|]; [|reflexivity].
    rewrite (P item Hin) in Hr. discriminate. }
  assert (P1 : forall x, In x (items inv) ->
                         isinstance (heap_set h item o' x) Pickup = true).
  { intros x Hx. unfold isinstance. rewrite Hc. apply (P x Hx). }
  rewrite Hold. unfold heap_set at 1. rewrite Nat.eqb_refl, Ho'.
  destruct (n - 1 <=? 0).
  - destruct (list_remove_In item _ Hin) as [l El]. rewrite El.
    destruct (list_remove_incl _ _ _ El) as [Hi Hl].
    destruct (IH (S i) (heap_set h item o') (mkInventory l)) as (h' & inv' & E & I' & C' & K').
    + intros x Hx. apply P1, Hi, Hx.
    + cbn [items]. lia.
    + exists h', inv'. split; [exact E|]. split; [|split].
      * eapply incl_tran; [exact I' | exact Hi].
      * intros r. rewrite C'. apply Hc.
      * intros r Hr. rewrite K'; [apply Hk, Hr|].
        unfold isinstance. rewrite Hc. exact Hr.
  - destruct (IH (S i) (heap_set h item o') inv) as (h' & inv' & E & I' & C' & K').
    + exact P1.
    + lia.
    + exists h', inv'. split; [exact E|]. split; [exact I'|]. split.
      * intros r. rewrite C'. apply Hc.
      * intros r Hr. rewrite K'; [apply Hk, Hr|].
        unfold isinstance. rewrite Hc. exact Hr.
Qed.

Lemma holding_player_step_returns (h : heap) (self : ref) (b : bool)
    (inv : Inventory) :
  h self = HoldingPlayerObj b inv ->
  (forall item, In item (items inv) -> isinstance (h item) Pickup = true) ->
  exists h', HoldingPlayer.step self h = Return tt h' /\ heap_evolves h h'.
Proof.
  intros E P. unfold HoldingPlayer.step, Inventory.step. rewrite E.
  cbn [snd].
  destruct (step_loop_returns (S (List.length (items inv))) 0 h inv P)
    as (h' & inv' & S & I & C & K); [lia|].
  rewrite S. eexists. split; [reflexivity|].
  intros r. unfold heap_set. destruct (Nat.eqb_spec r self) as [->|N].
  - rewrite E. split; [reflexivity|].
    intros b' inv'' [= <- <-]. exists b, inv. split; [reflexivity | exact I].
  - split; [apply C|]. intros b' inv'' E'.
    assert (Hr : isinstance (h r) Pickup = false).
    { unfold isinstance. rewrite <- C, E'. reflexivity. }
    rewrite (K r Hr) in E'. exists b', inv''. split; [exact E' | apply incl_refl].
Qed.

Lemma game_ok_store (w : World) (h' : heap) :
  game_ok w -> heap_evolves (store w) h' -> game_ok (set_store h' w).
Proof.
  intros (I & K & P & T & V) H. unfold game_ok. cbn [grid store set_store].
  assert (C : forall r, class_of (h' r) = class_of (store w r))
    by (intros r; apply H).
  split; [exact I|]. split; [exact K|]. split; [|split].
  - intros e He. rewrite C. apply P, He.
  - intros e He Te. rewrite C in Te. destruct (T e He Te) as (p & Hp & Pp).
    exists p. split; [exact Hp|]. unfold isinstance in *. rewrite C. exact Pp.
  - intros e b inv He E item Hi.
    destruct (proj2 (H e) _ _ E) as (b0 & inv0 & E0 & Inc).
    unfold isinstance. rewrite C. apply (V e b0 inv0 He E0). apply Inc, Hi.
Qed.

Lemma game_ok_grid (w : World) (g' : Grid) :
  game_ok w -> grid_inv g' -> keys_in_bounds g' ->
  entities g' = entities (grid w) -> game_ok (set_grid g' w).
Proof.
  intros (_ & _ & P & T & V) I K E. unfold game_ok.
  cbn [grid store set_grid]. rewrite E.
  split; [exact I|]. split; [exact K|]. split; [exact P|].
  split; [exact T | exact V].
Qed.

Lemma keys_dict_update (k k' : key) (v : ref) (d : dict) :
  In k' (keys (dict_update k v d)) -> k' = k \/ In k' (keys d).
Proof.
  induction d as [|[k0 v0] d IH]; cbn [dict_update keys map fst In].
  - intros [<-|[]]. now left.
  - destruct (key_eqb k k0); cbn [map fst In].
    + intros [<-|H]; [now left | right; now right].
    + intros [<-|H]; [right; now left|].
      destruct (IH H); [now left | right; now right].
Qed.

Lemma keys_in_bounds_moved (g : Grid) (s e : Position) :
  keys_in_bounds g -> Grid.in_bounds g e = true ->
  keys_in_bounds (moved s e g).
Proof.
  intros K Be k Hk. rewrite (in_bounds_size g) by apply moved_size.
  revert Hk. unfold moved. destruct (Grid.in_bounds g s); cbn [andb]; [|apply K].
  rewrite Be. destruct (dict_get (EntityLocations g) (tuple_of s)); [|apply K].
  cbn [EntityLocations]. intros Hk. apply keys_dict_update in Hk.
  destruct Hk as [->|Hk].
  - destruct e; exact Be.
  - apply K. unfold removed in Hk.
    change (Grid.in_bounds (mkGrid (size g) _ _) e) with (Grid.in_bounds g e) in Hk.
    rewrite Be in Hk. cbn [EntityLocations] in Hk.
    apply keys_without_incl, keys_without_incl in Hk. exact Hk.
Qed.

Lemma get_player_found (w : World) (e : ref) :
  game_ok w -> In e (entities (grid w)) ->
  isinstance (store w e) Player = true ->
  exists v, get_player w = Some v /\ In v (entities (grid w)) /\
            isinstance (store w v) Player = true.
Proof.
  intros (I & K & _) He Pe. unfold get_player, Grid.find_player.
  destruct (Grid.find_player_in (store w) (EntityLocations (grid w)))
    as [p|] eqn:F.
  - destruct (find_player_in_first _ _ _ F) as (d1 & v & d2 & Ed & Pv & _).
    assert (Hin : In (tuple_of p, v) (EntityLocations (grid w))).
    { rewrite Ed. apply in_elt. }
    assert (B : Grid.in_bounds (grid w) p = true).
    { pose proof (K (tuple_of p) (in_map fst _ _ Hin)) as B.
      destruct p; exact B. }
    exists v. rewrite (get_entity_dict _ _ B).
    split; [apply In_dict_get; [apply I | exact Hin]|].
    split; [|exact Pv].
    apply (values_entities _ _ I). apply (in_map snd _ _ Hin).
  - exfalso. rewrite find_player_in_None in F.
    rewrite (F e) in Pe; [discriminate|]. apply (values_entities _ _ I), He.
Qed.

Lemma call_infect_returns (h : heap) (v : ref) :
  isinstance (h v) Player = true -> class_of (h v) <> Player ->
  exists h', call_infect (Some v) h = Return tt h' /\ heap_evolves h h'.
Proof.
  intros P N. unfold call_infect, HoldingPlayer.infect, VulnerablePlayer.infect.
  destruct (h v) as [ | | | | b | b inv | n | n ] eqn:E;
    cbn in P; try discriminate; cbn [class_of] in *; try congruence.
  - eexists. split; [reflexivity|]. apply heap_evolves_set.
    + rewrite E. reflexivity.
    + intros b' inv' [=].
  - cbn [HoldingPlayer.get_inventory].
    destruct (Inventory.contains h inv GARLIC).
    + exists h. split; [reflexivity | apply heap_evolves_refl].
    + eexists. split; [reflexivity|]. apply heap_evolves_set.
      * rewrite E. reflexivity.
      * intros b' inv' [= <- <-]. exists b, inv.
        split; [exact E | apply incl_refl].
Qed.

Lemma try_offsets_returns (w : World) (position : Position)
    (offsets : list Position) :
  game_ok w ->
  exists w', try_offsets position offsets w = Return tt w' /\ stepped w w'.
Proof.
  intros G.
  destruct (first_open_candidate w position offsets)
    as [B|(pre & offset & post & E & B & Bd & [N|(e & He & P)])].
  - rewrite (try_offsets_blocked _ _ _ B). exists w.
    split; [reflexivity|]. split; [exact G|]. repeat split.
  - rewrite E, (try_offsets_skip _ _ _ _ B), (try_offsets_move _ _ _ _ Bd N).
    eexists. split; [reflexivity|].
    pose proof (entities_moved_into_empty (grid w) position _ N) as En.
    split; [|split; [exact En | split; reflexivity]].
    apply game_ok_grid; [exact G | | | exact En].
    + apply moved_inv, G.
    + apply keys_in_bounds_moved; [apply G | exact Bd].
  - rewrite E, (try_offsets_skip _ _ _ _ B), (try_offsets_infect _ _ _ _ e He P).
    assert (Hin : In e (entities (grid w))).
    { apply (occupant_in_entities _ (tuple_of (Position.add position offset)));
        [apply G | apply get_entity_in_bounds, He]. }
    destruct (get_player_found w e G Hin P) as (v & Ev & Hv & Pv).
    destruct (call_infect_returns (store w) v Pv) as (h' & Eh & Hh).
    { destruct G as (_ & _ & NP & _). apply NP, Hv. }
    unfold on_store. rewrite Ev, Eh. eexists. split; [reflexivity|].
    split; [apply game_ok_store; assumption|].
    split; [reflexivity | split; reflexivity].
Qed.

Lemma find_player_some (w : World) (e : ref) :
  game_ok w -> In e (entities (grid w)) ->
  isinstance (store w e) Player = true ->
  exists p, Grid.find_player (store w) (grid w) = Some p.
Proof.
  intros G He Pe. unfold Grid.find_player.
  destruct (Grid.find_player_in (store w) (EntityLocations (grid w)))
    as [p|] eqn:F; [eauto|].
  exfalso. rewrite find_player_in_None in F.
  rewrite (F e) in Pe; [discriminate|].
  apply (values_entities _ _ (proj1 G)), He.
Qed.

Lemma call_step_returns (w : World) (key : Position) (value : ref) :
  game_ok w -> In value (entities (grid w)) ->
  exists w',
    call_step key value w = Return tt w' /\
    game_ok w' /\ entities (grid w') = entities (grid w) /\
    calls w' = calls w ++ [(key, value)] /\ no_steps w' = no_steps w.
Proof.
  intros G Hv. unfold call_step, bind, record_call, modify.
  set (w0 := mkWorld (game_class_of w) (grid w) (no_steps w) (store w)
                     (random_directions w) (draws w) (stdout w)
                     (calls w ++ [(key, value)])).
  assert (G0 : game_ok w0) by exact G.
  change (store w0) with (store w).
  destruct (store w value) as [ | | | | b | b inv | n | n ] eqn:E;
    cbn [class_of];
    try (exists w0; split; [reflexivity|]; split; [exact G0|];
         split; [reflexivity|]; split; reflexivity).
  - unfold Zombie.step.
    destruct (try_offsets_returns (set_draws (S (draws w0)) w0) key
                (map (fun direction => Pos (fst direction) (snd direction))
                     (random_directions w0 (draws w0))) G0)
      as (w' & S & G' & En & Ca & No).
    exists w'. split; [exact S|]. split; [exact G'|].
    split; [exact En|]. split; [exact Ca | exact No].
  - destruct G0 as (I0 & K0 & P0 & T0 & V0).
    destruct (T0 value Hv) as (p & Hp & Pp).
    { change (store w0) with (store w). rewrite E. reflexivity. }
    destruct (find_player_some w0 p (conj I0 (conj K0 (conj P0 (conj T0 V0))))
                Hp Pp) as [pp F].
    unfold TrackingZombie.step. rewrite F.
    destruct (try_offsets_returns w0 key
                (map (fun x => fst (fst x))
                     (TrackingZombie.compressed_list pp key))
                (conj I0 (conj K0 (conj P0 (conj T0 V0)))))
      as (w' & S & G' & En & Ca & No).
    exists w'. split; [exact S|]. split; [exact G'|].
    split; [exact En|]. split; [exact Ca | exact No].
  - destruct (holding_player_step_returns (store w0) value b inv E)
      as (h' & S & H).
    { destruct G0 as (_ & _ & _ & _ & V0). exact (V0 value b inv Hv E). }
    unfold on_store. rewrite S. eexists. split; [reflexivity|].
    split; [apply game_ok_store; assumption|].
    split; [reflexivity|]. split; reflexivity.
Qed.

Lemma for_each_call_step (l : list (Position * ref)) :
  forall w,
    game_ok w ->
    (forall kv, In kv l -> In (snd kv) (entities (grid w))) ->
    exists w',
      for_each l (fun kv => call_step (fst kv) (snd kv)) w = Return tt w' /\
      game_ok w' /\ entities (grid w') = entities (grid w) /\
      calls w' = calls w ++ l /\ no_steps w' = no_steps w.
Proof.
  induction l as [|[key value] l IH]; intros w G H.
  - exists w. rewrite app_nil_r. split; [reflexivity|]. split; [exact G|].
    split; [reflexivity|]. split; reflexivity.
  - cbn [for_each fst snd]. unfold bind.
    destruct (call_step_returns w key value G (H (key, value) (or_introl eq_refl)))
      as (w1 & S1 & G1 & E1 & C1 & N1).
    rewrite S1.
    destruct (IH w1 G1) as (w' & S & G' & E' & C' & N').
    { intros kv Hkv. rewrite E1. apply H. now right. }
    exists w'. split; [exact S|]. split; [exact G'|].
    split; [congruence|]. split; [|congruence].
    rewrite C', C1, <- app_assoc. reflexivity.
Qed.

Lemma get_mapping_entities (g : Grid) :
  map snd (Grid.get_mapping g) = values (EntityLocations g).
Proof.
  unfold Grid.get_mapping, values. rewrite map_map. reflexivity.
Qed.

Lemma get_mapping_occupancy (g : Grid) (p : Position) (e : ref) :
  grid_inv g -> keys_in_bounds g ->
  (In (p, e) (Grid.get_mapping g) <-> Grid.get_entity g p = Some e).
Proof.
  intros I K. unfold Grid.get_mapping. rewrite in_map_iff. split.
  - intros ([k v] & [= <- <-] & Hin). cbn [fst snd].
    rewrite get_entity_dict by (apply K, (in_map fst _ _ Hin)).
    apply In_dict_get; [apply I|]. destruct k; exact Hin.
  - intros H. destruct (get_entity_in_bounds _ _ _ H) as [_ E].
    exists (tuple_of p, e). split; [destruct p; reflexivity|].
    apply dict_get_In, E.
Qed.

(** ** A turn in any world *)

Lemma step_loop_final (fuel : nat) :
  forall (i : nat) (h : heap) (inv : Inventory),
    (List.length (items inv) - i < fuel)%nat ->
    exists s, final (Inventory.step_loop fuel i (h, inv)) = Some s.
Proof.
  induction fuel as [|fuel IH]; intros i h inv L; [lia|].
  cbn [Inventory.step_loop].
  destruct (nth_error (items inv) i) as [item|] eqn:N; [|eexists; reflexivity].
  assert (Hlen : (i < List.length (items inv))%nat).
  { apply nth_error_Some. congruence. }
  destruct (Pickup.hold item h) as [a h1|x h1|] eqn:Hold.
  - destruct (Pickup.get_lifetime (h1 item)) as [n|]; [|eexists; reflexivity].
    destruct (n <=? 0).
    + destruct (list_remove item (items inv)) as [l|] eqn:El;
        [|eexists; reflexivity].
      apply IH. cbn [items]. destruct (list_remove_incl _ _ _ El). lia.
    + apply IH. lia.
  - eexists; reflexivity.
  - unfold Pickup.hold in Hold. destruct (h item); discriminate.
Qed.

Lemma try_offsets_final (w : World) (position : Position)
    (offsets : list Position) :
  exists w', final (try_offsets position offsets w) = Some w' /\
             calls w' = calls w /\ no_steps w' = no_steps w.
Proof.
  destruct (first_open_candidate w position offsets)
    as [B|(pre & offset & post & E & B & Bd & [N|(e & He & P)])].
  - rewrite (try_offsets_blocked _ _ _ B). exists w. repeat split.
  - rewrite E, (try_offsets_skip _ _ _ _ B), (try_offsets_move _ _ _ _ Bd N).
    eexists. repeat split.
  - rewrite E, (try_offsets_skip _ _ _ _ B), (try_offsets_infect _ _ _ _ e He P).
    destruct (call_infect_final (get_player w) (store w)) as [h' F].
    unfold on_store.
    destruct (call_infect (get_player w) (store w)) as [a h1|x h1|];
      cbn [final] in *; try discriminate; eexists; repeat split.
Qed.

Lemma call_step_final (w : World) (key : Position) (value : ref) :
  exists w', final (call_step key value w) = Some w' /\
             calls w' = calls w ++ [(key, value)] /\
             no_steps w' = no_steps w.
Proof.
  unfold call_step, bind, record_call, modify.
  set (w0 := mkWorld (game_class_of w) (grid w) (no_steps w) (store w)
                     (random_directions w) (draws w) (stdout w)
                     (calls w ++ [(key, value)])).
  change (store w0) with (store w).
  destruct (store w value) as [ | | | | b | b inv | n | n ] eqn:E;
    cbn [class_of]; try solve [exists w0; repeat split].
  - unfold Zombie.step.
    apply (try_offsets_final (set_draws (S (draws w0)) w0)).
  - unfold TrackingZombie.step.
    destruct (Grid.find_player (store w0) (grid w0));
      [apply (try_offsets_final w0) | exists w0; repeat split].
  - unfold on_store, HoldingPlayer.step. change (store w0) with (store w).
    rewrite E. unfold Inventory.step. cbn [snd].
    destruct (step_loop_final (S (List.length (items inv))) 0 (store w) inv)
      as [s F]; [lia|].
    destruct (Inventory.step_loop _ 0 (store w, inv)) as [a [h1 i1]|x [h1 i1]|];
      cbn [final] in F; try discriminate; eexists; repeat split.
Qed.

Lemma for_each_final (l : list (Position * ref)) :
  forall w,
    exists w' done rest,
      l = done ++ rest /\
      final (for_each l (fun kv => call_step (fst kv) (snd kv)) w) = Some w' /\
      calls w' = calls w ++ done /\ no_steps w' = no_steps w /\
      (for_each l (fun kv => call_step (fst kv) (snd kv)) w = Return tt w' ->
       rest = []).
Proof.
  induction l as [|[key value] l IH]; intros w.
  - exists w, [], []. split; [reflexivity|]. split; [reflexivity|].
    split; [symmetry; apply app_nil_r|]. split; reflexivity.
  - cbn [for_each fst snd]. unfold bind.
    destruct (call_step_final w key value) as (w1 & F1 & C1 & N1).
    destruct (call_step key value w) as [a w1'|x w1'|]; cbn [final] in F1;
      try discriminate; injection F1 as ->.
    + destruct (IH w1) as (w' & done & rest & E & F & C & N & R).
      exists w', ((key, value) :: done), rest.
      split; [cbn [app]; rewrite E; reflexivity|]. split; [exact F|].
      split; [rewrite C, C1, <- app_assoc; reflexivity|].
      split; [congruence | exact R].
    + exists w1, [(key, value)], l. split; [reflexivity|].
      split; [reflexivity|]. split; [exact C1|]. split; [exact N1|].
      discriminate.
Qed.

(** ** Game.step *)

Lemma call_step_behaviour (p : Position) (e : ref) (w : World) :
  call_step p e w = (record_call p e ;;; behaviour p e)%py w.
Proof.
  unfold call_step, behaviour, bind, record_call, modify. cbn [store].
  destruct (store w e); reflexivity.
Qed.

Lemma for_each_visits (l : list (Position * ref)) :
  forall w,
    visits l w (for_each l (fun kv => call_step (fst kv) (snd kv)) w).
Proof.
  induction l as [|[p e] l IH]; intros w.
  - apply visits_done.
  - cbn [for_each fst snd]. unfold bind.
    destruct (call_step_final w p e) as (w1 & F & _).
    pose proof (call_step_behaviour p e w) as B.
    destruct (call_step p e w) as [[] w1'|x w1'|]; cbn [final] in F;
      try discriminate.
    + apply (visits_next p e l w w1'); [symmetry; exact B | apply IH].
    + apply visits_raise. symmetry. exact B.
Qed.

Lemma game_ok_turn_ok (w : World) : game_ok w -> turn_ok w.
Proof.
  intros (I & K & P & T & V).
  split; [exact I|]. split; [exact K|]. split; [|split; [exact T | exact V]].
  intros z e _ _ He. apply P, He.
Qed.

(** The games of [BasicMapLoader]: plain players and hospitals. *)
Lemma basic_game_turn_ok (w : World) :
  grid_inv (grid w) -> keys_in_bounds (grid w) ->
  (forall e, In e (entities (grid w)) ->
     store w e = PlayerObj \/ store w e = HospitalObj) ->
  turn_ok w.
Proof.
  intros I K B. split; [exact I|]. split; [exact K|]. split; [|split].
  - intros z e Hz Z _. destruct (B z Hz) as [E|E]; rewrite E in Z;
      discriminate Z.
  - intros e He Te. destruct (B e He) as [E|E]; rewrite E in Te;
      discriminate Te.
  - intros e b inv He E. destruct (B e He) as [E'|E']; rewrite E' in E;
      discriminate E.
Qed.

Lemma turn_ok_game_ok (w : World) (z : ref) :
  turn_ok w -> In z (entities (grid w)) ->
  isinstance (store w z) Zombie = true -> game_ok w.
Proof.
  intros (I & K & P & T & V) Hz Z.
  split; [exact I|]. split; [exact K|]. split; [|split; [exact T | exact V]].
  intros e He. apply (P z e Hz Z He).
Qed.

Lemma turn_ok_store (w : World) (h' : heap) :
  turn_ok w -> heap_evolves (store w) h' -> turn_ok (set_store h' w).
Proof.
  intros (I & K & P & T & V) H. unfold turn_ok. cbn [grid store set_store].
  assert (C : forall r, class_of (h' r) = class_of (store w r))
    by (intros r; apply H).
  split; [exact I|]. split; [exact K|]. split; [|split].
  - intros z e Hz Z He. rewrite C. apply (P z e Hz); [|exact He].
    unfold isinstance in *. rewrite <- C. exact Z.
  - intros e He Te. rewrite C in Te. destruct (T e He Te) as (p & Hp & Pp).
    exists p. split; [exact Hp|]. unfold isinstance in *. rewrite C. exact Pp.
  - intros e b inv He E item Hi.
    destruct (proj2 (H e) _ _ E) as (b0 & inv0 & E0 & Inc).
    unfold isinstance. rewrite C. apply (V e b0 inv0 He E0). apply Inc, Hi.
Qed.

Lemma call_step_keeps_turn_ok (w : World) (key : Position) (value : ref) :
  turn_ok w -> In value (entities (grid w)) ->
  exists w',
    call_step key value w = Return tt w' /\
    turn_ok w' /\ entities (grid w') = entities (grid w) /\
    calls w' = calls w ++ [(key, value)] /\ no_steps w' = no_steps w.
Proof.
  intros T Hv. destruct (isinstance (store w value) Zombie) eqn:Z.
  - destruct (call_step_returns w key value
                (turn_ok_game_ok w value T Hv Z) Hv) as (w' & S & G & R).
    exists w'. split; [exact S|]. split; [apply game_ok_turn_ok, G | exact R].
  - unfold call_step, bind, record_call, modify.
    set (w0 := mkWorld (game_class_of w) (grid w) (no_steps w) (store w)
                       (random_directions w) (draws w) (stdout w)
                       (calls w ++ [(key, value)])).
    assert (T0 : turn_ok w0) by exact T.
    change (store w0) with (store w).
    destruct (store w value) as [ | | | | b | b inv | n | n ] eqn:E;
      cbn in Z; try discriminate; cbn [class_of];
      try (exists w0; split; [reflexivity|]; split; [exact T0|];
           split; [reflexivity|]; split; reflexivity).
    destruct (holding_player_step_returns (store w0) value b inv E)
      as (h' & S & H).
    { destruct T0 as (_ & _ & _ & _ & V0). exact (V0 value b inv Hv E). }
    unfold on_store. rewrite S. eexists. split; [reflexivity|].
    split; [apply turn_ok_store; assumption|].
    split; [reflexivity|]. split; reflexivity.
Qed.

Lemma for_each_keeps_turn_ok (l : list (Position * ref)) :
  forall w,
    turn_ok w ->
    (forall kv, In kv l -> In (snd kv) (entities (grid w))) ->
    exists w',
      for_each l (fun kv => call_step (fst kv) (snd kv)) w = Return tt w' /\
      turn_ok w' /\ entities (grid w') = entities (grid w) /\
      calls w' = calls w ++ l /\ no_steps w' = no_steps w.
Proof.
  induction l as [|[key value] l IH]; intros w G H.
  - exists w. rewrite app_nil_r. split; [reflexivity|]. split; [exact G|].
    split; [reflexivity|]. split; reflexivity.
  - cbn [for_each fst snd]. unfold bind.
    destruct (call_step_keeps_turn_ok w key value G
                (H (key, value) (or_introl eq_refl)))
      as (w1 & S1 & G1 & E1 & C1 & N1).
    rewrite S1.
    destruct (IH w1 G1) as (w' & S & G' & E' & C' & N').
    { intros kv Hkv. rewrite E1. apply H. now right. }
    exists w'. split; [exact S|]. split; [exact G'|].
    split; [congruence|]. split; [|congruence].
    rewrite C', C1, <- app_assoc. reflexivity.
Qed.

(** C3: [Game.step] increments the step count by one and walks the
    mapping taken at the start of the turn, in its order: each entry
    visited has the [step] of its entity invoked once, with the position
    of the entry, in the world the earlier steps have left; a step that
    raises ends the turn with the later entries unvisited, the count
    incremented all the same.  In a game where no step raises (invariant
    of the grid, positions in bounds, no plain [Player] beside zombies, a
    player for tracking zombies, pickups in inventories) the call
    returns and the entries visited are the whole mapping: one for each
    entity of the grid, at the position the entity held at the start of
    the turn, whatever moved in between. *)
Theorem game_step_visits_snapshot (w : World) :
  visits (Grid.get_mapping (grid w)) (set_no_steps (no_steps w + 1) w)
         (Game.step w) /\
  (exists w', final (Game.step w) = Some w' /\
              no_steps w' = no_steps w + 1) /\
  (turn_ok w ->
   exists w',
     Game.step w = Return tt w' /\
     calls w' = calls w ++ Grid.get_mapping (grid w) /\
     (forall p e, In (p, e) (Grid.get_mapping (grid w)) <->
                  Grid.get_entity (grid w) p = Some e) /\
     (forall e, In e (entities (grid w)) ->
                count (map snd (Grid.get_mapping (grid w))) e = 1%nat)).
Proof.
  unfold Game.step, bind, modify, get.
  set (w0 := set_no_steps (no_steps w + 1) w).
  split; [|split].
  - apply (for_each_visits (Grid.get_mapping (grid w0)) w0).
  - destruct (for_each_final (Grid.get_mapping (grid w0)) w0)
      as (w' & done & rest & _ & F & _ & N & _).
    exists w'. split; [exact F | exact N].
  - intros G. assert (G0 : turn_ok w0) by exact G.
    destruct (for_each_keeps_turn_ok (Grid.get_mapping (grid w0)) w0 G0)
      as (w' & S & _ & _ & C & _).
    { intros kv Hkv. apply (values_entities _ _ (proj1 G0)).
      rewrite <- get_mapping_entities. apply in_map, Hkv. }
    exists w'. split; [exact S|]. split; [exact C|]. split.
    + intros p e. apply get_mapping_occupancy; apply G.
    + intros e He. rewrite get_mapping_entities.
      destruct G as ((_ & _ & H) & _). apply H, He.
Qed.

Lemma game_step_visits_snapshot_witness :
  exists w',
    Game.step
      (example_world (mkGrid 2 [1%nat; 0%nat] [((0, 0), 1%nat); ((1, 1), 0%nat)]))
    = Return tt w' /\
    no_steps w' = 1 /\
    calls w' = [(Pos 0 0, 1%nat); (Pos 1 1, 0%nat)] /\
    Grid.get_entity (grid w') (Pos 0 1) = Some 1%nat.
Proof.
  destruct (proj2 (proj2 (game_step_visits_snapshot
              (example_world
                 (mkGrid 2 [1%nat; 0%nat] [((0, 0), 1%nat); ((1, 1), 0%nat)])))))
    as (w' & S & C & _).
  - split; [inspect_grid_inv|]. split; [|split; [|split]].
    + intros k H. cbn in H. destruct H as [<-|[<-|[]]]; reflexivity.
    + intros z e _ _ H. cbn in H. destruct H as [<-|[<-|[]]]; cbn; discriminate.
    + intros e H. cbn in H. destruct H as [<-|[<-|[]]]; cbn; discriminate.
    + intros e b inv H. cbn in H. destruct H as [<-|[<-|[]]]; cbn; discriminate.
  - exists w'. split; [exact S|]. split; [|split; [exact C|]];
      cbv in S; injection S as <-; reflexivity.
Defined.

(** C3 does not hold in every game state.  A zombie 1 at (0, 0) stands
    beside a plain player 0 at (0, 1), with a hospital 2 at (1, 1), on a
    grid that satisfies its invariant.  The zombie is first in the
    mapping; its step reaches the player and calls [infect], which a
    plain [Player] does not have.  The turn ends there with
    [AttributeError]: the count is incremented, and the steps of the
    player and of the hospital are not invoked at all. *)
Theorem game_step_stops_when_a_step_raises :
  let g := mkGrid 2 [1%nat; 0%nat; 2%nat]
                  [((0, 0), 1%nat); ((0, 1), 0%nat); ((1, 1), 2%nat)] in
  grid_inv g /\ keys_in_bounds g /\
  exists w',
    Game.step (plain_world g) = Raise AttributeError w' /\
    visits [(Pos 0 0, 1%nat)] (set_no_steps 1 (plain_world g))
           (Raise AttributeError w') /\
    no_steps w' = 1 /\
    grid w' = g /\
    calls w' = [(Pos 0 0, 1%nat)] /\
    ~ (forall e, In e (entities g) ->
                 count (map snd (calls w')) e = 1%nat).
Proof.
  cbv zeta. split; [inspect_grid_inv|]. split.
  - intros k H. cbn in H. destruct H as [<-|[<-|[<-|[]]]]; reflexivity.
  - eexists. split; [reflexivity|]. split; [|split; [|split; [|split]]];
      try reflexivity.
    + apply visits_raise. reflexivity.
    + intros H. specialize (H 0%nat). cbn in H.
      assert (E : 0%nat = 1%nat) by (apply H; right; left; reflexivity).
      discriminate E.
Qed.

(** A grid can hold one instance at two positions ([add_entity] does not
    check): the mapping then has two entries for it, and a turn invokes
    its step twice, once with each position. *)
Lemma game_step_visits_a_shared_instance_twice :
  let g := mkGrid 2 [7%nat; 7%nat] [((0, 0), 7%nat); ((1, 1), 7%nat)] in
  exists w',
    Game.step (example_world g) = Return tt w' /\
    calls w' = [(Pos 0 0, 7%nat); (Pos 1 1, 7%nat)] /\
    count (map snd (calls w')) 7%nat = 2%nat.
Proof.
  cbv zeta. eexists. split; [reflexivity|]. split; reflexivity.
Qed.

(** * Further properties *)

(** ** Grid: adding, removing, moving *)

Lemma balanced_occupant (g : Grid) (k : key) (e : ref) :
  balanced g -> dict_get (EntityLocations g) k = Some e -> In e (entities g).
Proof.
  intros [_ C] E. apply count_In. rewrite <- C. apply count_In.
  apply dict_get_In in E. apply (in_map snd) in E. exact E.
Qed.

Lemma grid_inv_balanced (g : Grid) : grid_inv g -> balanced g.
Proof.
  intros I. apply grid_inv_counts in I. destruct I as [ND C].
  split; [exact ND|]. intros e. apply C.
Qed.

Lemma removed_balanced (g : Grid) (p : Position) :
  balanced g -> balanced (removed p g).
Proof.
  intros B. pose proof (fun e => balanced_occupant g (tuple_of p) e B) as O.
  destruct B as [ND C]. destruct (removed_counts g p ND O) as [ND' C'].
  split; [exact ND'|]. intros x. destruct (C' x). rewrite C in *. lia.
Qed.

Lemma add_entity_added_balanced (g : Grid) (p : Position) (e : ref) :
  balanced g -> Grid.add_entity p e g = Return tt (added p e g).
Proof.
  intros B. unfold Grid.add_entity, added, removed.
  destruct (Grid.in_bounds g p); cbn [negb]; [|reflexivity].
  unfold bind at 1. unfold Grid.pop_location, dict_pop.
  destruct (dict_get (EntityLocations g) (tuple_of p)) as [r|] eqn:E.
  - unfold bind at 1. unfold Grid.remove_from_entities.
    cbn [EntityLocations entities size].
    destruct (list_remove_In r (entities g) (balanced_occupant g _ r B E))
      as [l' El].
    unfold drop. rewrite El. reflexivity.
  - reflexivity.
Qed.

Lemma added_balanced (g : Grid) (p : Position) (e : ref) :
  balanced g -> balanced (added p e g).
Proof.
  intros B. unfold added. destruct (Grid.in_bounds g p) eqn:Bp; [|exact B].
  pose proof (removed_balanced g p B) as [ND1 C1].
  assert (A : dict_get (EntityLocations (removed p g)) (tuple_of p) = None).
  { unfold removed. rewrite Bp. cbn [EntityLocations].
    rewrite dict_get_without, key_eqb_refl. reflexivity. }
  split; cbn [EntityLocations entities]; rewrite (dict_update_absent _ _ _ A).
  - apply NoDup_keys_append; assumption.
  - intros x. rewrite count_values_append, count_app, count_cons, C1.
    change (count [] x) with 0%nat. destruct (Nat.eqb x e); lia.
Qed.

Lemma move_entity_moved_balanced (g : Grid) (s e : Position) :
  balanced g -> Grid.move_entity s e g = Return tt (moved s e g).
Proof.
  intros B. unfold Grid.move_entity, moved.
  destruct (Grid.in_bounds g s); cbn [negb orb andb]; [|reflexivity].
  destruct (Grid.in_bounds g e); cbn [negb]; [|reflexivity].
  unfold bind at 1. unfold Grid.pop_location, dict_pop.
  destruct (dict_get (EntityLocations g) (tuple_of s)) as [r|] eqn:E.
  - unfold bind. rewrite remove_entity_removed.
    + reflexivity.
    + cbn [EntityLocations entities]. intros y. rewrite dict_get_without.
      destruct (key_eqb (tuple_of s) (tuple_of e)); [discriminate|].
      apply balanced_occupant, B.
  - rewrite (without_absent _ _ E). destruct g; reflexivity.
Qed.

Lemma moved_balanced (g : Grid) (s e : Position) :
  balanced g -> balanced (moved s e g).
Proof.
  intros B. unfold moved.
  destruct (Grid.in_bounds g s) eqn:Bs; cbn [andb]; [|exact B].
  destruct (Grid.in_bounds g e) eqn:Be; [|exact B].
  destruct (dict_get (EntityLocations g) (tuple_of s)) as [r|] eqn:E; [|exact B].
  set (g1 := mkGrid (size g) (entities g) (without (tuple_of s) (EntityLocations g))).
  assert (O : forall y, dict_get (EntityLocations g1) (tuple_of e) = Some y ->
                        In y (entities g1)).
  { cbn [EntityLocations entities g1]. intros y. rewrite dict_get_without.
    destruct (key_eqb (tuple_of s) (tuple_of e)); [discriminate|].
    apply balanced_occupant, B. }
  destruct B as [ND C].
  assert (ND1 : NoDup (keys (EntityLocations g1))).
  { apply NoDup_keys_without, ND. }
  destruct (removed_counts g1 e ND1 O) as [ND2 C2].
  assert (A : dict_get (EntityLocations (removed e g1)) (tuple_of e) = None).
  { unfold removed. change (Grid.in_bounds g1 e) with (Grid.in_bounds g e).
    rewrite Be. cbn [EntityLocations]. rewrite dict_get_without, key_eqb_refl.
    reflexivity. }
  split; cbn [EntityLocations entities]; rewrite (dict_update_absent _ _ _ A).
  - apply NoDup_keys_append; assumption.
  - intros x. rewrite count_values_append.
    pose proof (count_values_without _ _ _ ND E x) as V.
    change (without (tuple_of s) (EntityLocations g)) with (EntityLocations g1) in V.
    change (entities g1) with (entities g) in C2.
    pose proof (C x). destruct (C2 x). destruct (Nat.eqb x r); lia.
Qed.

Lemma run_op_balanced (op : grid_op) (g : Grid) :
  balanced g -> exists g', run_op op g = Return tt g' /\ balanced g'.
Proof.
  intros B. destruct op as [p e|p|s e]; cbn [run_op].
  - exists (added p e g). split; [apply add_entity_added_balanced, B|].
    apply added_balanced, B.
  - exists (removed p g). split; [|apply removed_balanced, B].
    apply remove_entity_removed. intros e. apply balanced_occupant, B.
  - exists (moved s e g). split; [apply move_entity_moved_balanced, B|].
    apply moved_balanced, B.
Qed.

(** X1: whatever is added, removed and moved on a grid that starts empty,
    also the same entity instance at several positions, no operation
    raises, and the mapping and the ordered collection keep holding every
    entity the same number of times. *)
Theorem grid_operations_never_raise (n : Z) (ops : list grid_op) :
  exists g, run_ops ops (Grid.init n) = Return tt g /\ balanced g.
Proof.
  assert (H : forall g, balanced g ->
                exists g', run_ops ops g = Return tt g' /\ balanced g').
  { induction ops as [|op ops IH]; intros g B.
    - exists g. split; [reflexivity | exact B].
    - unfold run_ops. cbn [for_each]. unfold bind.
      destruct (run_op_balanced op g B) as (g1 & E1 & B1). rewrite E1.
      apply IH, B1. }
  apply H. split; [constructor | reflexivity].
Qed.

Lemma get_entity_added (g : Grid) (p q : Position) (e : ref) :
  Grid.in_bounds g p = true ->
  Grid.get_entity (added p e g) q =
  if Position.eqb p q then Some e else Grid.get_entity g q.
Proof.
  intros B. unfold added. rewrite B. unfold Grid.get_entity at 1.
  rewrite (in_bounds_size g) by (cbn [size]; apply removed_size).
  cbn [EntityLocations]. rewrite dict_get_update.
  change (key_eqb (tuple_of p) (tuple_of q)) with (Position.eqb p q).
  destruct (Position.eqb p q) eqn:Q.
  - apply Position_eqb_eq in Q; subst q. rewrite B. reflexivity.
  - pose proof (get_entity_removed g p q) as R. unfold Grid.get_entity in R at 1.
    rewrite (in_bounds_size g) in R by apply removed_size.
    rewrite R, B, Q. reflexivity.
Qed.

(** X2: [add_entity] at a position in bounds returns; the position then
    holds the new entity, every other position holds what it held, and the
    ordered collection is the old one without (one occurrence of) the
    former occupant, followed by the new entity. *)
Theorem add_entity_then_get_entity (g : Grid) (p : Position) (e : ref) :
  balanced g -> Grid.in_bounds g p = true ->
  exists g',
    Grid.add_entity p e g = Return tt g' /\
    size g' = size g /\
    Grid.get_entity g' p = Some e /\
    (forall q, q <> p -> Grid.get_entity g' q = Grid.get_entity g q) /\
    entities g' = drop (Grid.get_entity g p) (entities g) ++ [e].
Proof.
  intros Bl B. exists (added p e g).
  split; [apply add_entity_added_balanced, Bl|].
  split. { unfold added. rewrite B. cbn [size]. apply removed_size. }
  split. { rewrite (get_entity_added g p p e B), Position_eqb_refl. reflexivity. }
  split.
  - intros q N. rewrite (get_entity_added g p q e B).
    rewrite (proj2 (Position_eqb_neq p q)) by congruence. reflexivity.
  - unfold added, removed. rewrite B. cbn [entities].
    rewrite (get_entity_dict g p B). reflexivity.
Qed.

Lemma add_entity_then_get_entity_witness :
  exists g',
    Grid.add_entity (Pos 1 1) 9%nat
      (mkGrid 2 [7%nat; 8%nat] [((0, 0), 7%nat); ((1, 1), 8%nat)])
    = Return tt g' /\
    size g' = 2 /\
    Grid.get_entity g' (Pos 1 1) = Some 9%nat /\
    (forall q, q <> Pos 1 1 ->
       Grid.get_entity g' q =
       Grid.get_entity
         (mkGrid 2 [7%nat; 8%nat] [((0, 0), 7%nat); ((1, 1), 8%nat)]) q) /\
    entities g' = [7%nat; 9%nat].
Proof.
  apply (add_entity_then_get_entity
           (mkGrid 2 [7%nat; 8%nat] [((0, 0), 7%nat); ((1, 1), 8%nat)])
           (Pos 1 1) 9%nat).
  - apply grid_inv_balanced. inspect_grid_inv.
  - reflexivity.
Defined.

(** X3: [remove_entity] returns; the position is then empty, every other
    position holds what it held, and the ordered collection has lost (one
    occurrence of) the former occupant, if there was one. *)
Theorem remove_entity_then_get_entity (g : Grid) (p : Position) :
  balanced g ->
  exists g',
    Grid.remove_entity p g = Return tt g' /\
    size g' = size g /\
    Grid.get_entity g' p = None /\
    (forall q, q <> p -> Grid.get_entity g' q = Grid.get_entity g q) /\
    entities g' = drop (Grid.get_entity g p) (entities g).
Proof.
  intros Bl. exists (removed p g).
  split. { apply remove_entity_removed. intros e. apply balanced_occupant, Bl. }
  split; [apply removed_size|]. split; [|split].
  - rewrite get_entity_removed, Position_eqb_refl.
    destruct (Grid.in_bounds g p) eqn:B; [reflexivity|].
    unfold Grid.get_entity. rewrite B. reflexivity.
  - intros q N. rewrite get_entity_removed.
    rewrite (proj2 (Position_eqb_neq p q)) by congruence.
    rewrite andb_false_r. reflexivity.
  - unfold removed, Grid.get_entity.
    destruct (Grid.in_bounds g p); reflexivity.
Qed.

Lemma remove_entity_then_get_entity_witness :
  exists g',
    Grid.remove_entity (Pos 1 1)
      (mkGrid 2 [7%nat; 8%nat] [((0, 0), 7%nat); ((1, 1), 8%nat)])
    = Return tt g' /\
    size g' = 2 /\
    Grid.get_entity g' (Pos 1 1) = None /\
    (forall q, q <> Pos 1 1 ->
       Grid.get_entity g' q =
       Grid.get_entity
         (mkGrid 2 [7%nat; 8%nat] [((0, 0), 7%nat); ((1, 1), 8%nat)]) q) /\
    entities g' = [7%nat].
Proof.
  apply (remove_entity_then_get_entity
           (mkGrid 2 [7%nat; 8%nat] [((0, 0), 7%nat); ((1, 1), 8%nat)])
           (Pos 1 1)).
  apply grid_inv_balanced. inspect_grid_inv.
Defined.

(** X4: at a position where [get_entity] finds nothing, be it empty or out
    of bounds, [remove_entity] and [move_entity] from there leave the grid
    exactly as it was, on any grid; at a position out of bounds so do
    [add_entity] and [move_entity] to there. *)
Theorem grid_operations_without_effect (g : Grid) (p : Position) :
  Grid.get_entity g p = None ->
  Grid.remove_entity p g = Return tt g /\
  (forall q, Grid.move_entity p q g = Return tt g) /\
  (Grid.in_bounds g p = false ->
   (forall e, Grid.add_entity p e g = Return tt g) /\
   (forall q, Grid.move_entity q p g = Return tt g)).
Proof.
  intros N. split; [|split].
  - unfold Grid.remove_entity.
    destruct (Grid.in_bounds g p) eqn:B; cbn [negb]; [|reflexivity].
    rewrite (get_entity_dict g p B) in N.
    unfold bind, Grid.pop_location, dict_pop. rewrite N.
    rewrite (without_absent _ _ N). destruct g; reflexivity.
  - intros q. unfold Grid.move_entity.
    destruct (Grid.in_bounds g p) eqn:B; cbn [negb orb]; [|reflexivity].
    destruct (Grid.in_bounds g q); cbn [negb]; [|reflexivity].
    rewrite (get_entity_dict g p B) in N.
    unfold bind, Grid.pop_location, dict_pop. rewrite N.
    rewrite (without_absent _ _ N). destruct g; reflexivity.
  - intros B. split.
    + intros e. unfold Grid.add_entity. rewrite B. reflexivity.
    + intros q. unfold Grid.move_entity. rewrite B.
      rewrite orb_true_r. reflexivity.
Qed.

Lemma grid_operations_without_effect_witness :
  Grid.remove_entity (Pos 0 5) (mkGrid 2 [7%nat] [((0, 0), 7%nat)])
  = Return tt (mkGrid 2 [7%nat] [((0, 0), 7%nat)]) /\
  (forall q, Grid.move_entity (Pos 0 5) q (mkGrid 2 [7%nat] [((0, 0), 7%nat)])
             = Return tt (mkGrid 2 [7%nat] [((0, 0), 7%nat)])) /\
  (forall e, Grid.add_entity (Pos 0 5) e (mkGrid 2 [7%nat] [((0, 0), 7%nat)])
             = Return tt (mkGrid 2 [7%nat] [((0, 0), 7%nat)])) /\
  (forall q, Grid.move_entity q (Pos 0 5) (mkGrid 2 [7%nat] [((0, 0), 7%nat)])
             = Return tt (mkGrid 2 [7%nat] [((0, 0), 7%nat)])).
Proof.
  destruct (grid_operations_without_effect
              (mkGrid 2 [7%nat] [((0, 0), 7%nat)]) (Pos 0 5) eq_refl)
    as (A & B & C).
  split; [exact A|]. split; [exact B|]. exact (C eq_refl).
Defined.

(** ** Grid: serialize and the player *)

(** X5: on a grid with all its positions in bounds, the dictionary that
    [serialize] returns has, under the coordinates of a position, the
    display tag of the entity that [get_entity] finds there, and nothing
    where it finds none. *)
Theorem serialize_shows_get_entity (h : heap) (g : Grid) (x y : Z) :
  keys_in_bounds g ->
  serialized_get (Grid.serialize h g) (x, y) =
  option_map (fun e => display (h e)) (Grid.get_entity g (Pos x y)).
Proof.
  intros K.
  assert (S : serialized_get (Grid.serialize h g) (x, y) =
              option_map (fun e => display (h e))
                         (dict_get (EntityLocations g) (x, y))).
  { unfold Grid.serialize. induction (EntityLocations g) as [|[k v] d IH];
      cbn [map serialized_get dict_get fst snd]; [reflexivity|].
    destruct (key_eqb (x, y) k); [reflexivity | exact IH]. }
  rewrite S. unfold Grid.get_entity.
  destruct (Grid.in_bounds g (Pos x y)) eqn:B; cbn [negb]; [reflexivity|].
  destruct (dict_get (EntityLocations g) (x, y)) as [e|] eqn:E; [|reflexivity].
  apply dict_get_In in E. apply (in_map fst) in E.
  apply K in E. cbn [fst snd] in E. congruence.
Qed.

Lemma serialize_shows_get_entity_witness :
  serialized_get
    (Grid.serialize example_heap
       (mkGrid 2 [1%nat; 0%nat] [((0, 0), 1%nat); ((1, 1), 0%nat)])) (1, 1)
  = option_map (fun e => display (example_heap e))
      (Grid.get_entity
         (mkGrid 2 [1%nat; 0%nat] [((0, 0), 1%nat); ((1, 1), 0%nat)])
         (Pos 1 1)).
Proof.
  apply serialize_shows_get_entity.
  intros k H. cbn in H. destruct H as [<-|[<-|[]]]; reflexivity.
Defined.

(** X6: on a grid that satisfies its invariant and has all its positions
    in bounds, [get_player] returns nothing exactly when no entity of the
    grid is a player, and otherwise a player of the grid, the one standing
    at the position that [find_player] returns. *)
Theorem get_player_returns_a_player (w : World) :
  grid_inv (grid w) -> keys_in_bounds (grid w) ->
  (get_player w = None <->
   forall e, In e (entities (grid w)) -> isinstance (store w e) Player = false) /\
  (forall v, get_player w = Some v ->
     In v (entities (grid w)) /\ isinstance (store w v) Player = true /\
     exists p, Grid.find_player (store w) (grid w) = Some p /\
               Grid.get_entity (grid w) p = Some v).
Proof.
  intros I K. unfold get_player, Grid.find_player.
  destruct (Grid.find_player_in (store w) (EntityLocations (grid w)))
    as [p|] eqn:F.
  - destruct (find_player_in_first _ _ _ F) as (d1 & v & d2 & Ed & Pv & _).
    assert (Hin : In (tuple_of p, v) (EntityLocations (grid w))).
    { rewrite Ed. apply in_elt. }
    assert (B : Grid.in_bounds (grid w) p = true).
    { pose proof (K (tuple_of p) (in_map fst _ _ Hin)) as B.
      destruct p; exact B. }
    assert (G : Grid.get_entity (grid w) p = Some v).
    { rewrite (get_entity_dict _ _ B). apply In_dict_get; [apply I | exact Hin]. }
    assert (Hv : In v (entities (grid w))).
    { apply (values_entities _ _ I). apply (in_map snd _ _ Hin). }
    rewrite G. split.
    + split; [discriminate|]. intros H. rewrite (H v Hv) in Pv. discriminate.
    + intros v' [= <-]. split; [exact Hv|]. split; [exact Pv|].
      exists p. split; [reflexivity | exact G].
  - split; [|discriminate]. split; [|reflexivity]. intros _ e He.
    rewrite find_player_in_None in F. apply F.
    apply (values_entities _ _ I), He.
Qed.

Lemma get_player_returns_a_player_witness :
  In 0%nat [1%nat; 0%nat] /\ isinstance (example_heap 0%nat) Player = true /\
  exists p,
    Grid.find_player example_heap
      (mkGrid 2 [1%nat; 0%nat] [((0, 0), 1%nat); ((1, 1), 0%nat)]) = Some p /\
    Grid.get_entity
      (mkGrid 2 [1%nat; 0%nat] [((0, 0), 1%nat); ((1, 1), 0%nat)]) p
    = Some 0%nat.
Proof.
  apply (proj2 (get_player_returns_a_player
                  (example_world
                     (mkGrid 2 [1%nat; 0%nat] [((0, 0), 1%nat); ((1, 1), 0%nat)]))
                  ltac:(inspect_grid_inv)
                  ltac:(intros k H; cbn in H;
                        destruct H as [<-|[<-|[]]]; reflexivity))
               0%nat eq_refl).
Defined.

(** ** Inventory *)

(** X7: an inventory contains a pickup identifier after [add_item] exactly
    when it contained it before or the item added displays as it. *)
Theorem contains_after_add_item (h : heap) (inv : Inventory) (item : ref)
    (pickup_id : string) :
  Inventory.contains h (Inventory.add_item item inv) pickup_id =
  Inventory.contains h inv pickup_id || String.eqb pickup_id (display (h item)).
Proof.
  unfold Inventory.contains, Inventory.add_item. cbn [items].
  induction (items inv) as [|x l IH]; cbn [app Inventory.contains_in].
  - destruct (String.eqb pickup_id (display (h item))); reflexivity.
  - destruct (String.eqb pickup_id (display (h x))); [reflexivity | exact IH].
Qed.

Lemma nth_error_skipn_In (l : list ref) (i : nat) (x : ref) :
  nth_error l i = Some x -> skipn i l = x :: skipn (S i) l.
Proof.
  revert i. induction l as [|y l IH]; intros [|i]; cbn; try discriminate.
  - intros [= ->]. reflexivity.
  - intros H. rewrite (IH i H). destruct l; reflexivity.
Qed.

Lemma NoDup_nth_error_later (l : list ref) (i : nat) (x : ref) :
  NoDup l -> nth_error l i = Some x -> ~ In x (skipn (S i) l).
Proof.
  intros ND. revert i. induction ND as [|y l Hn ND IH]; intros [|i];
    cbn [nth_error]; try discriminate.
  - intros [= ->]. exact Hn.
  - intros H. rewrite skipn_cons. apply IH, H.
Qed.

Lemma In_skipn (l : list ref) (i : nat) (r : ref) :
  In r (skipn i l) -> In r l.
Proof.
  intros H. rewrite <- (firstn_skipn i l). apply in_or_app. now right.
Qed.

Lemma hold_decrements (h : heap) (item : ref) (n : Z) :
  Pickup.get_lifetime (h item) = Some n ->
  exists o, Pickup.hold item h = Return tt (heap_set h item o) /\
            Pickup.get_lifetime o = Some (n - 1) /\
            class_of o = class_of (h item).
Proof.
  unfold Pickup.hold. destruct (h item); cbn; try discriminate;
    intros [= ->]; eexists; repeat split.
Qed.

Lemma heap_set_same (h : heap) (r : ref) (o : object) : heap_set h r o r = o.
Proof. unfold heap_set. rewrite Nat.eqb_refl. reflexivity. Qed.

Lemma heap_set_other (h : heap) (r r' : ref) (o : object) :
  r' <> r -> heap_set h r o r' = h r'.
Proof.
  intros N. unfold heap_set. destruct (Nat.eqb_spec r' r); [contradiction|].
  reflexivity.
Qed.

(** The loop on an inventory none of whose remaining items expires. *)
Lemma step_loop_no_expiry (l : list ref) (fuel : nat) :
  NoDup l ->
  forall (i : nat) (h : heap),
    lifetimes_above 1 h (skipn i l) ->
    (List.length l - i < fuel)%nat ->
    exists h',
      Inventory.step_loop fuel i (h, mkInventory l)
      = Return tt (h', mkInventory l) /\
      (forall item n, In item (skipn i l) ->
         Pickup.get_lifetime (h item) = Some n ->
         Pickup.get_lifetime (h' item) = Some (n - 1)) /\
      (forall r, ~ In r (skipn i l) -> h' r = h r) /\
      (forall r, class_of (h' r) = class_of (h r)).
Proof.
  intros ND. induction fuel as [|fuel IH]; intros i h P L; [lia|].
  cbn [Inventory.step_loop items].
  destruct (nth_error l i) as [item|] eqn:N.
  2:{ exists h. split; [reflexivity|]. split; [|split; reflexivity].
      intros item n Hin. apply nth_error_None in N.
      rewrite skipn_all2 in Hin by exact N. destruct Hin. }
  pose proof (nth_error_skipn_In _ _ _ N) as Sk.
  assert (Hlen : (i < List.length l)%nat).
  { apply nth_error_Some. congruence. }
  destruct (P item) as (n & Hn & Ln). { rewrite Sk. now left. }
  destruct (hold_decrements h item n Ln) as (o & Ho & Lo & Co).
  rewrite Ho, heap_set_same, Lo.
  destruct (Z.leb_spec (n - 1) 0) as [Hle|_]; [lia|].
  pose proof (NoDup_nth_error_later l i item ND N) as Later.
  destruct (IH (S i) (heap_set h item o)) as (h' & E & D & U & C).
  { intros x Hx. rewrite heap_set_other by (intros ->; contradiction).
    apply P. rewrite Sk. now right. }
  { lia. }
  exists h'. split; [exact E|]. split; [|split].
  - intros x m Hx Lx. rewrite Sk in Hx. destruct Hx as [<-|Hx].
    + rewrite (U item Later), heap_set_same. congruence.
    + apply D; [exact Hx|].
      rewrite heap_set_other by (intros ->; contradiction). exact Lx.
  - intros r Hr. rewrite Sk in Hr.
    rewrite U by (intros H; apply Hr; now right).
    apply heap_set_other. intros ->. apply Hr. now left.
  - intros r. rewrite C. unfold heap_set.
    destruct (Nat.eqb_spec r item) as [->|]; [exact Co | reflexivity].
Qed.

(** X8: on an inventory of distinct pickups that all have more than one
    step left, [Inventory.step] returns with the same items in the same
    order, every one of them with exactly one step less, and every other
    object untouched. *)
Theorem inventory_step_without_expiry (h : heap) (inv : Inventory) :
  NoDup (items inv) -> lifetimes_above 1 h (items inv) ->
  exists h',
    Inventory.step (h, inv) = Return tt (h', inv) /\
    (forall item n, In item (items inv) ->
       Pickup.get_lifetime (h item) = Some n ->
       Pickup.get_lifetime (h' item) = Some (n - 1)) /\
    (forall r, ~ In r (items inv) -> h' r = h r) /\
    (forall r, class_of (h' r) = class_of (h r)).
Proof.
  intros ND P. destruct inv as [l]. cbn [items] in *.
  unfold Inventory.step. cbn [snd items].
  apply (step_loop_no_expiry l (S (List.length l)) ND 0 h P). lia.
Qed.

Lemma inventory_step_without_expiry_witness :
  exists h',
    Inventory.step
      (fun r => match r with 1%nat => GarlicObj 10 | _ => CrossbowObj 5 end,
       mkInventory [1%nat; 2%nat])
    = Return tt (h', mkInventory [1%nat; 2%nat]) /\
    Pickup.get_lifetime (h' 1%nat) = Some 9 /\
    Pickup.get_lifetime (h' 2%nat) = Some 4.
Proof.
  destruct (inventory_step_without_expiry
              (fun r => match r with 1%nat => GarlicObj 10 | _ => CrossbowObj 5 end)
              (mkInventory [1%nat; 2%nat]))
    as (h' & E & D & _).
  - repeat constructor; cbn; intuition discriminate.
  - intros item H. cbn in H. destruct H as [<-|[<-|[]]]; eexists; split;
      try reflexivity; lia.
  - exists h'. split; [exact E|]. split.
    + apply (D 1%nat 10); [now left | reflexivity].
    + apply (D 2%nat 5); [right; now left | reflexivity].
Defined.

Lemma subseq_refl (l : list ref) : subseq l l.
Proof. induction l; constructor; assumption. Qed.

Lemma subseq_trans (l1 l2 l3 : list ref) :
  subseq l1 l2 -> subseq l2 l3 -> subseq l1 l3.
Proof.
  intros H12 H23. revert l1 H12.
  induction H23 as [|x l2 l3 H IH|x l2 l3 H IH]; intros l1 H12.
  - exact H12.
  - inversion H12; subst; constructor; auto.
  - constructor. auto.
Qed.

Lemma list_remove_NoDup (x : ref) (l l2 : list ref) :
  NoDup l -> list_remove x l = Some l2 ->
  NoDup l2 /\ ~ In x l2 /\ subseq l2 l /\
  (forall y, In y l -> y <> x -> In y l2).
Proof.
  intros ND. revert l2. induction ND as [|y l Hn ND IH]; intros l2;
    cbn [list_remove]; [discriminate|].
  destruct (Nat.eqb_spec x y) as [->|N].
  - intros [= <-]. split; [exact ND|]. split; [exact Hn|].
    split; [constructor; apply subseq_refl|].
    intros z [<-|Hz] Nz; [contradiction | exact Hz].
  - destruct (list_remove x l) as [l'|]; [|discriminate]. intros [= <-].
    destruct (IH l' eq_refl) as (ND' & Nx & Sub & Keep).
    split; [|split; [|split]].
    + constructor; [|exact ND']. intros H. apply Hn.
      clear - Sub H. induction Sub; cbn in *; intuition.
    + intros [H|H]; [congruence | contradiction].
    + constructor. exact Sub.
    + intros z [<-|Hz] Nz; [now left | right; apply Keep; assumption].
Qed.

Lemma list_remove_skipn (x : ref) (l : list ref) :
  NoDup l ->
  forall (i : nat) (l2 : list ref),
    nth_error l i = Some x -> list_remove x l = Some l2 ->
    forall r, In r (skipn (S i) l2) -> In r (skipn (S i) l).
Proof.
  intros ND. induction ND as [|y l Hn ND IH]; intros i l2;
    [destruct i; discriminate|].
  cbn [list_remove]. destruct (Nat.eqb_spec x y) as [->|N].
  - intros Hi [= <-] r Hr. destruct i as [|i].
    + rewrite skipn_cons, skipn_0. apply (In_skipn _ 1), Hr.
    + cbn [nth_error] in Hi. apply nth_error_In in Hi. contradiction.
  - destruct i as [|i]; cbn [nth_error]; [intros [= ->]; contradiction|].
    intros Hi. destruct (list_remove x l) as [l'|] eqn:E; [|discriminate].
    intros [= <-] r. rewrite !skipn_cons. apply (IH i l' Hi eq_refl).
Qed.

(** The loop on distinct pickups that all have steps left. *)
Lemma step_loop_positive (fuel : nat) :
  forall (i : nat) (h : heap) (l : list ref),
    NoDup l -> lifetimes_above 0 h l ->
    (List.length l - i < fuel)%nat ->
    exists h' l',
      Inventory.step_loop fuel i (h, mkInventory l)
      = Return tt (h', mkInventory l') /\
      subseq l' l /\
      lifetimes_above 0 h' l' /\
      (forall r, ~ In r (skipn i l) -> h' r = h r) /\
      (forall r n, Pickup.get_lifetime (h r) = Some n ->
         Pickup.get_lifetime (h' r) = Some n \/
         Pickup.get_lifetime (h' r) = Some (n - 1)) /\
      (forall x, In x l -> ~ In x l' -> Pickup.get_lifetime (h' x) = Some 0).
Proof.
  induction fuel as [|fuel IH]; intros i h l ND P L; [lia|].
  cbn [Inventory.step_loop items].
  destruct (nth_error l i) as [item|] eqn:N.
  2:{ exists h, l. split; [reflexivity|]. split; [apply subseq_refl|].
      split; [exact P|]. split; [reflexivity|]. split; [auto|].
      intros x Hx Nx. contradiction. }
  pose proof (nth_error_skipn_In _ _ _ N) as Sk.
  pose proof (nth_error_In _ _ N) as Hin.
  assert (Hlen : (i < List.length l)%nat).
  { apply nth_error_Some. congruence. }
  destruct (P item Hin) as (n & Hn & Ln).
  destruct (hold_decrements h item n Ln) as (o & Ho & Lo & Co).
  rewrite Ho, heap_set_same, Lo.
  pose proof (NoDup_nth_error_later l i item ND N) as Later.
  destruct (Z.leb_spec (n - 1) 0) as [Hle|Hgt].
  - destruct (list_remove_In item l Hin) as [l2 El]. rewrite El.
    destruct (list_remove_NoDup _ _ _ ND El) as (ND2 & Nx & Sub & Keep).
    destruct (list_remove_incl _ _ _ El) as [Inc Len].
    destruct (IH (S i) (heap_set h item o) l2 ND2) as (h' & l' & E & S' & P' & U & A & R).
    { intros x Hx. rewrite heap_set_other by (intros ->; contradiction).
      apply P, Inc, Hx. }
    { lia. }
    assert (Ui : h' item = o).
    { rewrite U by (intros H; apply Nx; eapply In_skipn; exact H).
      apply heap_set_same. }
    exists h', l'. split; [exact E|].
    split; [eapply subseq_trans; eassumption|]. split; [exact P'|].
    split; [|split].
    + intros r Hr. rewrite Sk in Hr.
      rewrite U.
      * apply heap_set_other. intros ->. apply Hr. now left.
      * intros H. apply Hr. right.
        apply (list_remove_skipn item l ND i l2 N El r H).
    + intros r m Lr. destruct (Nat.eqb_spec r item) as [->|Nr].
      * right. rewrite Ui. congruence.
      * apply A. rewrite heap_set_other by exact Nr. exact Lr.
    + intros x Hx Nx'. destruct (Nat.eqb_spec x item) as [->|Ne].
      * rewrite Ui, Lo. f_equal. lia.
      * apply R; [apply Keep; assumption | exact Nx'].
  - destruct (IH (S i) (heap_set h item o) l ND) as (h' & l' & E & S' & P' & U & A & R).
    { intros x Hx. destruct (Nat.eqb_spec x item) as [->|Ne].
      - rewrite heap_set_same. exists (n - 1). split; [lia | exact Lo].
      - rewrite heap_set_other by exact Ne. apply P, Hx. }
    { lia. }
    assert (Ui : h' item = o).
    { rewrite U by exact Later. apply heap_set_same. }
    exists h', l'. split; [exact E|]. split; [exact S'|]. split; [exact P'|].
    split; [|split; [|exact R]].
    + intros r Hr. rewrite Sk in Hr.
      rewrite U by (intros H; apply Hr; now right).
      apply heap_set_other. intros ->. apply Hr. now left.
    + intros r m Lr. destruct (Nat.eqb_spec r item) as [->|Nr].
      * right. rewrite Ui. congruence.
      * apply A. rewrite heap_set_other by exact Nr. exact Lr.
Qed.

(** X9: on an inventory of distinct pickups that all have steps left,
    [Inventory.step] returns; the items kept are items it had, in their
    order, and all have steps left; no lifetime has dropped by more than
    one; an item no longer held has none left; and no object outside the
    inventory has changed. *)
Theorem inventory_step_keeps_live_items (h : heap) (inv : Inventory) :
  NoDup (items inv) -> lifetimes_above 0 h (items inv) ->
  exists h' inv',
    Inventory.step (h, inv) = Return tt (h', inv') /\
    subseq (items inv') (items inv) /\
    lifetimes_above 0 h' (items inv') /\
    (forall r n, Pickup.get_lifetime (h r) = Some n ->
       Pickup.get_lifetime (h' r) = Some n \/
       Pickup.get_lifetime (h' r) = Some (n - 1)) /\
    (forall x, In x (items inv) -> ~ In x (items inv') ->
       Pickup.get_lifetime (h' x) = Some 0) /\
    (forall r, ~ In r (items inv) -> h' r = h r).
Proof.
  intros ND P. destruct inv as [l]. cbn [items] in *.
  unfold Inventory.step. cbn [snd items].
  destruct (step_loop_positive (S (List.length l)) 0 h l ND P)
    as (h' & l' & E & S & P' & U & A & R); [lia|].
  exists h', (mkInventory l'). cbn [items].
  split; [exact E|]. split; [exact S|]. split; [exact P'|].
  split; [exact A|]. split; [exact R | exact U].
Qed.

Lemma inventory_step_keeps_live_items_witness :
  exists h' inv',
    Inventory.step
      (fun r => match r with 1%nat => GarlicObj 1 | _ => CrossbowObj 5 end,
       mkInventory [1%nat; 2%nat])
    = Return tt (h', inv') /\
    subseq (items inv') [1%nat; 2%nat] /\
    lifetimes_above 0 h' (items inv').
Proof.
  destruct (inventory_step_keeps_live_items
              (fun r => match r with 1%nat => GarlicObj 1 | _ => CrossbowObj 5 end)
              (mkInventory [1%nat; 2%nat]))
    as (h' & inv' & E & S & P & _).
  - repeat constructor; cbn; intuition discriminate.
  - intros item H. cbn in H. destruct H as [<-|[<-|[]]]; eexists; split;
      try reflexivity; lia.
  - exists h', inv'. split; [exact E|]. split; [exact S | exact P].
Defined.

(** ** What a turn keeps *)

Lemma heap_frame_refl (h : heap) : heap_frame h h.
Proof. intros r. split; auto. Qed.

Lemma heap_frame_trans (h1 h2 h3 : heap) :
  heap_frame h1 h2 -> heap_frame h2 h3 -> heap_frame h1 h3.
Proof.
  intros A B r. destruct (A r) as [A1 A2], (B r) as [B1 B2].
  split; [congruence | auto].
Qed.

Lemma turn_frame_refl (w : World) : turn_frame w w.
Proof. repeat split; auto. Qed.

Lemma turn_frame_trans (w1 w2 w3 : World) :
  turn_frame w1 w2 -> turn_frame w2 w3 -> turn_frame w1 w3.
Proof.
  intros (A1 & A2 & A3 & A4) (B1 & B2 & B3 & B4).
  split; [congruence|]. split; [congruence|]. split; [congruence|].
  eapply heap_frame_trans; eassumption.
Qed.

Lemma heap_frame_set (h : heap) (r : ref) (o : object) :
  class_of o = class_of (h r) ->
  (VulnerablePlayer.is_infected (h r) = Some true ->
   VulnerablePlayer.is_infected o = Some true) ->
  heap_frame h (heap_set h r o).
Proof.
  intros C I x. unfold heap_set. destruct (Nat.eqb_spec x r) as [->|];
    [split; assumption | split; auto].
Qed.

Lemma call_infect_frame (player : option ref) (h h' : heap) :
  final (call_infect player h) = Some h' -> heap_frame h h'.
Proof.
  unfold call_infect, HoldingPlayer.infect, VulnerablePlayer.infect.
  destruct player as [r|]; [|intros [= <-]; apply heap_frame_refl].
  destruct (h r) as [ | | | | b | b inv | n | n ] eqn:E;
    cbn [class_of HoldingPlayer.get_inventory final];
    try (intros [= <-]; apply heap_frame_refl).
  - intros [= <-]. apply heap_frame_set; rewrite E; reflexivity.
  - destruct (Inventory.contains h inv GARLIC); cbn [final]; intros [= <-];
      [apply heap_frame_refl | apply heap_frame_set; rewrite E; reflexivity].
Qed.

Lemma hold_frame (item : ref) (h h' : heap) :
  final (Pickup.hold item h) = Some h' ->
  forall r, class_of (h' r) = class_of (h r) /\
            (isinstance (h r) Pickup = false -> h' r = h r).
Proof.
  unfold Pickup.hold. destruct (h item) eqn:E; cbn [final]; intros [= <-] r;
    try (split; reflexivity);
    unfold heap_set; (destruct (Nat.eqb_spec r item) as [->|];
      [rewrite E; split; [reflexivity | discriminate] | split; reflexivity]).
Qed.

Lemma step_loop_frame (fuel : nat) :
  forall (i : nat) (h : heap) (inv : Inventory) (h' : heap) (inv' : Inventory),
    final (Inventory.step_loop fuel i (h, inv)) = Some (h', inv') ->
    forall r, class_of (h' r) = class_of (h r) /\
              (isinstance (h r) Pickup = false -> h' r = h r).
Proof.
  induction fuel as [|fuel IH]; intros i h inv h' inv'; [discriminate|].
  cbn [Inventory.step_loop].
  destruct (nth_error (items inv) i) as [item|];
    [|intros [= <- <-] r; split; reflexivity].
  destruct (Pickup.hold item h) as [a h1|x h1|] eqn:Hold; [| |discriminate].
  - pose proof (hold_frame item h h1) as F. rewrite Hold in F.
    specialize (F eq_refl).
    assert (T : forall h2, (forall r, class_of (h2 r) = class_of (h1 r) /\
                              (isinstance (h1 r) Pickup = false -> h2 r = h1 r)) ->
                forall r, class_of (h2 r) = class_of (h r) /\
                          (isinstance (h r) Pickup = false -> h2 r = h r)).
    { intros h2 H2 r. destruct (F r) as [F1 F2], (H2 r) as [G1 G2]. split.
      - congruence.
      - intros P. rewrite G2, F2; auto. unfold isinstance. rewrite F1. exact P. }
    destruct (Pickup.get_lifetime (h1 item)) as [n|];
      [|intros [= <- <-]; exact F].
    destruct (n <=? 0).
    + destruct (list_remove item (items inv)) as [l|];
        [|intros [= <- <-]; exact F].
      intros H. apply T. eapply IH. exact H.
    + intros H. apply T. eapply IH. exact H.
  - intros [= <- <-]. pose proof (hold_frame item h h1) as F.
    rewrite Hold in F. exact (F eq_refl).
Qed.

Lemma holding_player_step_frame (self : ref) (h h' : heap) :
  final (HoldingPlayer.step self h) = Some h' -> heap_frame h h'.
Proof.
  unfold HoldingPlayer.step, Inventory.step.
  destruct (h self) as [ | | | | b | b inv | n | n ] eqn:E;
    try (intros [= <-]; apply heap_frame_refl).
  cbn [snd].
  destruct (Inventory.step_loop _ 0 (h, inv)) as [a [h1 i1]|x [h1 i1]|] eqn:St;
    cbn [final]; try discriminate; intros [= <-];
    (pose proof (step_loop_frame (S (List.length (items inv))) 0 h inv h1 i1)
       as F; rewrite St in F;
     specialize (F eq_refl); intros r; unfold heap_set;
     destruct (Nat.eqb_spec r self) as [->|];
     [ rewrite E; split; [reflexivity | intros H; exact H]
     | destruct (F r) as [F1 F2]; split; [exact F1|];
       intros I; rewrite F2; [exact I|];
       destruct (h r); cbn in I |- *; try discriminate; reflexivity ]).
Qed.

Lemma on_store_turn_frame {A} (c : M heap A) (w w' : World) :
  (forall h', final (c (store w)) = Some h' -> heap_frame (store w) h') ->
  final (on_store c w) = Some w' -> turn_frame w w'.
Proof.
  intros H. unfold on_store.
  destruct (c (store w)) as [a h1|x h1|]; cbn [final]; try discriminate;
    intros [= <-]; (repeat split; try reflexivity); apply H; reflexivity.
Qed.

Lemma try_offsets_turn_frame (w w' : World) (position : Position)
    (offsets : list Position) :
  final (try_offsets position offsets w) = Some w' -> turn_frame w w'.
Proof.
  destruct (first_open_candidate w position offsets)
    as [B|(pre & offset & post & E & B & Bd & [N|(e & He & P)])].
  - rewrite (try_offsets_blocked _ _ _ B). intros [= <-]. apply turn_frame_refl.
  - rewrite E, (try_offsets_skip _ _ _ _ B), (try_offsets_move _ _ _ _ Bd N).
    intros [= <-]. split; [apply entities_moved_into_empty, N|].
    split; [apply moved_size|]. split; [reflexivity | apply heap_frame_refl].
  - rewrite E, (try_offsets_skip _ _ _ _ B), (try_offsets_infect _ _ _ _ e He P).
    apply on_store_turn_frame. intros h'. apply call_infect_frame.
Qed.

Lemma call_step_turn_frame (w w' : World) (key : Position) (value : ref) :
  final (call_step key value w) = Some w' -> turn_frame w w'.
Proof.
  unfold call_step, bind, record_call, modify.
  set (w0 := mkWorld (game_class_of w) (grid w) (no_steps w) (store w)
                     (random_directions w) (draws w) (stdout w)
                     (calls w ++ [(key, value)])).
  assert (T0 : forall w1, turn_frame w0 w1 -> turn_frame w w1) by (intros w1 H; exact H).
  change (store w0) with (store w).
  destruct (store w value) as [ | | | | b | b inv | n | n ] eqn:E;
    cbn [class_of]; try (intros [= <-]; apply T0, turn_frame_refl).
  - unfold Zombie.step. intros H. apply T0.
    apply (try_offsets_turn_frame (set_draws (S (draws w0)) w0)) in H. exact H.
  - unfold TrackingZombie.step.
    destruct (Grid.find_player (store w0) (grid w0)).
    + intros H. apply T0. eapply try_offsets_turn_frame. exact H.
    + intros [= <-]. apply T0, turn_frame_refl.
  - intros H. apply T0. revert H. apply on_store_turn_frame.
    intros h'. apply holding_player_step_frame.
Qed.

Lemma for_each_turn_frame (l : list (Position * ref)) :
  forall w w',
    final (for_each l (fun kv => call_step (fst kv) (snd kv)) w) = Some w' ->
    turn_frame w w'.
Proof.
  induction l as [|[key value] l IH]; intros w w'.
  - intros [= <-]. apply turn_frame_refl.
  - cbn [for_each fst snd]. unfold bind.
    destruct (call_step key value w) as [a w1|x w1|] eqn:S; cbn [final];
      try discriminate.
    + intros H. apply (turn_frame_trans w w1 w'); [|apply IH, H].
      apply (call_step_turn_frame w w1 key value). rewrite S. reflexivity.
    + intros [= <-]. apply (call_step_turn_frame w w1 key value).
      rewrite S. reflexivity.
Qed.

Lemma game_step_turn_frame (w : World) :
  exists w', final (Game.step w) = Some w' /\ turn_frame w w'.
Proof.
  unfold Game.step, bind, modify, get.
  set (w0 := set_no_steps (no_steps w + 1) w).
  destruct (for_each_final (Grid.get_mapping (grid w0)) w0)
    as (w' & done & rest & _ & F & _).
  exists w'. split; [exact F|].
  apply (for_each_turn_frame _ w0 w' F).
Qed.

(** X10: in any world a turn, whether [Game.step] returns or an entity's
    step raises, ends with the ordered collection of the grid as it was
    and every object in its class: no entity is created, destroyed or
    replaced, so [has_won] answers after the turn what it answered
    before. *)
Theorem game_step_keeps_the_entities (w : World) :
  exists w',
    final (Game.step w) = Some w' /\
    entities (grid w') = entities (grid w) /\
    size (grid w') = size (grid w) /\
    (forall r, class_of (store w' r) = class_of (store w r)) /\
    Game.has_won w' = Game.has_won w.
Proof.
  destruct (game_step_turn_frame w) as (w' & F & En & Sz & _ & H).
  exists w'. split; [exact F|]. split; [exact En|]. split; [exact Sz|].
  split; [intros r; apply H|].
  unfold Game.has_won. rewrite En.
  assert (X : forall l,
            existsb (fun entity => class_eqb (class_of (store w' entity)) Hospital) l
            = existsb (fun entity => class_eqb (class_of (store w entity)) Hospital) l).
  { induction l as [|e l IH]; cbn [existsb]; [reflexivity|].
    rewrite IH. destruct (H e) as [-> _]. reflexivity. }
  rewrite X. reflexivity.
Qed.

(** X11: infection is never undone by a turn: a player infected before
    [Game.step] is infected in the state the turn ends in, returning or
    raising. *)
Theorem game_step_never_cures (w : World) :
  exists w',
    final (Game.step w) = Some w' /\
    forall r, VulnerablePlayer.is_infected (store w r) = Some true ->
              VulnerablePlayer.is_infected (store w' r) = Some true.
Proof.
  destruct (game_step_turn_frame w) as (w' & F & _ & _ & _ & H).
  exists w'. split; [exact F|]. intros r. apply H.
Qed.

(** ** Map loaders *)

Ltac token_cases token :=
  unfold call_create_entity, AdvancedMapLoader.create_entity,
    IntermediateMapLoader.create_entity, BasicMapLoader.create_entity,
    token_in, known_tokens; cbn [existsb In];
  destruct (String.eqb_spec token PLAYER) as [->|?];
  [|destruct (String.eqb_spec token HOSPITAL) as [->|?];
    [|destruct (String.eqb_spec token ZOMBIE) as [->|?];
      [|destruct (String.eqb_spec token TRACKING_ZOMBIE) as [->|?];
        [|destruct (String.eqb_spec token GARLIC) as [->|?];
          [|destruct (String.eqb_spec token CROSSBOW) as [->|?]]]]]].

Lemma create_entity_facts (self : loader) (token : string) :
  (call_create_entity self token = None <-> ~ In token (known_tokens self)) /\
  (forall o, call_create_entity self token = Some o ->
     display o = token /\
     (token = PLAYER -> class_of o = player_class self) /\
     (forall n, Pickup.get_lifetime o = Some n -> get_durability o = Some n)).
Proof.
  destruct self; token_cases token; cbn;
    (split;
     [ split;
       [ first [discriminate | intros _; intuition congruence]
       | intros H; first [reflexivity | exfalso; apply H; tauto] ]
     | intros o E;
       first [ discriminate
             | injection E as <-; cbn; split; [reflexivity|]; split;
               [ intros P; first [reflexivity | discriminate]
               | intros m L;
                 first [discriminate | injection L as <-; reflexivity] ] ] ]).
Qed.

(** X12: each loader creates an entity exactly for the tokens it knows
    ([P] and [H]; also [Z]; also [T], [G] and [C]) and raises for any
    other.  The entity created displays as the token it was created from;
    for [P] it is a player of the loader's kind; and a pickup starts with
    its durability as lifetime. *)
Theorem create_entity_round_trip (self : loader) (token : string) :
  (call_create_entity self token = None <-> ~ In token (known_tokens self)) /\
  (forall o, call_create_entity self token = Some o ->
     display o = token /\
     (token = PLAYER -> class_of o = player_class self) /\
     (forall n, Pickup.get_lifetime o = Some n -> get_durability o = Some n)).
Proof. apply create_entity_facts. Qed.

Lemma create_entity_round_trip_witness :
  display (GarlicObj 10) = GARLIC /\
  (GARLIC = PLAYER -> class_of (GarlicObj 10) = player_class AdvancedLoader) /\
  (forall n, Pickup.get_lifetime (GarlicObj 10) = Some n ->
             get_durability (GarlicObj 10) = Some n).
Proof.
  exact (proj2 (create_entity_round_trip AdvancedLoader GARLIC)
               (GarlicObj 10) eq_refl).
Defined.

Lemma serialize_agree (h h' : heap) (g : Grid) :
  (forall e, In e (values (EntityLocations g)) -> h' e = h e) ->
  Grid.serialize h' g = Grid.serialize h g.
Proof.
  unfold Grid.serialize, values. intros H. apply map_ext_in.
  intros kv Hkv. rewrite H; [reflexivity|]. apply in_map, Hkv.
Qed.

Lemma key_in_bounds_grid (g : Grid) (k : key) :
  Grid.in_bounds g (Pos (fst k) (snd k)) = key_in_bounds (size g) k.
Proof. unfold key_in_bounds. apply in_bounds_size. reflexivity. Qed.

Lemma load_loop (self : loader) (sz : Z) (m : list (key * string)) :
  forall s,
    NoDup (map fst m) ->
    (forall kv, In kv m -> In (snd kv) (known_tokens self)) ->
    (forall kv, In kv m ->
       dict_get (EntityLocations (loading_grid s)) (fst kv) = None) ->
    grid_inv (loading_grid s) -> keys_in_bounds (loading_grid s) ->
    size (loading_grid s) = sz ->
    (forall e, In e (entities (loading_grid s)) -> (e < next_ref s)%nat) ->
    exists s',
      for_each m (MapLoader.load_item self) s = Return tt s' /\
      grid_inv (loading_grid s') /\ keys_in_bounds (loading_grid s') /\
      size (loading_grid s') = sz /\
      (forall e, In e (entities (loading_grid s')) -> (e < next_ref s')%nat) /\
      (next_ref s <= next_ref s')%nat /\
      (forall r, (r < next_ref s)%nat -> loading_store s' r = loading_store s r) /\
      Grid.serialize (loading_store s') (loading_grid s') =
      Grid.serialize (loading_store s) (loading_grid s)
      ++ filter (fun kv => key_in_bounds sz (fst kv)) m.
Proof.
  induction m as [|[k token] m IH]; intros s ND Kn Fr I K Sz Bd.
  - exists s. cbn [for_each filter]. rewrite app_nil_r.
    split; [reflexivity|]. split; [exact I|]. split; [exact K|].
    split; [exact Sz|]. split; [exact Bd|]. split; [lia|]. split; reflexivity.
  - cbn [map fst] in ND. apply NoDup_cons_iff in ND. destruct ND as [Nk ND'].
    cbn [for_each]. unfold bind at 1. unfold MapLoader.load_item. cbn [fst snd].
    destruct (call_create_entity self token) as [o|] eqn:Cr.
    2:{ exfalso. apply (proj1 (create_entity_facts self token)) in Cr.
        apply Cr. apply (Kn (k, token)). now left. }
    destruct (proj2 (create_entity_facts self token) o Cr) as [Dis _].
    unfold bind, new_object, on_loading_grid.
    cbn [loading_store next_ref loading_grid].
    rewrite (add_entity_added _ _ _ I).
    set (g := loading_grid s) in *. set (n := next_ref s) in *.
    set (h1 := heap_set (loading_store s) n o).
    assert (Fk : dict_get (EntityLocations g) k = None).
    { apply (Fr (k, token)). now left. }
    assert (Nn : ~ In n (values (EntityLocations g))).
    { intros H. apply (values_entities _ _ I), Bd in H. lia. }
    assert (Ag : Grid.serialize h1 g = Grid.serialize (loading_store s) g).
    { apply serialize_agree. intros e He. apply heap_set_other.
      intros ->. contradiction. }
    set (p := Pos (fst k) (snd k)).
    assert (Tp : tuple_of p = k) by (destruct k; reflexivity).
    assert (Ad : added p n g =
                 if key_in_bounds sz k
                 then mkGrid (size g) (entities g ++ [n])
                             (EntityLocations g ++ [(k, n)])
                 else g).
    { unfold added, removed. unfold p. rewrite key_in_bounds_grid, Sz.
      fold p. destruct (key_in_bounds sz k); [|reflexivity].
      cbn [size entities EntityLocations]. rewrite Tp, Fk.
      rewrite (without_absent _ _ Fk), (dict_update_absent _ _ _ Fk).
      reflexivity. }
    destruct (IH (mkLoading h1 (S n) (added p n g))) as
      (s' & E & I' & K' & Sz' & Bd' & Le & Ag' & Ser); try exact ND'.
    + intros kv Hkv. apply Kn. now right.
    + intros kv Hkv. cbn [loading_grid]. rewrite Ad.
      assert (Fkv : dict_get (EntityLocations g) (fst kv) = None).
      { apply Fr. now right. }
      destruct (key_in_bounds sz k); [|exact Fkv].
      cbn [EntityLocations]. rewrite <- (dict_update_absent _ _ _ Fk).
      rewrite dict_get_update.
      destruct (key_eqb k (fst kv)) eqn:Q; [|exact Fkv].
      apply key_eqb_eq in Q. exfalso. apply Nk. rewrite Q.
      apply in_map, Hkv.
    + cbn [loading_grid]. apply added_inv; [exact I|].
      intros k' Hk'. exfalso. apply Nn. apply (in_map snd _ _ Hk').
    + cbn [loading_grid]. rewrite Ad.
      destruct (key_in_bounds sz k) eqn:Bk; [|exact K].
      intros k' Hk'. unfold keys in Hk'. cbn [EntityLocations] in Hk'.
      rewrite map_app in Hk'. apply in_app_or in Hk'.
      change (Grid.in_bounds (mkGrid (size g) _ _) (Pos (fst k') (snd k')))
        with (Grid.in_bounds g (Pos (fst k') (snd k'))).
      destruct Hk' as [Hk'|[<-|[]]]; [apply K, Hk'|].
      cbn [fst]. rewrite key_in_bounds_grid, Sz. exact Bk.
    + cbn [loading_grid]. unfold added.
      destruct (Grid.in_bounds g p); [|exact Sz].
      cbn [size]. rewrite removed_size. exact Sz.
    + cbn [loading_grid next_ref]. rewrite Ad. intros e He.
      destruct (key_in_bounds sz k).
      * cbn [entities] in He. apply in_app_or in He.
        destruct He as [He|[<-|[]]]; [apply Bd in He|]; lia.
      * apply Bd in He. lia.
    + exists s'. split; [exact E|]. split; [exact I'|]. split; [exact K'|].
      split; [exact Sz'|]. split; [exact Bd'|].
      cbn [next_ref loading_store loading_grid] in *.
      split; [lia|]. split.
      * intros r Hr. rewrite Ag' by lia. apply heap_set_other. lia.
      * rewrite Ser, Ad. cbn [filter fst].
        destruct (key_in_bounds sz k).
        -- unfold Grid.serialize at 1. cbn [EntityLocations].
           rewrite map_app. cbn [map fst snd].
           fold (Grid.serialize h1 g). rewrite Ag.
           unfold h1. rewrite heap_set_same, Dis, <- app_assoc. reflexivity.
        -- rewrite Ag. reflexivity.
Qed.

(** X13: [load], given a map whose tokens the loader knows, returns a grid
    of the size of the map that satisfies the invariant of the grid, has
    all its positions in bounds, and serializes back to the map: the
    entries of the map that are in bounds, in their order, each with its
    token.  Objects that existed before are untouched. *)
Theorem load_serialize_round_trip (self : loader) (m : list (key * string))
    (sz : Z) (h : heap) (n : ref) :
  NoDup (map fst m) ->
  (forall kv, In kv m -> In (snd kv) (known_tokens self)) ->
  exists s,
    MapLoader.load self (m, sz) h n = Return tt s /\
    grid_inv (loading_grid s) /\ keys_in_bounds (loading_grid s) /\
    size (loading_grid s) = sz /\
    Grid.serialize (loading_store s) (loading_grid s)
    = filter (fun kv => key_in_bounds sz (fst kv)) m /\
    (forall r, (r < n)%nat -> loading_store s r = h r).
Proof.
  intros ND Kn. unfold MapLoader.load. cbn [fst snd].
  destruct (load_loop self sz m (mkLoading h n (Grid.init sz)) ND Kn)
    as (s & E & I & K & Sz & _ & _ & Ag & Ser).
  - intros kv _. reflexivity.
  - split; [constructor|]. split; intros e [].
  - intros k [].
  - reflexivity.
  - intros e [].
  - exists s. split; [exact E|]. split; [exact I|]. split; [exact K|].
    split; [exact Sz|]. split; [exact Ser | exact Ag].
Qed.

Lemma load_serialize_round_trip_witness :
  exists s,
    MapLoader.load AdvancedLoader
      ([((0, 0), PLAYER); ((1, 1), HOSPITAL); ((5, 0), ZOMBIE)], 2)
      example_heap 0%nat
    = Return tt s /\
    grid_inv (loading_grid s) /\ keys_in_bounds (loading_grid s) /\
    size (loading_grid s) = 2 /\
    Grid.serialize (loading_store s) (loading_grid s)
    = [((0, 0), PLAYER); ((1, 1), HOSPITAL)] /\
    (forall r, (r < 0)%nat -> loading_store s r = example_heap r).
Proof.
  apply (load_serialize_round_trip AdvancedLoader
           [((0, 0), PLAYER); ((1, 1), HOSPITAL); ((5, 0), ZOMBIE)] 2
           example_heap 0%nat).
  - repeat constructor; cbn; intuition congruence.
  - intros kv H. cbn in H. destruct H as [<-|[<-|[<-|[]]]]; cbn; tauto.
Defined.

Lemma for_each_app {S A} (l1 l2 : list A) (body : A -> M S unit) (s : S) :
  for_each (l1 ++ l2) body s =
  match for_each l1 body s with
  | Return _ s1 => for_each l2 body s1
  | Raise e s1 => Raise e s1
  | OutOfFuel => OutOfFuel
  end.
Proof.
  revert s. induction l1 as [|a l1 IH]; intros s; cbn [app for_each].
  - reflexivity.
  - unfold bind. destruct (body a s) as [u s1|e s1|]; [apply IH | reflexivity..].
Qed.

(** X14: [load] stops at the first token that the loader does not know:
    it raises [ValueError], with the entries before that token loaded and
    none after it. *)
Theorem load_raises_on_unknown_token (self : loader)
    (pre post : list (key * string)) (k : key) (token : string)
    (sz : Z) (h : heap) (n : ref) :
  NoDup (map fst pre) ->
  (forall kv, In kv pre -> In (snd kv) (known_tokens self)) ->
  ~ In token (known_tokens self) ->
  exists s,
    MapLoader.load self (pre ++ (k, token) :: post, sz) h n
    = Raise ValueError s /\
    Grid.serialize (loading_store s) (loading_grid s)
    = filter (fun kv => key_in_bounds sz (fst kv)) pre.
Proof.
  intros ND Kn Un. unfold MapLoader.load. cbn [fst snd].
  rewrite for_each_app.
  destruct (load_loop self sz pre (mkLoading h n (Grid.init sz)) ND Kn)
    as (s & E & _ & _ & _ & _ & _ & _ & Ser).
  - intros kv _. reflexivity.
  - split; [constructor|]. split; intros e [].
  - intros k' [].
  - reflexivity.
  - intros e [].
  - rewrite E. cbn [for_each]. unfold bind, MapLoader.load_item. cbn [snd].
    rewrite (proj2 (proj1 (create_entity_facts self token)) Un).
    exists s. split; [reflexivity | exact Ser].
Qed.

Lemma load_raises_on_unknown_token_witness :
  exists s,
    MapLoader.load BasicLoader
      ([((0, 0), PLAYER)] ++ ((1, 1), ZOMBIE) :: [((0, 1), HOSPITAL)], 2)
      example_heap 0%nat
    = Raise ValueError s /\
    Grid.serialize (loading_store s) (loading_grid s) = [((0, 0), PLAYER)].
Proof.
  apply (load_raises_on_unknown_token BasicLoader
           [((0, 0), PLAYER)] [((0, 1), HOSPITAL)] (1, 1) ZOMBIE 2
           example_heap 0%nat).
  - repeat constructor; cbn; intuition congruence.
  - intros kv H. cbn in H. destruct H as [<-|[]]; cbn; tauto.
  - cbn. intuition discriminate.
Defined.

(** ** Moving the player *)

Lemma get_player_position (w : World) (e : ref) :
  grid_inv (grid w) -> keys_in_bounds (grid w) ->
  In e (entities (grid w)) -> isinstance (store w e) Player = true ->
  exists p v,
    Grid.find_player (store w) (grid w) = Some p /\
    get_player w = Some v /\
    Grid.get_entity (grid w) p = Some v /\
    In v (entities (grid w)) /\ isinstance (store w v) Player = true.
Proof.
  intros I K He Pe. unfold get_player, Grid.find_player.
  destruct (Grid.find_player_in (store w) (EntityLocations (grid w)))
    as [p|] eqn:F.
  - destruct (find_player_in_first _ _ _ F) as (d1 & v & d2 & Ed & Pv & _).
    assert (Hin : In (tuple_of p, v) (EntityLocations (grid w))).
    { rewrite Ed. apply in_elt. }
    assert (B : Grid.in_bounds (grid w) p = true).
    { pose proof (K (tuple_of p) (in_map fst _ _ Hin)) as B.
      destruct p; exact B. }
    assert (G : Grid.get_entity (grid w) p = Some v).
    { rewrite (get_entity_dict _ _ B). apply In_dict_get; [apply I | exact Hin]. }
    exists p, v. rewrite G. repeat split; try assumption.
    apply (values_entities _ _ I). apply (in_map snd _ _ Hin).
  - exfalso. rewrite find_player_in_None in F.
    rewrite (F e) in Pe; [discriminate|]. apply (values_entities _ _ I), He.
Qed.

Lemma find_player_only (w : World) (p : Position) (v : ref) :
  grid_inv (grid w) -> only_player w v ->
  Grid.get_entity (grid w) p = Some v ->
  isinstance (store w v) Player = true ->
  Grid.find_player (store w) (grid w) = Some p.
Proof.
  intros I U G Pv. destruct (get_entity_in_bounds _ _ _ G) as [_ Ev].
  unfold Grid.find_player.
  destruct (Grid.find_player_in (store w) (EntityLocations (grid w)))
    as [p'|] eqn:F.
  - destruct (find_player_in_first _ _ _ F) as (d1 & v' & d2 & Ed & Pv' & _).
    assert (Hin : In (tuple_of p', v') (EntityLocations (grid w))).
    { rewrite Ed. apply in_elt. }
    assert (v' = v).
    { apply U; [|exact Pv'].
      apply (values_entities _ _ I). apply (in_map snd _ _ Hin). }
    subst v'. f_equal. apply tuple_of_inj.
    apply (occupants_distinct (grid w) _ _ v I); [|exact Ev].
    apply In_dict_get; [apply I | exact Hin].
  - exfalso. rewrite find_player_in_None in F.
    rewrite (F v) in Pv; [discriminate|].
    apply dict_get_In in Ev. apply (in_map snd _ _ Ev).
Qed.

Lemma drop_incl (e : option ref) (l : list ref) : incl (drop e l) l.
Proof.
  unfold drop. destruct e as [r|]; [|apply incl_refl].
  destruct (list_remove r l) as [l'|] eqn:E; [|apply incl_refl].
  apply (list_remove_incl _ _ _ E).
Qed.

Lemma entities_moved_incl (g : Grid) (s e : Position) :
  incl (entities (moved s e g)) (entities g).
Proof.
  unfold moved. destruct (_ && _); [|apply incl_refl].
  destruct (dict_get _ _); [|apply incl_refl].
  cbn [entities]. unfold removed.
  destruct (Grid.in_bounds _ e); [|apply incl_refl].
  cbn [entities]. apply drop_incl.
Qed.

Lemma moved_out_of_bounds (g : Grid) (s e : Position) :
  Grid.in_bounds g e = false -> moved s e g = g.
Proof. intros B. unfold moved. rewrite B, andb_false_r. reflexivity. Qed.

Lemma set_grid_same (w : World) : set_grid (grid w) w = w.
Proof. destruct w; reflexivity. Qed.

Lemma mover_stays (g : Grid) (s e : Position) (v : ref) :
  grid_inv g -> Grid.get_entity g s = Some v -> In v (entities (moved s e g)).
Proof.
  intros I G. destruct (get_entity_in_bounds _ _ _ G) as [Bs Ev].
  destruct (Grid.in_bounds g e) eqn:Be.
  - apply (occupant_in_entities _ (tuple_of e)); [apply moved_inv, I|].
    apply get_entity_in_bounds.
    rewrite (get_entity_moved g s e e v Bs Be Ev), Position_eqb_refl.
    reflexivity.
  - rewrite (moved_out_of_bounds _ _ _ Be).
    apply (occupant_in_entities _ _ _ I Ev).
Qed.

Lemma NoDup_entities (g : Grid) : grid_inv g -> NoDup (entities g).
Proof.
  intros I. apply grid_inv_counts in I. destruct I as [_ C].
  apply (NoDup_count_occ Nat.eq_dec). intros x. apply (C x).
Qed.

(** X15: in a grid that satisfies its invariant and whose only player
    stands at [p], [Game.move_player] returns.  When [p + offset] is out
    of bounds nothing changes.  Otherwise the player stands at
    [p + offset], where [find_player] then finds it; the cell left is
    empty; every other cell is as before; whatever stood at the
    destination is gone from the ordered collection; and the grid still
    satisfies its invariant. *)
Theorem move_player_moves_the_player (w : World) (offset p : Position)
    (v : ref) :
  grid_inv (grid w) -> only_player w v ->
  Grid.get_entity (grid w) p = Some v ->
  isinstance (store w v) Player = true ->
  (Grid.in_bounds (grid w) (Position.add p offset) = false ->
   Game.move_player offset w = Return tt w) /\
  (Grid.in_bounds (grid w) (Position.add p offset) = true ->
   exists w',
     Game.move_player offset w = Return tt w' /\
     store w' = store w /\ grid_inv (grid w') /\
     Grid.get_entity (grid w') (Position.add p offset) = Some v /\
     Grid.find_player (store w') (grid w') = Some (Position.add p offset) /\
     (Position.add p offset <> p -> Grid.get_entity (grid w') p = None) /\
     (forall q, q <> p -> q <> Position.add p offset ->
        Grid.get_entity (grid w') q = Grid.get_entity (grid w) q) /\
     entities (grid w') =
     if Position.eqb p (Position.add p offset) then entities (grid w)
     else drop (Grid.get_entity (grid w) (Position.add p offset))
               (entities (grid w))).
Proof.
  intros I U G Pv. destruct (get_entity_in_bounds _ _ _ G) as [Bp Ev].
  unfold Game.move_player. rewrite (find_player_only w p v I U G Pv).
  unfold on_grid. rewrite (move_entity_moved _ _ _ I). split.
  - intros B. rewrite (moved_out_of_bounds _ _ _ B), set_grid_same. reflexivity.
  - intros B. set (dest := Position.add p offset) in *.
    eexists. split; [reflexivity|]. cbn [store grid set_grid].
    pose proof (moved_inv (grid w) p dest I) as I'.
    assert (Gd : Grid.get_entity (moved p dest (grid w)) dest = Some v).
    { rewrite (get_entity_moved _ _ _ _ _ Bp B Ev), Position_eqb_refl.
      reflexivity. }
    split; [reflexivity|]. split; [exact I'|]. split; [exact Gd|].
    split; [|split; [|split]].
    + apply (find_player_only (set_grid (moved p dest (grid w)) w) dest v);
        cbn [store grid set_grid]; try assumption.
      intros e He. apply U. apply (entities_moved_incl _ _ _ _ He).
    + intros N. rewrite (get_entity_moved _ _ _ _ _ Bp B Ev).
      rewrite (proj2 (Position_eqb_neq dest p) N), Position_eqb_refl.
      reflexivity.
    + intros q N1 N2. rewrite (get_entity_moved _ _ _ _ _ Bp B Ev).
      rewrite (proj2 (Position_eqb_neq dest q)) by congruence.
      rewrite (proj2 (Position_eqb_neq p q)) by congruence. reflexivity.
    + rewrite (entities_moved _ _ _ _ Bp B Ev), (get_entity_dict _ _ B).
      reflexivity.
Qed.

Lemma move_player_moves_the_player_witness :
  exists w',
    Game.move_player (Pos 1 0)
      (example_world (mkGrid 2 [0%nat; 9%nat] [((0, 0), 0%nat); ((1, 0), 9%nat)]))
    = Return tt w' /\
    Grid.get_entity (grid w') (Pos 1 0) = Some 0%nat /\
    Grid.find_player (store w') (grid w') = Some (Pos 1 0) /\
    entities (grid w') = [0%nat].
Proof.
  destruct (proj2 (move_player_moves_the_player
              (example_world
                 (mkGrid 2 [0%nat; 9%nat] [((0, 0), 0%nat); ((1, 0), 9%nat)]))
              (Pos 1 0) (Pos 0 0) 0%nat
              ltac:(inspect_grid_inv)
              ltac:(intros e H; cbn in H;
                    destruct H as [<-|[<-|[]]]; cbn; congruence)
              eq_refl eq_refl) eq_refl)
    as (w' & E & _ & _ & G & F & _ & _ & En).
  exists w'. split; [exact E|]. split; [exact G|]. split; [exact F | exact En].
Defined.

Lemma advanced_move_player_plain (w : World) (offset p : Position) :
  Grid.find_player (store w) (grid w) = Some p ->
  (forall item, Grid.get_entity (grid w) (Position.add p offset) = Some item ->
                isinstance (store w item) Pickup = false) ->
  AdvancedGame.move_player offset w = Game.move_player offset w.
Proof.
  intros F N. unfold AdvancedGame.move_player, Game.move_player. rewrite F.
  unfold bind.
  destruct (Grid.get_entity (grid w) (Position.add p offset)) as [item|];
    [rewrite (N item eq_refl)|]; reflexivity.
Qed.

(** X16: when the only player steps onto the cell of the only hospital,
    the game, which was not won, is won: the move returns (in a game of
    any of the three classes) and [has_won] is then true. *)
Theorem stepping_onto_the_hospital_wins (w : World) (offset p : Position)
    (v x : ref) :
  grid_inv (grid w) -> only_player w v ->
  Grid.get_entity (grid w) p = Some v ->
  isinstance (store w v) Player = true ->
  Grid.get_entity (grid w) (Position.add p offset) = Some x ->
  class_of (store w x) = Hospital -> only_hospital w x ->
  Game.has_won w = false /\
  exists w', call_move_player offset w = Return tt w' /\
             Game.has_won w' = true.
Proof.
  intros I U G Pv Gx Cx Ux.
  destruct (get_entity_in_bounds _ _ _ G) as [Bp Ev].
  destruct (get_entity_in_bounds _ _ _ Gx) as [Bd Ex].
  pose proof (occupant_in_entities _ _ _ I Ex) as Hx.
  split.
  - unfold Game.has_won. apply negb_false_iff, existsb_exists.
    exists x. split; [exact Hx|]. rewrite Cx. reflexivity.
  - assert (F := find_player_only w p v I U G Pv).
    assert (M : call_move_player offset w = Game.move_player offset w).
    { unfold call_move_player. destruct (game_class_of w); try reflexivity.
      apply (advanced_move_player_plain w offset p F).
      intros item Gi. assert (item = x) by congruence. subst item.
      unfold isinstance. rewrite Cx. reflexivity. }
    rewrite M. unfold Game.move_player. rewrite F. unfold on_grid.
    rewrite (move_entity_moved _ _ _ I). eexists. split; [reflexivity|].
    unfold Game.has_won. cbn [store grid set_grid].
    rewrite (entities_moved _ _ _ _ Bp Bd Ev), Ex.
    assert (Npd : Position.eqb p (Position.add p offset) = false).
    { apply Position_eqb_neq. intros Q. rewrite <- Q in Gx.
      assert (v = x) by congruence. subst x.
      unfold isinstance in Pv. rewrite Cx in Pv. discriminate. }
    rewrite Npd. cbn [drop].
    destruct (list_remove_In x _ Hx) as [l' El]. rewrite El.
    destruct (list_remove_NoDup _ _ _ (NoDup_entities _ I) El)
      as (_ & Nx & _ & _).
    destruct (list_remove_incl _ _ _ El) as [Inc _].
    apply negb_true_iff.
    destruct (existsb _ l') eqn:Ex'; [|reflexivity].
    apply existsb_exists in Ex'. destruct Ex' as (e & He & Ce).
    exfalso. apply Nx. rewrite <- (Ux e); [exact He | apply Inc, He|].
    destruct (class_of (store w e)); cbn in Ce; congruence.
Qed.

Lemma stepping_onto_the_hospital_wins_witness :
  Game.has_won
    (example_world (mkGrid 2 [0%nat; 9%nat] [((0, 0), 0%nat); ((1, 0), 9%nat)]))
  = false /\
  exists w',
    call_move_player (Pos 1 0)
      (example_world (mkGrid 2 [0%nat; 9%nat] [((0, 0), 0%nat); ((1, 0), 9%nat)]))
    = Return tt w' /\
    Game.has_won w' = true.
Proof.
  apply (stepping_onto_the_hospital_wins
           (example_world
              (mkGrid 2 [0%nat; 9%nat] [((0, 0), 0%nat); ((1, 0), 9%nat)]))
           (Pos 1 0) (Pos 0 0) 0%nat 9%nat).
  - inspect_grid_inv.
  - intros e H. cbn in H. destruct H as [<-|[<-|[]]]; cbn; congruence.
  - reflexivity.
  - reflexivity.
  - reflexivity.
  - reflexivity.
  - intros e H. cbn in H. destruct H as [<-|[<-|[]]]; cbn; congruence.
Defined.

Lemma get_player_only (w : World) (p : Position) (v : ref) :
  grid_inv (grid w) -> only_player w v ->
  Grid.get_entity (grid w) p = Some v ->
  isinstance (store w v) Player = true ->
  get_player w = Some v.
Proof.
  intros I U G Pv. unfold get_player.
  rewrite (find_player_only w p v I U G Pv). exact G.
Qed.

(** X17: when the only player of an advanced game, standing at [p], moves
    onto a cell that holds a pickup: if the player is a holding player the
    move returns, the pickup is the last item of the player's inventory,
    no other object has changed, the player stands on the cell and has
    left [p], and the pickup is no longer in the grid; if the player has no
    inventory the move raises, with nothing changed. *)
Theorem advanced_move_player_picks_up (w : World) (offset p : Position)
    (v item : ref) :
  grid_inv (grid w) -> only_player w v ->
  Grid.get_entity (grid w) p = Some v ->
  isinstance (store w v) Player = true ->
  Grid.get_entity (grid w) (Position.add p offset) = Some item ->
  isinstance (store w item) Pickup = true ->
  (forall b inv, store w v = HoldingPlayerObj b inv ->
     exists w',
       AdvancedGame.move_player offset w = Return tt w' /\
       store w' v = HoldingPlayerObj b (Inventory.add_item item inv) /\
       (forall r, r <> v -> store w' r = store w r) /\
       grid_inv (grid w') /\
       Grid.get_entity (grid w') (Position.add p offset) = Some v /\
       Grid.get_entity (grid w') p = None /\
       ~ In item (entities (grid w')) /\
       (forall q, Grid.get_entity (grid w') q <> Some item)) /\
  (class_of (store w v) <> HoldingPlayer ->
   AdvancedGame.move_player offset w = Raise AttributeError w).
Proof.
  intros I U G Pv Gi Pi.
  destruct (get_entity_in_bounds _ _ _ G) as [Bp Ev].
  destruct (get_entity_in_bounds _ _ _ Gi) as [Bd Ei].
  pose proof (find_player_only w p v I U G Pv) as F.
  pose proof (get_player_only w p v I U G Pv) as GP.
  unfold AdvancedGame.move_player. rewrite F, Gi, Pi.
  unfold bind, AdvancedGame.pick_up. rewrite GP. split.
  - intros b inv E. rewrite E. unfold on_grid. cbn [grid set_store].
    rewrite (move_entity_moved _ _ _ I). eexists. split; [reflexivity|].
    cbn [store grid set_grid set_store].
    set (dest := Position.add p offset) in *.
    pose proof (moved_inv (grid w) p dest I) as I'.
    assert (Npd : p <> dest).
    { intros Q. rewrite <- Q in Gi. assert (v = item) by congruence. subst item.
      destruct (store w v); cbn in Pv, Pi; discriminate. }
    assert (NI : ~ In item (entities (moved p dest (grid w)))).
    { rewrite (entities_moved _ _ _ _ Bp Bd Ev), Ei.
      rewrite (proj2 (Position_eqb_neq p dest) Npd). cbn [drop].
      destruct (list_remove_In item _ (occupant_in_entities _ _ _ I Ei))
        as [l' El].
      rewrite El.
      apply (list_remove_NoDup _ _ _ (NoDup_entities _ I) El). }
    split; [apply heap_set_same|].
    split; [intros r Nr; apply heap_set_other, Nr|].
    split; [exact I'|]. split; [|split; [|split; [exact NI|]]].
    + rewrite (get_entity_moved _ _ _ _ _ Bp Bd Ev), Position_eqb_refl.
      reflexivity.
    + rewrite (get_entity_moved _ _ _ _ _ Bp Bd Ev).
      rewrite (proj2 (Position_eqb_neq dest p)) by congruence.
      rewrite Position_eqb_refl. reflexivity.
    + intros q Gq. apply NI.
      apply (occupant_in_entities _ (tuple_of q)); [exact I'|].
      apply get_entity_in_bounds, Gq.
  - intros N. destruct (store w v); cbn [class_of] in N; try reflexivity.
    congruence.
Qed.

Lemma advanced_move_player_picks_up_witness :
  exists w',
    AdvancedGame.move_player (Pos 1 0)
      (unarmed_world (mkGrid 2 [0%nat; 5%nat] [((0, 0), 0%nat); ((1, 0), 5%nat)]))
    = Return tt w' /\
    store w' 0%nat
    = HoldingPlayerObj false (Inventory.add_item 5%nat Inventory.init) /\
    Grid.get_entity (grid w') (Pos 1 0) = Some 0%nat /\
    ~ In 5%nat (entities (grid w')).
Proof.
  destruct (proj1 (advanced_move_player_picks_up
              (unarmed_world
                 (mkGrid 2 [0%nat; 5%nat] [((0, 0), 0%nat); ((1, 0), 5%nat)]))
              (Pos 1 0) (Pos 0 0) 0%nat 5%nat
              ltac:(inspect_grid_inv)
              ltac:(intros e H; cbn in H;
                    destruct H as [<-|[<-|[]]]; cbn; congruence)
              eq_refl eq_refl eq_refl eq_refl)
            false Inventory.init eq_refl)
    as (w' & E & S & _ & _ & G & _ & N & _).
  exists w'. split; [exact E|]. split; [exact S|]. split; [exact G | exact N].
Defined.

(** ** Actions in an advanced game *)

Lemma drop_keeps (e y : ref) (l : list ref) :
  In y l -> y <> e -> In y (drop (Some e) l).
Proof.
  intros H N. cbn [drop]. destruct (list_remove e l) as [l'|] eqn:E; [|exact H].
  revert l' E. induction l as [|z l IH]; intros l' E; [destruct H|].
  cbn [list_remove] in E. destruct (Nat.eqb_spec e z) as [->|Nz].
  - injection E as <-. destruct H as [->|H]; [contradiction | exact H].
  - destruct (list_remove e l) as [l''|]; [|discriminate]. injection E as <-.
    destruct H as [->|H]; [now left | right; apply (IH H l'' eq_refl)].
Qed.

Lemma advanced_ok_grid (w : World) (g' : Grid) :
  advanced_ok w -> grid_inv g' -> keys_in_bounds g' ->
  incl (entities g') (entities (grid w)) ->
  (exists e, In e (entities g') /\ isinstance (store w e) Player = true) ->
  advanced_ok (set_grid g' w).
Proof.
  intros ((_ & _ & P & T & V) & _ & Hd) I K Inc Ex.
  unfold advanced_ok, game_ok. cbn [grid store set_grid].
  split; [|split; [exact Ex | intros e He; apply Hd, Inc, He]].
  split; [exact I|]. split; [exact K|]. split; [|split].
  - intros e He. apply P, Inc, He.
  - intros e He _. exact Ex.
  - intros e b inv He. apply V, Inc, He.
Qed.

Lemma advanced_ok_pick_up (w : World) (v item : ref) (b : bool)
    (inv : Inventory) :
  advanced_ok w -> In v (entities (grid w)) ->
  store w v = HoldingPlayerObj b inv ->
  isinstance (store w item) Pickup = true ->
  advanced_ok
    (set_store (heap_set (store w) v
                  (HoldingPlayerObj b (Inventory.add_item item inv))) w).
Proof.
  intros ((I & K & P & T & V) & Ex & Hd) Hv E Pi.
  set (h' := heap_set (store w) v
               (HoldingPlayerObj b (Inventory.add_item item inv))).
  assert (C : forall r, class_of (h' r) = class_of (store w r)).
  { intros r. unfold h', heap_set. destruct (Nat.eqb_spec r v) as [->|];
      [rewrite E|]; reflexivity. }
  unfold advanced_ok, game_ok. cbn [grid store set_store]. fold h'.
  split; [|split].
  - split; [exact I|]. split; [exact K|]. split; [|split].
    + intros e He. rewrite C. apply P, He.
    + intros e He Te. rewrite C in Te. destruct (T e He Te) as (p & Hp & Pp).
      exists p. split; [exact Hp|]. unfold isinstance. rewrite C. exact Pp.
    + intros e b' inv' He E' x Hx. unfold isinstance. rewrite C.
      destruct (Nat.eqb_spec e v) as [->|Ne].
      * unfold h' in E'. rewrite heap_set_same in E'. injection E' as <- <-.
        unfold Inventory.add_item in Hx. cbn [items] in Hx.
        apply in_app_or in Hx. destruct Hx as [Hx|[<-|[]]]; [|exact Pi].
        apply (V v b inv Hv E x Hx).
      * unfold h' in E'. rewrite heap_set_other in E' by exact Ne.
        apply (V e b' inv' He E' x Hx).
  - destruct Ex as (e & He & Pe). exists e. split; [exact He|].
    unfold isinstance. rewrite C. exact Pe.
  - intros e He Pe. rewrite C. apply Hd; [exact He|].
    unfold isinstance in *. rewrite C in Pe. exact Pe.
Qed.

Lemma move_entity_advanced_ok (w : World) (p dest : Position) (v : ref) :
  advanced_ok w ->
  Grid.get_entity (grid w) p = Some v ->
  isinstance (store w v) Player = true ->
  exists w',
    on_grid (Grid.move_entity p dest) w = Return tt w' /\
    advanced_ok w' /\ no_steps w' = no_steps w.
Proof.
  intros A G Pv. pose proof A as ((I & K & _) & _).
  unfold on_grid. rewrite (move_entity_moved _ _ _ I).
  eexists. split; [reflexivity|]. split; [|reflexivity].
  apply advanced_ok_grid; [exact A | apply moved_inv, I | |
                           apply entities_moved_incl |].
  - destruct (Grid.in_bounds (grid w) dest) eqn:B.
    + apply keys_in_bounds_moved; assumption.
    + rewrite (moved_out_of_bounds _ _ _ B). exact K.
  - exists v. split; [apply mover_stays; assumption | exact Pv].
Qed.

Lemma holding_object (o : object) :
  class_of o = HoldingPlayer -> exists b inv, o = HoldingPlayerObj b inv.
Proof. destruct o; cbn; try discriminate; eauto. Qed.

Lemma call_move_player_advanced_ok (w : World) (offset : Position) :
  advanced_ok w ->
  exists w',
    call_move_player offset w = Return tt w' /\
    advanced_ok w' /\ no_steps w' = no_steps w.
Proof.
  intros A. pose proof A as ((I & K & _) & (e & He & Pe) & Hd).
  destruct (get_player_position w e I K He Pe) as (p & v & F & GP & G & Hv & Pv).
  assert (Plain : exists w', Game.move_player offset w = Return tt w' /\
                             advanced_ok w' /\ no_steps w' = no_steps w).
  { unfold Game.move_player. rewrite F.
    apply (move_entity_advanced_ok w p _ v A G Pv). }
  unfold call_move_player. destruct (game_class_of w); try exact Plain.
  unfold AdvancedGame.move_player. rewrite F. unfold bind.
  destruct (Grid.get_entity (grid w) (Position.add p offset)) as [item|] eqn:Gi.
  2:{ unfold ret. apply (move_entity_advanced_ok w p _ v A G Pv). }
  destruct (isinstance (store w item) Pickup) eqn:Pi.
  2:{ unfold ret. apply (move_entity_advanced_ok w p _ v A G Pv). }
  unfold AdvancedGame.pick_up. rewrite GP.
  destruct (holding_object _ (Hd v Hv Pv)) as (b & inv & E). rewrite E.
  pose proof (advanced_ok_pick_up w v item b inv A Hv E Pi) as A1.
  set (w1 := set_store _ w) in *.
  destruct (move_entity_advanced_ok w1 p (Position.add p offset) v A1 G)
    as (w' & M & A' & N').
  { unfold w1. cbn [store set_store]. rewrite heap_set_same. reflexivity. }
  exists w'. split; [exact M|]. split; [exact A' | exact N'].
Qed.

Lemma zombie_is_no_player (o : object) :
  isinstance o Zombie = true -> isinstance o Player = false.
Proof. destruct o; cbn; congruence. Qed.

Lemma print_advanced_ok (m : message) (w : World) :
  advanced_ok w ->
  exists w', print m w = Return tt w' /\
             advanced_ok w' /\ no_steps w' = no_steps w.
Proof. intros A. eexists. split; [reflexivity|]. split; [exact A | reflexivity]. Qed.

Lemma fire_loop_advanced_ok (fire_direction : string) (w : World) :
  advanced_ok w ->
  forall fuel current_position,
    AdvancedTextInterface.fire_loop fuel fire_direction current_position w
    = OutOfFuel \/
    AdvancedTextInterface.fire_loop fuel fire_direction current_position w
    = Raise AttributeError w \/
    exists w',
      AdvancedTextInterface.fire_loop fuel fire_direction current_position w
      = Return tt w' /\
      advanced_ok w' /\ no_steps w' = no_steps w.
Proof.
  intros A. pose proof A as ((I & K & _) & (x & Hx & Px) & _).
  induction fuel as [|fuel IH]; intros cur; [now left|].
  cbn [AdvancedTextInterface.fire_loop].
  destruct (Game.direction_to_offset fire_direction) as [offset|];
    [|right; now left].
  destruct (Grid.in_bounds (grid w) (Position.add cur offset)); cbn [negb];
    [|right; right; apply print_advanced_ok, A].
  destruct (Grid.get_entity (grid w) (Position.add cur offset)) as [e|] eqn:G;
    [|apply IH].
  right; right.
  destruct (isinstance (store w e) Zombie) eqn:Zk; cbn [orb].
  2:{ rewrite (tracking_zombie_is_zombie _ Zk). apply print_advanced_ok, A. }
  unfold on_grid. rewrite remove_entity_removed
    by (intros y; apply occupant_in_entities, I).
  eexists. split; [reflexivity|]. split; [|reflexivity].
  destruct (get_entity_in_bounds _ _ _ G) as [B E].
  apply advanced_ok_grid; [exact A | apply removed_inv, I | | |].
  - intros k Hk. rewrite (in_bounds_size (grid w)) by apply removed_size.
    apply K. unfold removed in Hk. rewrite B in Hk.
    cbn [EntityLocations] in Hk. apply keys_without_incl in Hk. exact Hk.
  - unfold removed. rewrite B. cbn [entities]. apply drop_incl.
  - exists x. split; [|exact Px]. unfold removed. rewrite B, E. cbn [entities].
    apply drop_keeps; [exact Hx|]. intros ->.
    rewrite (zombie_is_no_player _ Zk) in Px. discriminate.
Qed.

Lemma fire_advanced_ok (w : World) (fire_direction : string)
    (current_position : Position) (inventory : Inventory) :
  advanced_ok w ->
  exists w',
    AdvancedTextInterface.fire fire_direction current_position inventory w
    = Return tt w' /\
    advanced_ok w' /\ no_steps w' = no_steps w.
Proof.
  intros A. unfold AdvancedTextInterface.fire.
  destruct (Inventory.contains (store w) inventory CROSSBOW);
    [|apply print_advanced_ok, A].
  destruct (existsb (String.eqb fire_direction) DIRECTIONS) eqn:V; cbn [negb];
    [|apply print_advanced_ok, A].
  destruct (valid_direction _ V) as (offset & D & U).
  pose proof A as ((I & _) & _).
  destruct (fire_loop_walk fire_direction offset w D I
              (S (Z.to_nat (size (grid w)))) current_position)
    as [(k & _ & _ & Hs)|[Hc _]].
  - destruct (fire_loop_advanced_ok fire_direction w A
                (S (Z.to_nat (size (grid w)))) current_position)
      as [O|[O|O]]; [| |exact O]; exfalso;
      destruct Hs as [[_ (w' & E & _)]|[(e & _ & _ & (w' & E & _))
                                       |(e & _ & _ & (w' & E & _))]];
      congruence.
  - exfalso.
    pose proof (ray_within (grid w) current_position offset
                  (Z.to_nat (size (grid w))) U
                  (proj1 (Hc 1%nat ltac:(lia)))
                  (proj1 (Hc (S (Z.to_nat (size (grid w)))) ltac:(lia)))).
    lia.
Qed.

Lemma game_step_advanced_ok (w : World) :
  advanced_ok w ->
  exists w',
    Game.step w = Return tt w' /\
    advanced_ok w' /\ no_steps w' = no_steps w + 1.
Proof.
  intros (G & (x & Hx & Px) & Hd). unfold Game.step, bind, modify, get.
  set (w0 := set_no_steps (no_steps w + 1) w).
  assert (G0 : game_ok w0) by exact G.
  destruct (for_each_call_step (Grid.get_mapping (grid w0)) w0 G0)
    as (w' & S & G' & En & _ & N).
  { intros kv Hkv. apply (values_entities _ _ (proj1 G0)).
    rewrite <- get_mapping_entities. apply in_map, Hkv. }
  pose proof (for_each_turn_frame (Grid.get_mapping (grid w0)) w0 w') as Fr.
  rewrite S in Fr.
  destruct (Fr eq_refl) as (_ & _ & _ & H).
  assert (C : forall r, class_of (store w' r) = class_of (store w r))
    by (intros r; apply H).
  exists w'. split; [exact S|]. split; [|exact N].
  split; [exact G'|]. rewrite En. split.
  - exists x. split; [exact Hx|]. unfold isinstance. rewrite C. exact Px.
  - intros e He Pe. rewrite C. apply Hd; [exact He|].
    unfold isinstance in *. rewrite C in Pe. exact Pe.
Qed.

(** X18: in an advanced game that is well formed, with a player and all
    players holding an inventory, [handle_action] returns for every
    action and every firing direction typed, be they valid or not: nothing
    raises, the step count has grown by exactly one, and the game is again
    well formed, so the next action finds it as this one did. *)
Theorem advanced_actions_never_raise (w : World)
    (action fire_direction : string) :
  advanced_ok w ->
  exists w',
    AdvancedTextInterface.handle_action action fire_direction w
    = Return tt w' /\
    no_steps w' = no_steps w + 1 /\
    advanced_ok w'.
Proof.
  intros A. pose proof A as ((I & K & _) & (e & He & Pe) & Hd).
  destruct (get_player_position w e I K He Pe) as (p & v & F & GP & G & Hv & Pv).
  destruct (holding_object _ (Hd v Hv Pv)) as (b & inv & E).
  unfold AdvancedTextInterface.handle_action. rewrite F, GP, E.
  cbn [HoldingPlayer.get_inventory].
  assert (Then : forall w1, advanced_ok w1 -> no_steps w1 = no_steps w ->
            exists w', Game.step w1 = Return tt w' /\
                       no_steps w' = no_steps w + 1 /\ advanced_ok w').
  { intros w1 A1 N1. destruct (game_step_advanced_ok w1 A1) as (w' & S & A' & N').
    exists w'. split; [exact S|]. split; [lia | exact A']. }
  destruct (String.eqb action FIRE).
  - unfold bind.
    destruct (fire_advanced_ok w fire_direction p inv A) as (w1 & Fi & A1 & N1).
    rewrite Fi. apply Then; assumption.
  - unfold TextInterface.handle_action, bind.
    destruct (Game.direction_to_offset action) as [offset|].
    + destruct (call_move_player_advanced_ok w offset A) as (w1 & M & A1 & N1).
      rewrite M. apply Then; assumption.
    + unfold ret. apply Then; [exact A | reflexivity].
Qed.

Lemma advanced_actions_never_raise_witness :
  exists w',
    AdvancedTextInterface.handle_action FIRE RIGHT
      (armed_world (mkGrid 5 [0%nat; 1%nat] [((0, 0), 0%nat); ((3, 0), 1%nat)]))
    = Return tt w' /\
    no_steps w' = 1 /\
    advanced_ok w'.
Proof.
  apply (advanced_actions_never_raise
           (armed_world
              (mkGrid 5 [0%nat; 1%nat] [((0, 0), 0%nat); ((3, 0), 1%nat)]))
           FIRE RIGHT).
  split; [|split].
  - split; [inspect_grid_inv|]. split; [|split; [|split]].
    + intros k H. cbn in H. destruct H as [<-|[<-|[]]]; reflexivity.
    + intros e H. cbn in H. destruct H as [<-|[<-|[]]]; cbn; discriminate.
    + intros e H. cbn in H. destruct H as [<-|[<-|[]]]; cbn; discriminate.
    + intros e b inv H. cbn in H.
      destruct H as [<-|[<-|[]]]; cbn; try discriminate.
      intros [= <- <-] item Hi. cbn in Hi. destruct Hi as [<-|[]]. reflexivity.
  - exists 0%nat. split; [now left | reflexivity].
  - intros e H. cbn in H. destruct H as [<-|[<-|[]]]; cbn; congruence.
Defined.

(** ** Contact with a zombie *)

Lemma find_player_in_classes (h h' : heap) (d : dict) :
  (forall r, class_of (h' r) = class_of (h r)) ->
  Grid.find_player_in h' d = Grid.find_player_in h d.
Proof.
  intros C. induction d as [|[k v] d IH]; cbn [Grid.find_player_in];
    [reflexivity|].
  unfold isinstance. rewrite C, IH. reflexivity.
Qed.

(** X19: when the first candidate of a wandering zombie that is not
    passed over holds a player, the game's player [v] is the one infected:
    if [v] is a vulnerable player, or a holding player with no garlic in
    the inventory, the step returns, nothing has moved, and [has_lost] of
    the intermediate game is then true; if [v] holds a garlic, the step
    returns and [has_lost] answers what it answered before. *)
Theorem zombie_contact_decides_has_lost (w : World) (position : Position)
    (pre post : list Position) (offset : Position) (e v : ref) :
  map (fun d => Pos (fst d) (snd d)) (random_directions w (draws w))
  = pre ++ offset :: post ->
  Forall (blocked w position) pre ->
  Grid.get_entity (grid w) (Position.add position offset) = Some e ->
  isinstance (store w e) Player = true ->
  get_player w = Some v ->
  class_of (store w v) = VulnerablePlayer \/
  class_of (store w v) = HoldingPlayer ->
  exists w',
    Zombie.step position w = Return tt w' /\
    grid w' = grid w /\
    IntermediateGame.has_lost w' =
    match store w v with
    | HoldingPlayerObj b inv =>
        if Inventory.contains (store w) inv GARLIC then Some b else Some true
    | _ => Some true
    end.
Proof.
  intros Eo B G Pe GP Cv.
  assert (S : Zombie.step position w =
              on_store (call_infect (Some v)) (set_draws (S (draws w)) w)).
  { unfold Zombie.step. rewrite Eo.
    rewrite (try_offsets_skip (set_draws (S (draws w)) w) position pre _ B).
    rewrite (try_offsets_infect (set_draws (S (draws w)) w) position offset
               post e G Pe).
    unfold get_player in *. cbn [store grid set_draws]. rewrite GP.
    reflexivity. }
  rewrite S. unfold on_store, call_infect. cbn [store set_draws].
  assert (L : forall w',
            grid w' = grid w ->
            (forall r, class_of (store w' r) = class_of (store w r)) ->
            IntermediateGame.has_lost w' = VulnerablePlayer.is_infected (store w' v)).
  { intros w' Eg C. unfold IntermediateGame.has_lost, get_player.
    unfold Grid.find_player. rewrite Eg.
    rewrite (find_player_in_classes (store w) (store w') _ C).
    unfold get_player, Grid.find_player in GP. rewrite GP. reflexivity. }
  assert (Cs : forall o, class_of o = class_of (store w v) ->
                 forall r, class_of (heap_set (store w) v o r)
                           = class_of (store w r)).
  { intros o Co r. unfold heap_set.
    destruct (Nat.eqb_spec r v) as [->|]; [exact Co | reflexivity]. }
  destruct (store w v) as [ | | | | b | b inv | n | n ] eqn:E;
    cbn [class_of] in *; try (destruct Cv; discriminate).
  - unfold VulnerablePlayer.infect. rewrite E.
    eexists. split; [reflexivity|]. split; [reflexivity|].
    rewrite L; [| reflexivity | cbn [store set_store]; apply Cs; reflexivity].
    cbn [store set_store]. rewrite heap_set_same. reflexivity.
  - unfold HoldingPlayer.infect. rewrite E.
    cbn [HoldingPlayer.get_inventory].
    destruct (Inventory.contains (store w) inv GARLIC).
    + eexists. split; [reflexivity|]. split; [reflexivity|].
      rewrite L; [| reflexivity | reflexivity].
      cbn [store set_store set_draws]. rewrite E. reflexivity.
    + unfold VulnerablePlayer.infect. rewrite E.
      eexists. split; [reflexivity|]. split; [reflexivity|].
      rewrite L; [| reflexivity | cbn [store set_store]; apply Cs; reflexivity].
      cbn [store set_store]. rewrite heap_set_same. reflexivity.
Qed.

Lemma zombie_contact_decides_has_lost_witness :
  exists w',
    Zombie.step (Pos 0 0)
      (example_world (mkGrid 2 [1%nat; 0%nat] [((0, 0), 1%nat); ((0, 1), 0%nat)]))
    = Return tt w' /\
    grid w' = mkGrid 2 [1%nat; 0%nat] [((0, 0), 1%nat); ((0, 1), 0%nat)] /\
    IntermediateGame.has_lost w' = Some true.
Proof.
  apply (zombie_contact_decides_has_lost
           (example_world
              (mkGrid 2 [1%nat; 0%nat] [((0, 0), 1%nat); ((0, 1), 0%nat)]))
           (Pos 0 0) [] [Pos 0 (-1); Pos 1 0; Pos (-1) 0] (Pos 0 1)
           0%nat 0%nat eq_refl (Forall_nil _) eq_refl eq_refl eq_refl).
  left. reflexivity.
Defined.

(** ** Pursuit *)

Lemma candidate_facts (player_position position : Position)
    (c : TrackingZombie.entry) :
  In c (candidates player_position position) ->
  In (fst (fst c)) TrackingZombie.offsets_list /\
  snd (fst c) =
  Position.distance player_position (Position.add position (fst (fst c))) /\
  Position.distance player_position position - 1 <= snd (fst c).
Proof.
  intros H. cbn in H. unfold TrackingZombie.offsets_list.
  destruct player_position as [px py], position as [x y].
  destruct H as [<-|[<-|[<-|[<-|[]]]]]; cbn [fst snd In];
    (split; [tauto|]; split; [reflexivity|]);
    unfold Position.distance, Position.add; cbn [get_x get_y]; lia.
Qed.

Lemma closer_candidate (player_position position : Position) :
  player_position <> position ->
  exists c, In c (candidates player_position position) /\
            snd (fst c) = Position.distance player_position position - 1.
Proof.
  intros N. destruct player_position as [px py], position as [x y].
  assert (D : py > y \/ py < y \/ px > x \/ px < x).
  { destruct (Z.eq_dec px x), (Z.eq_dec py y); subst; try lia.
    exfalso. apply N. reflexivity. }
  unfold candidates. cbn [map fst snd].
  destruct D as [D|[D|[D|D]]];
    [ exists (Pos 0 1, Position.distance (Pos px py) (Position.add (Pos x y) (Pos 0 1)), "S"%char)
    | exists (Pos 0 (-1), Position.distance (Pos px py) (Position.add (Pos x y) (Pos 0 (-1))), "N"%char)
    | exists (Pos 1 0, Position.distance (Pos px py) (Position.add (Pos x y) (Pos 1 0)), "E"%char)
    | exists (Pos (-1) 0, Position.distance (Pos px py) (Position.add (Pos x y) (Pos (-1) 0)), "W"%char) ];
    (split; [cbn [In]; tauto|]);
    unfold Position.distance, Position.add; cbn [get_x get_y fst snd]; lia.
Qed.

(** X20: a tracking zombie that is not on the player's cell, and whose
    neighbouring cells closer to the player are all in bounds and empty,
    moves: its step returns with the zombie on a neighbouring cell whose
    Manhattan distance to the player is exactly one less. *)
Theorem tracking_zombie_closes_in (w : World)
    (position player_position : Position) (z : ref) :
  Grid.get_entity (grid w) position = Some z ->
  Grid.find_player (store w) (grid w) = Some player_position ->
  player_position <> position ->
  (forall offset, In offset TrackingZombie.offsets_list ->
     Position.distance player_position (Position.add position offset)
     < Position.distance player_position position ->
     Grid.in_bounds (grid w) (Position.add position offset) = true /\
     Grid.get_entity (grid w) (Position.add position offset) = None) ->
  exists w' offset,
    In offset TrackingZombie.offsets_list /\
    TrackingZombie.step position w = Return tt w' /\
    Grid.get_entity (grid w') (Position.add position offset) = Some z /\
    Grid.get_entity (grid w') position = None /\
    Position.distance player_position (Position.add position offset)
    = Position.distance player_position position - 1.
Proof.
  intros Hz F N Free.
  pose proof (compressed_list_permutation player_position position) as P.
  pose proof (compressed_list_sorted player_position position) as SS.
  unfold TrackingZombie.step. rewrite F.
  destruct (TrackingZombie.compressed_list player_position position)
    as [|c rest] eqn:T.
  { apply Permutation_nil in P. discriminate. }
  destruct (closer_candidate player_position position N) as (good & Hg & Dg).
  destruct (candidate_facts player_position position c) as (Oc & Ec & Lc).
  { apply (Permutation_in _ P). now left. }
  assert (Le : snd (fst c) <= snd (fst good)).
  { apply (Permutation_in _ (Permutation_sym P)) in Hg.
    destruct Hg as [<-|Hg]; [lia|].
    apply StronglySorted_inv in SS. destruct SS as [_ Fa].
    rewrite Forall_forall in Fa. specialize (Fa good Hg).
    unfold tried_before in Fa. lia. }
  assert (Dc : snd (fst c) = Position.distance player_position position - 1)
    by lia.
  destruct (Free (fst (fst c)) Oc) as [B E]; [rewrite <- Ec; lia|].
  cbn [map]. rewrite (try_offsets_move w position (fst (fst c)) _ B E).
  eexists. exists (fst (fst c)). split; [exact Oc|]. split; [reflexivity|].
  cbn [grid set_grid].
  destruct (moved_zombie (grid w) position _ z Hz B E) as (A1 & A2 & _).
  split; [exact A1|]. split; [exact A2|]. rewrite <- Ec. exact Dc.
Qed.

Lemma tracking_zombie_closes_in_witness :
  exists w' offset,
    In offset TrackingZombie.offsets_list /\
    TrackingZombie.step (Pos 1 1)
      (example_world (mkGrid 5 [2%nat; 0%nat] [((1, 1), 2%nat); ((2, 4), 0%nat)]))
    = Return tt w' /\
    Grid.get_entity (grid w') (Position.add (Pos 1 1) offset) = Some 2%nat /\
    Grid.get_entity (grid w') (Pos 1 1) = None /\
    Position.distance (Pos 2 4) (Position.add (Pos 1 1) offset)
    = Position.distance (Pos 2 4) (Pos 1 1) - 1.
Proof.
  apply (tracking_zombie_closes_in
           (example_world
              (mkGrid 5 [2%nat; 0%nat] [((1, 1), 2%nat); ((2, 4), 0%nat)]))
           (Pos 1 1) (Pos 2 4) 2%nat eq_refl eq_refl).
  - discriminate.
  - intros offset H _. cbn in H.
    destruct H as [<-|[<-|[<-|[<-|[]]]]]; split; reflexivity.
Defined.
